(** * Privately counting distinct elements: a shallow embedding

    The development follows the Python package
    [privately_counting_distinct_elements]: the bipartite data set
    ([dataset.py]), the four non-private estimators ([distinct_count.py]),
    the generalized exponential selector ([selection.py], with its caller in
    [report/dp.py]) and the shifted inverse mechanism ([shifted_inverse.py]).
    It goes on with the loaders ([prepare_dataset] of [dataset.py],
    [_prepare_dataset] of [report/tpch.py]) and with the helpers of the
    report ([report/common.py], [report/dp.py], [report/max_utility.py],
    [report/stats.py], [report/quantile.py]).

    Conventions.
    - Value identifiers and user indices are [nat] (they index rows and
      columns of sparse matrices); contribution bounds are Python [int]s
      that may be zero or negative, hence [Z].
    - A Python exception is a value of [exn]; a computation that may raise
      has type [outcome A].
    - Calls into SciPy, the [random] module and diffprivlib leave the
      repository.  They are modelled by their documented contract: the
      COO constructor of [csr_matrix] with its shape inference,
      [sparse.vstack], [csgraph.maximum_bipartite_matching] (a maximum
      cardinality matching, found here by exhaustive search),
      [csgraph.maximum_flow] (the value of a maximum integral flow, found
      here by enumeration) and [random.sample] (selection from a pool,
      driven by an explicit stream of draws).
    - Python floats are idealised as real numbers.
    - Reading a file, [json.loads] and the tokenizer behind [_split_text]
      leave the repository as well: the loaders take the parsed lines, and
      [np.quantile], [np.argmax] and [random.choice] follow their
      documentation. *)

From Stdlib Require Import String.
From Stdlib Require Import List ListSet ZArith Arith Lia Bool Permutation.
From Stdlib Require Import Reals Lra.
Import ListNotations.
Local Open Scope string_scope.
Local Open Scope list_scope.
Local Open Scope nat_scope.

(** ** Exceptions and results *)

Inductive exn : Type :=
| ValueError (msg : string)
| AssertionError (msg : string)
| ZeroDivisionError.

Inductive outcome (A : Type) : Type :=
| OK (a : A)
| Raise (e : exn).

Arguments OK {A} a.
Arguments Raise {A} e.

Definition bind {A B : Type} (r : outcome A) (k : A -> outcome B) : outcome B :=
  match r with
  | OK a => k a
  | Raise e => Raise e
  end.

Notation "x <- r ;; k" := (bind r (fun x => k))
  (at level 61, r at next level, right associativity).

Definition raises {A : Type} (r : outcome A) : Prop := exists e, r = Raise e.

(** [enumerate(xs)] *)
Definition enumerate {A : Type} (xs : list A) : list (nat * A) :=
  combine (seq 0 (length xs)) xs.

(** ** SciPy: sparse matrices, matching and flow *)

Module scipy.

(** A sparse matrix keeps its shape and its stored triplets
    [(row, column, weight)]. *)
Record csr_matrix : Type := {
  shape : nat * nat;
  coo : list (nat * nat * Z)
}.

Definition nrows (g : csr_matrix) : nat := fst (shape g).
Definition ncols (g : csr_matrix) : nat := snd (shape g).
Definition row_of (t : nat * nat * Z) : nat := fst (fst t).
Definition col_of (t : nat * nat * Z) : nat := snd (fst t).
Definition weight_of (t : nat * nat * Z) : Z := snd t.

(** [sparse.csr_matrix((data, (row_ind, col_ind)))]: the shape is inferred
    from the largest indices, which fails on empty index arrays. *)
Definition csr_matrix_init (data : list Z) (row_ind col_ind : list nat)
  : outcome csr_matrix :=
  if negb ((length row_ind =? length data) && (length col_ind =? length data))
  then Raise (ValueError "row, column, and data array must all be the same length")
  else
    match row_ind with
    | [] => Raise (ValueError "cannot infer dimensions from zero sized index arrays")
    | _ :: _ =>
        OK {| shape := (S (list_max row_ind), S (list_max col_ind));
              coo := combine (combine row_ind col_ind) data |}
    end.

(** [sparse.vstack(blocks)]: the blocks one below the other. *)
Fixpoint stack_from (offset : nat) (blocks : list csr_matrix)
  : list (nat * nat * Z) :=
  match blocks with
  | [] => []
  | blk :: rest =>
      map (fun t => (offset + row_of t, col_of t, weight_of t)) (coo blk)
        ++ stack_from (offset + nrows blk) rest
  end.

Definition vstack (blocks : list csr_matrix) : outcome csr_matrix :=
  match blocks with
  | [] => Raise (ValueError "blocks must be 2-D")
  | blk :: rest =>
      if forallb (fun b' => ncols b' =? ncols blk) rest
      then OK {| shape := (list_sum (map nrows blocks), ncols blk);
                 coo := stack_from 0 blocks |}
      else Raise (ValueError "incompatible dimensions")
  end.

(** Rows adjacent to column [j]. *)
Definition neighbours (g : csr_matrix) (j : nat) : list nat :=
  map row_of (filter (fun t => col_of t =? j) (coo g)).

(** Number of matched columns of a matching array: [(perm != -1).sum()]. *)
Definition matched (perm : list Z) : nat :=
  length (filter (fun r => negb (r =? -1)%Z) perm).

Definition better (p q : list Z) : list Z :=
  if matched p <? matched q then q else p.

(** Exhaustive search for a largest matching of the columns [cols] into
    rows outside [used]; the answer lists, per column, the matched row
    or [-1]. *)
Fixpoint search (adj : nat -> list nat) (cols : list nat) (used : list nat)
  : list Z :=
  match cols with
  | [] => []
  | j :: rest =>
      fold_left
        (fun best r =>
           if existsb (Nat.eqb r) used then best
           else better best (Z.of_nat r :: search adj rest (r :: used)))
        (adj j)
        ((-1)%Z :: search adj rest used)
  end.

(** [csgraph.maximum_bipartite_matching(graph)] with the default
    [perm_type='row']: entry [j] is the row matched to column [j]. *)
Definition maximum_bipartite_matching (g : csr_matrix) : list Z :=
  search (neighbours g) (seq 0 (ncols g)) [].

(** Flows.  A flow gives every stored edge an amount between [0] and its
    capacity. *)
Definition amounts (c : Z) : list Z := map Z.of_nat (seq 0 (S (Z.to_nat c))).

Fixpoint all_flows (caps : list Z) : list (list Z) :=
  match caps with
  | [] => [[]]
  | c :: rest =>
      flat_map (fun x => map (cons x) (all_flows rest)) (amounts c)
  end.

Definition Zsum (l : list Z) : Z := fold_right Z.add 0%Z l.

Definition outflow (u : nat) (ef : list ((nat * nat * Z) * Z)) : Z :=
  Zsum (map (fun p => if row_of (fst p) =? u then snd p else 0%Z) ef).

Definition inflow (u : nat) (ef : list ((nat * nat * Z) * Z)) : Z :=
  Zsum (map (fun p => if col_of (fst p) =? u then snd p else 0%Z) ef).

Definition conserving (g : csr_matrix) (source sink : nat) (f : list Z) : bool :=
  forallb
    (fun u => (u =? source) || (u =? sink)
              || (inflow u (combine (coo g) f) =? outflow u (combine (coo g) f))%Z)
    (seq 0 (nrows g)).

Definition flow_value_of (g : csr_matrix) (source : nat) (f : list Z) : Z :=
  (outflow source (combine (coo g) f) - inflow source (combine (coo g) f))%Z.

(** [csgraph.maximum_flow(csgraph, source, sink).flow_value] *)
Definition maximum_flow (g : csr_matrix) (source sink : nat) : outcome Z :=
  if source =? sink
  then Raise (ValueError "source and sink vertices must differ")
  else if negb (nrows g =? ncols g)
  then Raise (ValueError "graph must be specified as a square matrix.")
  else if negb ((source <? nrows g) && (sink <? nrows g))
  then Raise (ValueError "source and sink must be vertices of the graph")
  else
    OK (fold_right Z.max 0%Z
          (map (flow_value_of g source)
               (filter (conserving g source sink)
                       (all_flows (map weight_of (coo g)))))).

End scipy.

(** ** The [random] module *)

Module random.

(** The generator is a stream of raw draws; [randbelow n] reduces the next
    draw modulo [n]. *)
Definition rng : Type := list nat.

Definition randbelow (n : nat) (s : rng) : nat * rng :=
  (hd 0 s mod n, tl s).

(** [pool[j] = pool[len - 1]], then the pool shrinks by one. *)
Definition move_last {A : Type} (j : nat) (pool : list A) : list A :=
  match rev pool with
  | [] => []
  | last :: front =>
      if j =? length front then rev front
      else firstn j (rev front) ++ last :: skipn (S j) (rev front)
  end.

Fixpoint select {A : Type} (d : A) (k : nat) (pool : list A) (s : rng)
  : list A * rng :=
  match k with
  | 0 => ([], s)
  | S k' =>
      let (j, s1) := randbelow (length pool) s in
      let (picked, s2) := select d k' (move_last j pool) s1 in
      (nth j pool d :: picked, s2)
  end.

(** [random.sample(population, k=k)] *)
Definition sample {A : Type} (d : A) (population : list A) (k : Z) (s : rng)
  : outcome (list A) * rng :=
  if ((k <? 0) || (Z.of_nat (length population) <? k))%Z
  then (Raise (ValueError "Sample larger than population or is negative"), s)
  else
    let (picked, s') := select d (Z.to_nat k) population s in
    (OK picked, s').

End random.

(** ** [dataset.py] *)

Module dataset.

Import scipy.

(** The [(row, column)] pairs both matrix builders walk through:
    [for index, row in enumerate(data): for item in row: ...] *)
Definition entries (data : list (list nat)) : list (nat * nat) :=
  flat_map (fun ir => map (fun item => (fst ir, item)) (snd ir)) (enumerate data).

Definition _to_matrix (data : list (list nat)) : outcome csr_matrix :=
  let row_ind := map fst (entries data) in
  let col_ind := map snd (entries data) in
  csr_matrix_init (repeat 1%Z (length row_ind)) row_ind col_ind.

Definition _to_flow_matrix (number_of_values : nat) (data : list (list nat))
    (user_contribution_bound : Z) : outcome csr_matrix :=
  let number_of_users := length data in
  let row_ind :=
    map (fun _ => 0) (seq 2 number_of_users)
      ++ seq (number_of_users + 2) number_of_values
      ++ map (fun e => fst e + 2) (entries data) in
  let col_ind :=
    seq 2 number_of_users
      ++ map (fun _ => 1) (seq (number_of_users + 2) number_of_values)
      ++ map (fun e => snd e + number_of_users + 2) (entries data) in
  let number_of_internal_edges := length (entries data) in
  let weights :=
    repeat user_contribution_bound number_of_users
      ++ repeat 1%Z number_of_values
      ++ repeat 1%Z number_of_internal_edges in
  csr_matrix_init weights row_ind col_ind.

Record DataSet : Type := {
  _data : list (list nat);
  _degree : nat;
  number_of_values : nat;
  number_of_records : nat
}.

(** [DataSet.__init__]; [max] of an empty sequence raises. *)
Definition DataSet_init (data : list (list nat)) : outcome DataSet :=
  match data with
  | [] => Raise (ValueError "max() arg is an empty sequence")
  | _ :: _ =>
      OK {| _data := data;
            _degree := list_max (map (@length nat) data);
            number_of_values := length (nodup Nat.eq_dec (concat data));
            number_of_records := list_sum (map (@length nat) data) |}
  end.

(** The two matrices are memoised by the class; the memo does not change
    what is returned. *)
Definition as_matrix (d : DataSet) : outcome csr_matrix :=
  _to_matrix (_data d).

Definition as_flow_matrix (d : DataSet) (user_contribution_bound : Z)
  : outcome csr_matrix :=
  _to_flow_matrix (number_of_values d) (_data d) user_contribution_bound.

Definition degree (d : DataSet) : nat := _degree d.
Definition number_of_users (d : DataSet) : nat := length (_data d).

(** The invariants the ingestion establishes: no user lists a value twice,
    the identifiers are [0 .. number_of_values - 1], and there is at least
    one record. *)
Definition well_formed (data : list (list nat)) : Prop :=
  Forall (@NoDup nat) data
  /\ (forall v, In v (concat data) -> v < length (nodup Nat.eq_dec (concat data)))
  /\ concat data <> [].

End dataset.

(** ** [distinct_count.py] *)

Module distinct_count.

Import scipy dataset.

Definition true_distinct_count (data : DataSet) : nat := number_of_values data.

Definition _sample (values : list nat) (num : Z) (s : random.rng)
  : outcome (list nat) * random.rng :=
  if (Z.of_nat (length values) <? num)%Z then (OK values, s)
  else random.sample 0 values num s.

(** The [while] loop of the greedy estimator for one user: [rest] is what
    lies at and after the cursor [pos]. *)
Fixpoint advance (rest : list nat) (pos : nat) (result : set nat)
  : nat * set nat :=
  match rest with
  | [] => (pos, result)
  | index :: rest' =>
      if set_mem Nat.eq_dec index result
      then advance rest' (S pos) result
      else (S pos, set_add Nat.eq_dec index result)
  end.

Fixpoint list_set {A : Type} (l : list A) (i : nat) (x : A) : list A :=
  match l, i with
  | [], _ => []
  | _ :: t, 0 => x :: t
  | h :: t, S i' => h :: list_set t i' x
  end.

Definition greedy_user (st : list nat * set nat) (ir : nat * list nat)
  : list nat * set nat :=
  let (positions, result) := st in
  let (i, r) := ir in
  let (pos, result') := advance (skipn (nth i positions 0) r) (nth i positions 0) result in
  (list_set positions i pos, result').

Definition greedy_round (data : list (list nat)) (st : list nat * set nat)
  : list nat * set nat :=
  fold_left greedy_user (enumerate data) st.

Definition greedy_distinct_count (data : DataSet) (user_contribution_bound : Z)
  : nat :=
  let result := empty_set nat in
  let positions := repeat 0 (length (_data data)) in
  let final :=
    Nat.iter (Z.to_nat user_contribution_bound) (greedy_round (_data data))
             (positions, result) in
  length (snd final).

Definition matching_distinct_count (data : DataSet) (user_contribution_bound : Z)
  : outcome nat :=
  m <- as_matrix data ;;
  stacked <- vstack (repeat m (Z.to_nat user_contribution_bound)) ;;
  OK (matched (maximum_bipartite_matching stacked)).

Definition flow_distinct_count (data : DataSet) (user_contribution_bound : Z)
  : outcome Z :=
  g <- as_flow_matrix data user_contribution_bound ;;
  maximum_flow g 0 1.

Fixpoint sampling_loop (records : list (list nat)) (num : Z)
    (result : set nat) (s : random.rng) : outcome (set nat) :=
  match records with
  | [] => OK result
  | record :: rest =>
      let (drawn, s') := _sample record num s in
      match drawn with
      | OK xs => sampling_loop rest num
                   (fold_left (fun acc x => set_add Nat.eq_dec x acc) xs result) s'
      | Raise e => Raise e
      end
  end.

Definition sampling_distinct_count (data : DataSet) (user_contribution_bound : Z)
    (s : random.rng) : outcome nat :=
  result <- sampling_loop (_data data) user_contribution_bound (empty_set nat) s ;;
  OK (length result).

End distinct_count.

(** ** Python arithmetic on floats, idealised over the reals *)

Module pymath.

Local Open Scope R_scope.

(** [x / y] *)
Definition div (x y : R) : outcome R :=
  if Req_dec_T y 0 then Raise ZeroDivisionError else OK (x / y).

(** [math.log(x)] *)
Definition log (x : R) : outcome R :=
  if Rle_dec x 0 then Raise (ValueError "math domain error") else OK (ln x).

(** [math.log(x, base)] is [log(x) / log(base)]. *)
Definition log_base (x base : R) : outcome R :=
  num <- log x ;;
  den <- log base ;;
  div num den.

Definition floor (x : R) : Z := Int_part x.

(** [math.ceil(x)] *)
Definition ceil (x : R) : Z := (- Int_part (- x))%Z.

(** [int(x)] truncates towards zero. *)
Definition int (x : R) : Z := if Rle_dec 0 x then floor x else ceil x.

(** [math.pow(x, y)] for a positive [x] *)
Definition pow (x y : R) : R := Rpower x y.

(** [min(xs)] and [max(xs)] *)
Definition min (xs : list R) : outcome R :=
  match xs with
  | [] => Raise (ValueError "min() arg is an empty sequence")
  | x :: rest => OK (fold_left Rmin rest x)
  end.

Definition max (xs : list R) : outcome R :=
  match xs with
  | [] => Raise (ValueError "max() arg is an empty sequence")
  | x :: rest => OK (fold_left Rmax rest x)
  end.

(** A comprehension whose body may raise: the first exception wins. *)
Fixpoint for_each {A B : Type} (body : A -> outcome B) (xs : list A)
  : outcome (list B) :=
  match xs with
  | [] => OK []
  | x :: rest =>
      y <- body x ;;
      ys <- for_each body rest ;;
      OK (y :: ys)
  end.

End pymath.

(** ** diffprivlib: the exponential mechanism *)

Module diffprivlib.

Local Open Scope R_scope.

Record Exponential : Type := {
  epsilon : R;
  sensitivity : R;
  utility : list R;
  candidates : option (list Z)
}.

(** [mechanisms.Exponential(epsilon=, sensitivity=, utility=, candidates=)]
    with the checks of its constructor. *)
Definition Exponential_init (epsilon sensitivity : R) (utility : list R)
    (candidates : option (list Z)) : outcome Exponential :=
  if Rlt_dec epsilon 0 then Raise (ValueError "Epsilon must be non-negative")
  else if Req_dec_T epsilon 0
  then Raise (ValueError "Epsilon and Delta cannot both be zero")
  else if Rlt_dec sensitivity 0
  then Raise (ValueError "Sensitivity must be non-negative")
  else
    match utility with
    | [] => Raise (ValueError "Utility must have at least one element")
    | _ :: _ =>
        match candidates with
        | Some cs =>
            if negb (length cs =? length utility)%nat
            then Raise (ValueError "List of candidates must be the same length as the list of utility values")
            else OK {| epsilon := epsilon; sensitivity := sensitivity;
                       utility := utility; candidates := candidates |}
        | None =>
            OK {| epsilon := epsilon; sensitivity := sensitivity;
                  utility := utility; candidates := candidates |}
        end
    end.

(** [randomise()]; [idx] is the index the sampler draws, one of
    [0 .. len(utility) - 1].  The method ends with
    [return self.candidates[idx] if self.candidates else idx]. *)
Definition randomise (mech : Exponential) (idx : nat) : Z :=
  match candidates mech with
  | Some (c :: cs) => nth idx (c :: cs) 0%Z
  | _ => Z.of_nat idx
  end.

End diffprivlib.

(** ** [selection.py] *)

Module selection.

Import pymath diffprivlib.
Local Open Scope R_scope.

(** [sensitivity: Sequence[float] | float] *)
Inductive sensitivity_arg : Type :=
| Scalar (x : R)
| Sequence (xs : list R).

Record GeneralizedExponential : Type := { mechanism : Exponential }.

(** One entry of [reweighed_utility]: minus the largest ratio over [j]. *)
Definition reweigh (t : R) (utility sensitivity : list R) (i : nat) : outcome R :=
  ratios <- for_each
              (fun j =>
                 div ((- nth i utility 0 + nth i sensitivity 0 * t)
                      - (- nth j utility 0 + nth j sensitivity 0 * t))
                     (nth i sensitivity 0 + nth j sensitivity 0))
              (seq 0 (length utility)) ;;
  largest <- max ratios ;;
  OK (- largest).

Definition GeneralizedExponential_init (epsilon beta : R)
    (sensitivity : sensitivity_arg) (utility : list R)
  : outcome GeneralizedExponential :=
  let sensitivity :=
    match sensitivity with
    | Sequence xs => xs
    | Scalar x => repeat x (length utility)
    end in
  if negb (length sensitivity =? length utility)%nat
  then Raise (AssertionError "len(sensitivity) == len(utility)")
  else if in_dec Req_dec_T 0 sensitivity
  then Raise (AssertionError "0 not in sensitivity")
  else
    ratio <- div (INR (length utility)) beta ;;
    logarithm <- log ratio ;;
    t <- div (2 * logarithm) epsilon ;;
    min_utility <- min utility ;;
    let utility := map (fun u => u - min_utility) utility in
    reweighed_utility <- for_each (reweigh t utility sensitivity)
                                  (seq 0 (length utility)) ;;
    mech <- Exponential_init epsilon 1 reweighed_utility None ;;
    OK {| mechanism := mech |}.

Definition GeneralizedExponential_randomise (self : GeneralizedExponential)
    (idx : nat) : Z :=
  randomise (mechanism self) idx.

End selection.

(** ** [report/dp.py] *)

Module dp.

Import pymath diffprivlib selection.
Local Open Scope R_scope.

(** NumPy's broadcasting of two one-dimensional arrays. *)
Definition broadcast {A B : Type} (xs : list A) (ys : list B)
  : outcome (list (A * B)) :=
  if (length xs =? length ys)%nat then OK (combine xs ys)
  else
    match xs, ys with
    | [x], _ => OK (map (pair x) ys)
    | _, [y] => OK (map (fun x => (x, y)) xs)
    | _, _ => Raise (ValueError "operands could not be broadcast together")
    end.

(** [_dp_max_utility_selector]; the result is the closure [internal],
    here a function of the index the mechanism draws.  The utility is
    computed by NumPy, elementwise; NumPy's division and logarithm do not
    raise. *)
Definition _dp_max_utility_selector (epsilon beta : R) (counts : list R)
    (user_contribution_bounds : list Z) : outcome (nat -> Z) :=
  half_over_beta <- div (1 / 2) beta ;;
  paired <- broadcast counts user_contribution_bounds ;;
  let utility :=
    map (fun cb => fst cb - IZR (snd cb) / epsilon * ln half_over_beta) paired in
  mechanism <- GeneralizedExponential_init epsilon beta
                 (Sequence (map IZR user_contribution_bounds)) utility ;;
  OK (fun idx =>
        nth (Z.to_nat (GeneralizedExponential_randomise mechanism idx))
            user_contribution_bounds 0%Z).

End dp.

(** ** [shifted_inverse.py] *)

Module shifted_inverse.

Import scipy dataset pymath diffprivlib.
Local Open Scope R_scope.

(** The arguments of [optimize.linprog]. *)
Record linear_program : Type := {
  c : list R;
  bounds : list (R * R);
  A_ub : csr_matrix;
  b_ub : list R
}.

Definition _bounds (data : DataSet) : list (R * R) :=
  repeat (0, 1) (number_of_users data + number_of_values data).

Definition _objective_coefficients (data : DataSet) : list R :=
  map Ropp (repeat 0 (number_of_users data) ++ repeat 1 (number_of_values data)).

(** The two stored entries of the row [row_id] for the inequality
    [w_r <= w_u]. *)
Definition record_rows (data : DataSet) : list (nat * nat * Z) :=
  flat_map
    (fun ke =>
       [(fst ke, (number_of_users data + snd (snd ke))%nat, 1%Z);
        (fst ke, fst (snd ke), (-1)%Z)])
    (enumerate (entries (_data data))).

Definition _inequalities_coefficients (data : DataSet) : outcome csr_matrix :=
  let row_id := length (entries (_data data)) in
  if negb (row_id =? number_of_records data)%nat
  then Raise (AssertionError "row_id == data.number_of_records")
  else
    let triplets :=
      record_rows data
        ++ map (fun user_id => (row_id, user_id, 1%Z))
               (seq 0 (number_of_users data)) in
    csr_matrix_init (map weight_of triplets) (map row_of triplets)
                    (map col_of triplets).

Definition _inequalities_bounds (data : DataSet) : list R :=
  repeat 0 (number_of_records data).

Definition problem (data : DataSet) (users_to_delete : Z)
  : outcome linear_program :=
  A <- _inequalities_coefficients data ;;
  OK {| c := _objective_coefficients data;
        bounds := _bounds data;
        A_ub := A;
        b_ub := _inequalities_bounds data ++ [IZR users_to_delete] |}.

Section Solver.

(** [optimize.linprog(...).fun], the optimal value the solver reports. *)
Variable linprog : linear_program -> R.

Definition _sensitivity (data : DataSet) (users_to_delete : Z) : outcome R :=
  lp <- problem data users_to_delete ;;
  OK (- linprog lp).

Definition _round (value step : R) : outcome R :=
  quotient <- div value step ;;
  OK (IZR (ceil quotient) * step).

Definition bin_edge (data : DataSet) (error_level : R) (users_to_delete : Z)
  : outcome R :=
  result_0 <- _sensitivity data users_to_delete ;;
  result_1 <- log_base (INR (number_of_values data) - result_0) 10 ;;
  _round result_1 error_level.

(** [tau] as the code computes it. *)
Definition compute_tau (epsilon error_level log_upper_bound beta : R) : outcome Z :=
  two_over_epsilon <- div 2 epsilon ;;
  scaled <- div log_upper_bound error_level ;;
  ratio <- div (scaled + 1) beta ;;
  logarithm <- log ratio ;;
  OK (ceil (two_over_epsilon * logarithm)).

Definition users_to_delete_range (tau : Z) : list Z :=
  map Z.of_nat (seq 0 (Z.to_nat (2 * tau))).

(** The list [results]: the upper edge and then one edge per number of
    users to delete. *)
Definition bin_edges (data : DataSet) (error_level log_upper_bound : R) (tau : Z)
  : outcome (list R) :=
  edges <- for_each (bin_edge data error_level) (users_to_delete_range tau) ;;
  OK (log_upper_bound :: edges).

Definition bin_utility (tau : Z) (results : list R) (i : Z) : R :=
  let width := nth (Z.to_nat i) results 0 - nth (Z.to_nat i + 1) results 0 in
  if (i <? tau)%Z then IZR (- tau - 1 + i) * width
  else IZR (tau - i) * width.

(** [sampled_index] is the draw of the exponential mechanism and
    [fraction], in [[0, 1)], that of [np.random.uniform]. *)
Definition shifted_inverse_distinct_count (data : DataSet)
    (epsilon error_level : R) (upper_bound : Z) (beta : R)
    (sampled_index : nat) (fraction : R) : outcome Z :=
  log_upper_bound <- log_base (IZR upper_bound) 10 ;;
  tau <- compute_tau epsilon error_level log_upper_bound beta ;;
  results <- bin_edges data error_level log_upper_bound tau ;;
  let utility := map (bin_utility tau results) (users_to_delete_range tau) in
  mech <- Exponential_init (epsilon / 2) 1 utility
            (Some (users_to_delete_range tau)) ;;
  let sampled := Z.to_nat (randomise mech sampled_index) in
  let low := nth (sampled + 1) results 0 in
  let high := nth sampled results 0 in
  OK (int (pow 10 (low + (high - low) * fraction))).

End Solver.

(** What [linprog] is documented to return: the least value of the
    objective over the points that meet the bounds and the inequalities. *)
Definition dot (xs ys : list R) : R :=
  fold_right Rplus 0 (map (fun p => fst p * snd p) (combine xs ys)).

Definition row_value (A : csr_matrix) (w : list R) (r : nat) : R :=
  fold_right Rplus 0
    (map (fun t => if (row_of t =? r)%nat then IZR (weight_of t) * nth (col_of t) w 0 else 0)
         (coo A)).

Definition feasible (lp : linear_program) (w : list R) : Prop :=
  Forall2 (fun x lu => fst lu <= x <= snd lu) w (bounds lp)
  /\ forall r, (r < length (b_ub lp))%nat ->
               row_value (A_ub lp) w r <= nth r (b_ub lp) 0.

Definition optimum (lp : linear_program) (v : R) : Prop :=
  (exists w, feasible lp w /\ dot (c lp) w = v)
  /\ forall w, feasible lp w -> v <= dot (c lp) w.

End shifted_inverse.

(** ** Notions used to state and prove the properties *)

Module notions.

Import scipy dataset.

(** [valid_perm adj cols used q]: the array [q] matches the columns [cols]
    to pairwise distinct adjacent rows that are not in [used]. *)
Inductive valid_perm (adj : nat -> list nat)
  : list nat -> list nat -> list Z -> Prop :=
| valid_nil used : valid_perm adj [] used []
| valid_skip j rest used q :
    valid_perm adj rest used q ->
    valid_perm adj (j :: rest) used ((-1)%Z :: q)
| valid_take j rest used r q :
    In r (adj j) -> ~ In r used ->
    valid_perm adj rest (r :: used) q ->
    valid_perm adj (j :: rest) used (Z.of_nat r :: q).

(** A bounded assignment gives some values an owner each: a user that
    holds the value; no user owns more than [b] values.  The list holds
    the pairs [(value, user)]. *)
Definition assignment (data : list (list nat)) (b : nat)
    (owners : list (nat * nat)) : Prop :=
  NoDup (map fst owners)
  /\ (forall v i, In (v, i) owners -> In (i, v) (entries data))
  /\ (forall i, count_occ Nat.eq_dec (map snd owners) i <= b).

Fixpoint lookup (j : nat) (pairs : list (nat * nat)) : option nat :=
  match pairs with
  | [] => None
  | p :: rest => if fst p =? j then Some (snd p) else lookup j rest
  end.

(** The rows for an assignment: the [c]-th value of user [i] goes to the
    [c]-th copy of the row of [i]. *)
Fixpoint rows_of (height : nat) (seen : list nat) (owners : list (nat * nat))
  : list (nat * nat) :=
  match owners with
  | [] => []
  | o :: rest =>
      (fst o, count_occ Nat.eq_dec seen (snd o) * height + snd o)
        :: rows_of height (snd o :: seen) rest
  end.

(** The pairs [(column, row)] of a matching array. *)
Fixpoint pairs_of (cols : list nat) (q : list Z) : list (nat * nat) :=
  match cols, q with
  | j :: cols', z :: q' =>
      if (z =? -1)%Z then pairs_of cols' q'
      else (j, Z.to_nat z) :: pairs_of cols' q'
  | _, _ => []
  end.

(** The matrix [_to_matrix] builds when the data set has a record. *)
Definition incidence (data : list (list nat)) : csr_matrix :=
  {| shape := (S (list_max (map fst (entries data))),
               S (list_max (map snd (entries data))));
     coo := map (fun e => (fst e, snd e, 1%Z)) (entries data) |}.

Definition stacked (data : list (list nat)) (k : nat) : csr_matrix :=
  {| shape := (list_sum (map nrows (repeat (incidence data) k)),
               ncols (incidence data));
     coo := stack_from 0 (repeat (incidence data) k) |}.

(** The graph [_to_flow_matrix] builds for a well-formed data set with
    [n] users and [m] values: edges out of the source, edges into the
    sink, and one edge per entry. *)
Definition source_edges (n : nat) (b : Z) : list (nat * nat * Z) :=
  map (fun u => (0, u, b)) (seq 2 n).

Definition sink_edges (n m : nat) : list (nat * nat * Z) :=
  map (fun x => (x, 1, 1%Z)) (seq (n + 2) m).

Definition internal_edges (n : nat) (E : list (nat * nat)) : list (nat * nat * Z) :=
  map (fun e => (fst e + 2, snd e + n + 2, 1%Z)) E.

Definition flow_network (data : list (list nat)) (m : nat) (b : Z) : csr_matrix :=
  let n := length data in
  {| shape := (n + m + 2, n + m + 2);
     coo := source_edges n b ++ sink_edges n m ++ internal_edges n (entries data) |}.

(** The amount carried by the edges whose key is [u]. *)
Definition pick_sum {A : Type} (key : A -> nat) (u : nat) (ps : list (A * Z)) : Z :=
  Zsum (map (fun p => if key (fst p) =? u then snd p else 0%Z) ps).

(** The entries whose edge carries one unit. *)
Definition carriers (E : list (nat * nat)) (fI : list Z) : list (nat * nat) :=
  map fst (filter (fun p => (snd p =? 1)%Z) (combine E fI)).

Definition flip (e : nat * nat) : nat * nat := (snd e, fst e).

(** Whether the entry [e] is the choice of some owner. *)
Definition chosen (owners : list (nat * nat)) (e : nat * nat) : bool :=
  existsb (fun o => (fst o =? snd e) && (snd o =? fst e)) owners.

(** A flow within the capacities. *)
Definition within (f : list Z) (caps : list Z) : Prop :=
  Forall2 (fun x c => (0 <= x <= Z.max 0 c)%Z) f caps.

(** The invariant of the greedy loops.  [cap i] counts the rounds user [i]
    has been through; [owners] records who added which value. *)
Definition greedy_inv (data : list (list nat)) (cap : nat -> nat)
    (st : list nat * set nat) (owners : list (nat * nat)) : Prop :=
  length (fst st) = length data
  /\ (forall i, i < length data ->
        nth i (fst st) 0 <= length (nth i data [])
        /\ Nat.min (cap i) (length (nth i data [])) <= nth i (fst st) 0)
  /\ (forall i v, i < length data ->
        In v (firstn (nth i (fst st) 0) (nth i data [])) -> In v (snd st))
  /\ map fst owners = snd st
  /\ NoDup (snd st)
  /\ (forall v i, In (v, i) owners -> In (i, v) (entries data))
  /\ (forall i, count_occ Nat.eq_dec (map snd owners) i <= cap i).

Definition sumR (xs : list R) : R := fold_right Rplus 0%R xs.

Definition raises_assertion {A : Type} (r : outcome A) : Prop :=
  exists msg, r = Raise (AssertionError msg).

(** The selector in the words of the specification: [t], the shifted
    utilities, and for each candidate minus the largest ratio over all
    [j]. *)
Definition spec_t (k : nat) (beta epsilon : R) : R :=
  (2 * ln (INR k / beta) / epsilon)%R.

Definition least (xs : list R) (x : R) : Prop :=
  In x xs /\ forall y, In y xs -> (x <= y)%R.

Definition spec_ratio (t : R) (u s : list R) (i j : nat) : R :=
  (((- nth i u 0 + nth i s 0 * t) - (- nth j u 0 + nth j s 0 * t))
   / (nth i s 0 + nth j s 0))%R.

Definition greatest_over (k : nat) (f : nat -> R) (M : R) : Prop :=
  (exists j, j < k /\ f j = M) /\ forall j, j < k -> (f j <= M)%R.

Definition spec_reweighted (epsilon beta : R) (u s w : list R) : Prop :=
  exists lowest,
    least u lowest
    /\ least (map (fun x => (x - lowest)%R) u) 0%R
    /\ length w = length u
    /\ forall i, i < length u ->
         exists M,
           greatest_over (length u)
             (spec_ratio (spec_t (length u) beta epsilon)
                         (map (fun x => (x - lowest)%R) u) s i) M
           /\ nth i w 0%R = (- M)%R.

(** The data set of the unit tests, [DataSet([[0, 1], [2, 1]])]. *)
Definition test_data : list (list nat) := [[0; 1]; [2; 1]].

Definition test_dataset : DataSet :=
  {| _data := test_data; _degree := 2;
     number_of_values := 3; number_of_records := 4 |}.

(** Two users with one value each, and one user with one value. *)
Definition two_users : DataSet :=
  {| _data := [[0]; [1]]; _degree := 1;
     number_of_values := 2; number_of_records := 2 |}.

Definition one_user : DataSet :=
  {| _data := [[0]]; _degree := 1;
     number_of_values := 1; number_of_records := 1 |}.

(** A solver for these two data sets: the optimum of their linear
    programs is minus the number of users kept. *)
Definition small_solver (lp : shifted_inverse.linear_program) : R :=
  (- last (shifted_inverse.b_ub lp) 0)%R.

End notions.

(** ** Exceptions of the loaders and of the report

    [KeyError] and [IndexError] join the exceptions above, which
    [Builtin] carries over. *)

Inductive exception : Type :=
| KeyError (key : string)
| IndexError (msg : string)
| Builtin (e : exn).

Inductive attempt (A : Type) : Type :=
| Return (a : A)
| Throw (e : exception).

Arguments Return {A} a.
Arguments Throw {A} e.

Definition and_then {A B : Type} (r : attempt A) (k : A -> attempt B) : attempt B :=
  match r with
  | Return a => k a
  | Throw e => Throw e
  end.

Notation "x <~ r ;; k" := (and_then r (fun x => k))
  (at level 61, r at next level, right associativity).

Definition lift {A : Type} (r : outcome A) : attempt A :=
  match r with
  | OK a => Return a
  | Raise e => Throw (Builtin e)
  end.

(** A [for] loop that updates a state and may raise. *)
Fixpoint for_each_state {A S : Type} (body : A -> S -> attempt S)
    (xs : list A) (st : S) : attempt S :=
  match xs with
  | [] => Return st
  | x :: rest => st' <~ body x st ;; for_each_state body rest st'
  end.

(** ** Python dictionaries keyed by strings *)

Module pydict.

Definition dict (V : Type) : Type := list (string * V).

(** [m.get(k)] *)
Fixpoint get {V : Type} (k : string) (m : dict V) : option V :=
  match m with
  | [] => None
  | (k', v) :: rest => if String.eqb k k' then Some v else get k rest
  end.

(** [k in m] *)
Definition contains {V : Type} (k : string) (m : dict V) : bool :=
  match get k m with
  | Some _ => true
  | None => false
  end.

(** [m[k] = v]: a new key goes last. *)
Fixpoint setitem {V : Type} (k : string) (v : V) (m : dict V) : dict V :=
  match m with
  | [] => [(k, v)]
  | (k', v') :: rest =>
      if String.eqb k k' then (k', v) :: rest else (k', v') :: setitem k v rest
  end.

(** [m[k]] *)
Definition getitem {V : Type} (k : string) (m : dict V) : attempt V :=
  match get k m with
  | Some v => Return v
  | None => Throw (KeyError k)
  end.

End pydict.

(** ** [dataset.py]: reading a data set; [report/tpch.py]: [_prepare_dataset] *)

Module loading.

Import dataset pydict.

(** The state of both loaders. *)
Record tables : Type := {
  word_matching : dict nat;
  user_matching : dict nat;
  result : list (set nat)
}.

Definition no_tables : tables :=
  {| word_matching := []; user_matching := []; result := [] |}.

(** The body both loaders run for one value of one user:
    [if word not in word_matching: word_matching[word] = len(word_matching)],
    [if user_matching.get(user_id) is None: result.append(set());
     user_matching[user_id] = len(user_matching)],
    [result[user_matching[user_id]].add(word_matching[word])]. *)
Definition add_record (user_id word : string) (st : tables) : attempt tables :=
  let word_matching :=
    if contains word (word_matching st) then word_matching st
    else setitem word (length (word_matching st)) (word_matching st) in
  let '(result, user_matching) :=
    match get user_id (user_matching st) with
    | None => (result st ++ [empty_set nat],
               setitem user_id (length (user_matching st)) (user_matching st))
    | Some _ => (result st, user_matching st)
    end in
  row <~ getitem user_id user_matching ;;
  match nth_error result row with
  | None => Throw (IndexError "list index out of range")
  | Some record =>
      value <~ getitem word word_matching ;;
      Return {| word_matching := word_matching;
                user_matching := user_matching;
                result := distinct_count.list_set result row
                            (set_add Nat.eq_dec value record) |}
  end.

(** One line of the file, as [json.loads] and [_split_text] see it.  A
    line that parses is a JSON object; [reviewText] is [None] when the key
    is absent, [Some None] when [_split_text] raises on it, and otherwise
    the set of words in the order the set is iterated; user identifiers
    are strings. *)
Inductive json_line : Type :=
| Unparsable
| Object (reviewText : option (option (list string))) (reviewerID : option string).

Definition read_line (line : json_line) (st : tables) : attempt tables :=
  match line with
  | Unparsable => Return st
  | Object None _ => Return st
  | Object (Some None) _ => Return st
  | Object (Some (Some split)) None => Throw (KeyError "reviewerID")
  | Object (Some (Some split)) (Some user_id) =>
      for_each_state (add_record user_id) split st
  end.

(** [prepare_dataset]; [listing] is [list(record)], the order in which a
    set of identifiers is enumerated. *)
Definition prepare_dataset (listing : set nat -> list nat) (lines : list json_line)
  : attempt DataSet :=
  st <~ for_each_state read_line lines no_tables ;;
  lift (DataSet_init (map listing (result st))).

(** [tpch._prepare_dataset]; a row of the data frame is the pair of its
    user column and its value column. *)
Definition _prepare_dataset (listing : set nat -> list nat)
    (rows : list (string * string)) : attempt DataSet :=
  st <~ for_each_state (fun row => add_record (fst row) (snd row)) rows no_tables ;;
  lift (DataSet_init (map listing (result st))).

(** The pairs [(user, word)] the lines of a file hold. *)
Definition events (lines : list json_line) : list (string * string) :=
  flat_map
    (fun line =>
       match line with
       | Object (Some (Some split)) (Some user_id) => map (pair user_id) split
       | _ => []
       end)
    lines.

(** A line that stops the loader: it has words and no user. *)
Definition anonymous (line : json_line) : Prop :=
  exists split, line = Object (Some (Some split)) None.

(** The keys of a table are numbered in the order they came in. *)
Definition numbered (m : dict nat) : Prop :=
  NoDup (map fst m) /\ map snd m = seq 0 (length m).

(** What the tables hold once the pairs [evs] have been added. *)
Definition grouped (evs : list (string * string)) (st : tables) : Prop :=
  numbered (word_matching st)
  /\ numbered (user_matching st)
  /\ length (result st) = length (user_matching st)
  /\ Forall (@NoDup nat) (result st)
  /\ (forall i j, In j (nth i (result st) [])
                  <-> exists u w, In (u, w) evs
                                  /\ In (u, i) (user_matching st)
                                  /\ In (w, j) (word_matching st))
  /\ (forall w, In w (map fst (word_matching st)) <-> exists u, In (u, w) evs)
  /\ (forall u, In u (map fst (user_matching st)) <-> exists w, In (u, w) evs).

(** The table once the key [k] has been looked up and, if new, entered. *)
Definition intern (k : string) (m : dict nat) : dict nat :=
  if contains k m then m else setitem k (length m) m.

(** A small file of reviews, and the data set it loads as. *)
Definition review_lines : list json_line :=
  [Object (Some (Some ["good"; "book"])) (Some "ann");
   Unparsable;
   Object None (Some "bob");
   Object (Some None) None;
   Object (Some (Some [])) (Some "eve");
   Object (Some (Some ["book"; "bad"])) (Some "bob");
   Object (Some (Some ["bad"; "plot"])) (Some "ann")].

Definition review_dataset : DataSet :=
  {| _data := [[0; 1; 2; 3]; [1; 2]]; _degree := 4;
     number_of_values := 4; number_of_records := 6 |}.

End loading.

(** ** [report/dp.py]: the shape of a list of counts *)

Module dp_shape.

Local Open Scope R_scope.

(** One turn of the loop of [_max_index]:
    [if list_[i] > max_value: max_value = list_[i]; max_index = i]. *)
Definition max_step (list_ : list R) (st : R * nat) (i : nat) : R * nat :=
  let (max_value, max_index) := st in
  if Rgt_dec (nth i list_ 0) max_value then (nth i list_ 0, i)
  else (max_value, max_index).

(** [list_[0]] raises on an empty list. *)
Definition _max_index (list_ : list R) : attempt nat :=
  match list_ with
  | [] => Throw (IndexError "list index out of range")
  | first :: _ =>
      Return (snd (fold_left (max_step list_) (seq 0 (length list_)) (first, 0%nat)))
  end.

Definition _is_sorted (list_ : list R) : bool :=
  forallb
    (fun i => if Rlt_dec (nth i list_ 0) (nth (i - 1) list_ 0) then false else true)
    (seq 1 (length list_ - 1)).

Definition _is_concave (list_ : list R) : attempt bool :=
  max_index <~ _max_index list_ ;;
  Return
    (forallb
       (fun i => if Rlt_dec (nth i list_ 0) (nth (i - 1) list_ 0) then false else true)
       (seq 1 max_index)
     && forallb
          (fun i => if Rgt_dec (nth i list_ 0) (nth (i - 1) list_ 0) then false else true)
          (seq (max_index + 1) (length list_ - (max_index + 1)))).

End dp_shape.

(** ** [report/common.py] *)

Module common.

Import dataset.

Record BoundWithCount : Type := {
  bound : Z;
  count : R
}.

Definition select_optimal (selector : attempt Z) (sampler : Z -> attempt R)
  : attempt BoundWithCount :=
  optimal <~ selector ;;
  sampled <~ sampler optimal ;;
  Return {| bound := optimal; count := sampled |}.

(** The memoised estimators.  A bound above the degree is answered by the
    call for the degree itself, whose test fails; the memo of
    [cachetools.cached] keeps values of deterministic functions and does
    not change what is returned. *)
Definition matching_distinct_count (data : DataSet) (user_contribution_bound : Z)
  : outcome nat :=
  if (Z.of_nat (degree data) <? user_contribution_bound)%Z
  then distinct_count.matching_distinct_count data (Z.of_nat (degree data))
  else distinct_count.matching_distinct_count data user_contribution_bound.

Definition flow_distinct_count (data : DataSet) (user_contribution_bound : Z)
  : outcome Z :=
  if (Z.of_nat (degree data) <? user_contribution_bound)%Z
  then distinct_count.flow_distinct_count data (Z.of_nat (degree data))
  else distinct_count.flow_distinct_count data user_contribution_bound.

Definition greedy_distinct_count (data : DataSet) (user_contribution_bound : Z)
  : nat :=
  if (Z.of_nat (degree data) <? user_contribution_bound)%Z
  then distinct_count.greedy_distinct_count data (Z.of_nat (degree data))
  else distinct_count.greedy_distinct_count data user_contribution_bound.

Definition greedy_distinct_counts (data : DataSet)
    (user_contribution_bounds : list Z) : list nat :=
  map (greedy_distinct_count data) user_contribution_bounds.

(** [random.choice(seq)] *)
Definition choice {V : Type} (seq : list V) (s : random.rng) : attempt V * random.rng :=
  match seq with
  | [] => (Throw (IndexError "Cannot choose from an empty sequence"), s)
  | first :: _ =>
      let (j, s') := random.randbelow (length seq) s in
      (Return (nth j seq first), s')
  end.

Section CachedNondeterministic.

Variables K V : Type.
Hypothesis K_eq_dec : forall x y : K, {x = y} + {x <> y}.

(** The dictionary [cache], from keys to the values kept for them. *)
Definition cache_of : Type := list (K * list V).

Fixpoint cached (key_value : K) (cache : cache_of) : option (list V) :=
  match cache with
  | [] => None
  | (k, values) :: rest =>
      if K_eq_dec key_value k then Some values else cached key_value rest
  end.

Fixpoint keep (key_value : K) (values : list V) (cache : cache_of) : cache_of :=
  match cache with
  | [] => [(key_value, values)]
  | (k, old) :: rest =>
      if K_eq_dec key_value k then (k, values) :: rest
      else (k, old) :: keep key_value values rest
  end.

(** One call of the wrapped function [internal]: [key_value] is the key
    of the arguments, [func] is what the decorated function does if it is
    called now, and [s] is the generator behind [random.choice]. *)
Definition cached_nondeterministic (num_values : Z) (key_value : K)
    (func : attempt V) (cache : cache_of) (s : random.rng)
  : attempt V * cache_of * random.rng :=
  match cached key_value cache with
  | None =>
      match func with
      | Return value => (Return value, keep key_value [value] cache, s)
      | Throw e => (Throw e, cache, s)
      end
  | Some values =>
      if (Z.of_nat (length values) <? num_values)%Z
      then
        match func with
        | Return value => (Return value, keep key_value (values ++ [value]) cache, s)
        | Throw e => (Throw e, cache, s)
        end
      else
        let (chosen, s') := choice values s in (chosen, cache, s')
  end.

(** A run of calls, each with its key, the behaviour of [func] and the
    generator; the results are listed in order. *)
Fixpoint calls (num_values : Z) (requests : list (K * attempt V * random.rng))
    (cache : cache_of) : list (attempt V) * cache_of :=
  match requests with
  | [] => ([], cache)
  | (key_value, func, s) :: rest =>
      let '(r, cache', _) := cached_nondeterministic num_values key_value func cache s in
      let (rs, final) := calls num_values rest cache' in
      (r :: rs, final)
  end.

(** What holds of the cache once the requests [seen] have been served:
    a key keeps at least one value and at most [max(1, num_values)], each
    of them produced by the function for this key. *)
Definition cache_ok (num_values : Z) (seen : list (K * attempt V * random.rng))
    (cache : cache_of) : Prop :=
  forall k values,
    cached k cache = Some values ->
    values <> []
    /\ (Z.of_nat (length values) <= Z.max 1 num_values)%Z
    /\ forall v, In v values -> exists s, In (k, Return v, s) seen.

(** What a request may be answered with: a value the function produced
    for its key, or the exception the function raised. *)
Definition answered (seen : list (K * attempt V * random.rng))
    (request : K * attempt V * random.rng) (r : attempt V) : Prop :=
  match r with
  | Return v => exists s, In (fst (fst request), Return v, s) seen
  | Throw e => snd (fst request) = Throw e
  end.

End CachedNondeterministic.

End common.

(** ** [report/max_utility.py] *)

Module max_utility.

Import dataset pymath common.
Local Open Scope R_scope.

(** [np.argmax]: the position of the first greatest entry. *)
Definition argmax (xs : list R) : outcome nat :=
  match xs with
  | [] => Raise (ValueError "attempt to get argmax of an empty sequence")
  | first :: _ =>
      OK (snd (fold_left (dp_shape.max_step xs) (seq 0 (length xs)) (first, 0%nat)))
  end.

(** [_max_utility_selector(...)()]: the closure, called. *)
Definition _max_utility_selector (epsilon : R) (counts : list R)
    (user_contribution_bounds : list Z) (beta : R) : attempt Z :=
  half_over_beta <~ lift (div (1 / 2) beta) ;;
  paired <~ lift (dp.broadcast counts user_contribution_bounds) ;;
  let utility :=
    map (fun cb => fst cb - IZR (snd cb) / epsilon * ln half_over_beta) paired in
  best <~ lift (argmax utility) ;;
  match nth_error user_contribution_bounds best with
  | Some b => Return b
  | None => Throw (IndexError "list index out of range")
  end.

Definition greedy_distinct_count (data : DataSet) (epsilon : R)
    (user_contribution_bounds : list Z) (beta : R) : attempt BoundWithCount :=
  let counts := map INR (greedy_distinct_counts data user_contribution_bounds) in
  select_optimal
    (_max_utility_selector (epsilon / 2) counts user_contribution_bounds beta)
    (fun bound => Return (INR (common.greedy_distinct_count data bound))).

End max_utility.

(** ** A sharper invariant of the greedy loops *)

Module greedy_notions.

Import notions.

(** Besides [greedy_inv]: a user that has not been given a value in each
    of its rounds has walked through its whole list. *)
Definition greedy_tight (data : list (list nat)) (cap : nat -> nat)
    (st : list nat * set nat) (owners : list (nat * nat)) : Prop :=
  greedy_inv data cap st owners
  /\ forall i, i < length data ->
       count_occ Nat.eq_dec (map snd owners) i = cap i
       \/ nth i (fst st) 0 = length (nth i data []).

End greedy_notions.

(** ** NumPy: quantiles *)

Module numpy.

Local Open Scope R_scope.

Fixpoint insert (x : R) (l : list R) : list R :=
  match l with
  | [] => [x]
  | y :: rest => if Rle_dec x y then x :: l else y :: insert x rest
  end.

Definition sort (l : list R) : list R := fold_right insert [] l.

(** Every entry is at most the entries after it. *)
Fixpoint ordered (l : list R) : Prop :=
  match l with
  | [] => True
  | x :: rest => Forall (Rle x) rest /\ ordered rest
  end.

(** [np.quantile(a, q)] with the default method: linear interpolation
    between the two entries of the sorted array next to the position
    [q * (n - 1)].  [None] stands for the [nan] an empty array gives. *)
Definition quantile (a : list R) (q : R) : outcome (option R) :=
  if Rlt_dec q 0 then Raise (ValueError "Quantiles must be in the range [0, 1]")
  else if Rlt_dec 1 q then Raise (ValueError "Quantiles must be in the range [0, 1]")
  else
    match a with
    | [] => OK None
    | _ :: _ =>
        let sorted := sort a in
        let virtual_index := q * INR (length a - 1) in
        let previous := Z.to_nat (pymath.floor virtual_index) in
        let next := Nat.min (previous + 1) (length a - 1) in
        let gamma := virtual_index - IZR (pymath.floor virtual_index) in
        OK (Some (nth previous sorted 0
                  + (nth next sorted 0 - nth previous sorted 0) * gamma))
    end.

End numpy.

(** ** [report/stats.py] *)

Module stats.

Import numpy.
Local Open Scope R_scope.



End stats.

(** ** [report/quantile.py] *)

Module quantile.

Import scipy dataset numpy.
Local Open Scope R_scope.

(** [matrix.sum(axis=1).getA1()]: the sum of each row. *)
Definition row_sums (g : csr_matrix) : list Z :=
  map (fun r => Zsum (map weight_of (filter (fun t => row_of t =? r)%nat (coo g))))
      (seq 0 (nrows g)).

(** [int(x)] of a quantile; [int(nan)] raises. *)
Definition int_of (x : option R) : outcome Z :=
  match x with
  | Some x => OK (pymath.int x)
  | None => Raise (ValueError "cannot convert float NaN to integer")
  end.

Definition _optimal_bound (data : DataSet) : outcome Z :=
  matrix <- as_matrix data ;;
  q <- quantile (map IZR (row_sums matrix)) (9 / 10) ;;
  int_of q.

End quantile.

Import scipy dataset distinct_count notions.

(** * Properties *)

(** ** Exhaustive matching search *)

Section Search.

Variable adj : nat -> list nat.

Lemma matched_skip q : matched ((-1)%Z :: q) = matched q.
Proof. reflexivity. Qed.

Lemma matched_take r q : matched (Z.of_nat r :: q) = S (matched q).
Proof.
  unfold matched. simpl.
  destruct (Z.eqb_spec (Z.of_nat r) (-1)); [lia | reflexivity].
Qed.

Lemma existsb_eqb_In r used : existsb (Nat.eqb r) used = true <-> In r used.
Proof.
  rewrite existsb_exists. split.
  - intros [x [Hin Heq]]. apply Nat.eqb_eq in Heq. now subst.
  - intros Hin. exists r. split; [assumption | apply Nat.eqb_refl].
Qed.

Lemma fold_best_spec (used : list nat) (cand : nat -> list Z) l :
  forall init,
    let res :=
      fold_left
        (fun best r =>
           if existsb (Nat.eqb r) used then best else better best (cand r))
        l init in
    (res = init \/ exists r, In r l /\ ~ In r used /\ res = cand r)
    /\ matched init <= matched res
    /\ (forall r, In r l -> ~ In r used -> matched (cand r) <= matched res).
Proof.
  induction l as [|a l IH]; intros init; simpl.
  - split; [now left | split; [lia | intros r []]].
  - destruct (existsb (Nat.eqb a) used) eqn:Hused.
    + destruct (IH init) as (Hres & Hinit & Hcand).
      split; [|split].
      * destruct Hres as [-> | (r & Hin & Hnot & ->)]; [now left|].
        right. exists r. auto.
      * exact Hinit.
      * intros r [<- | Hin] Hnot.
        -- apply existsb_eqb_In in Hused. contradiction.
        -- now apply Hcand.
    + assert (Hnot_a : ~ In a used).
      { intros Hin. apply existsb_eqb_In in Hin. congruence. }
      destruct (IH (better init (cand a))) as (Hres & Hinit & Hcand).
      assert (Hb : matched init <= matched (better init (cand a))
                   /\ matched (cand a) <= matched (better init (cand a))).
      { unfold better. destruct (Nat.ltb_spec (matched init) (matched (cand a))); lia. }
      split; [|split].
      * destruct Hres as [Heq | (r & Hin & Hnot & Heq)].
        -- rewrite Heq. unfold better.
           destruct (matched init <? matched (cand a)); [|now left].
           right. exists a. auto.
        -- right. exists r. auto.
      * lia.
      * intros r [<- | Hin] Hnot; [lia | now apply Hcand].
Qed.

Lemma search_valid cols : forall used, valid_perm adj cols used (search adj cols used).
Proof.
  induction cols as [|j rest IH]; intros used; simpl.
  - constructor.
  - destruct (fold_best_spec used (fun r => Z.of_nat r :: search adj rest (r :: used))
                (adj j) ((-1)%Z :: search adj rest used)) as (Hres & _ & _).
    destruct Hres as [-> | (r & Hin & Hnot & ->)].
    + constructor. apply IH.
    + constructor; auto.
Qed.

Lemma search_optimal cols used q :
  valid_perm adj cols used q -> matched q <= matched (search adj cols used).
Proof.
  induction 1 as [used | j rest used q Hq IH | j rest used r q Hin Hnot Hq IH]; simpl.
  - lia.
  - destruct (fold_best_spec used (fun r => Z.of_nat r :: search adj rest (r :: used))
                (adj j) ((-1)%Z :: search adj rest used)) as (_ & Hinit & _).
    rewrite matched_skip in *. lia.
  - destruct (fold_best_spec used (fun r => Z.of_nat r :: search adj rest (r :: used))
                (adj j) ((-1)%Z :: search adj rest used)) as (_ & _ & Hcand).
    specialize (Hcand r Hin Hnot). rewrite matched_take in *. lia.
Qed.

Lemma lookup_In j pairs r : lookup j pairs = Some r -> In (j, r) pairs.
Proof.
  induction pairs as [|[j' r'] pairs IH]; simpl; [discriminate|].
  destruct (Nat.eqb_spec j' j) as [-> | Hne].
  - intros [= ->]. now left.
  - intros H. right. auto.
Qed.

Lemma In_lookup j pairs r :
  NoDup (map fst pairs) -> In (j, r) pairs -> lookup j pairs = Some r.
Proof.
  induction pairs as [|[j' r'] pairs IH]; simpl; [intros _ []|].
  intros Hnd [Heq | Hin].
  - injection Heq as -> ->. now rewrite Nat.eqb_refl.
  - inversion Hnd as [|? ? Hnotin Hnd']; subst.
    destruct (Nat.eqb_spec j' j) as [-> | Hne].
    + exfalso. apply Hnotin. apply in_map_iff. exists (j, r). auto.
    + auto.
Qed.

(** A partial injection of columns into adjacent free rows is a valid
    matching array. *)
Lemma valid_of_lookup pairs cols :
  forall used,
    NoDup cols ->
    (forall j r, In j cols -> lookup j pairs = Some r ->
                 In r (adj j) /\ ~ In r used) ->
    (forall j j' r, In j cols -> In j' cols ->
                    lookup j pairs = Some r -> lookup j' pairs = Some r -> j = j') ->
    valid_perm adj cols used
      (map (fun j => match lookup j pairs with
                     | Some r => Z.of_nat r
                     | None => (-1)%Z
                     end) cols).
Proof.
  induction cols as [|j rest IH]; intros used Hnd Hadj Hinj; simpl.
  - constructor.
  - inversion Hnd as [|? ? Hnotin Hnd']; subst.
    destruct (lookup j pairs) as [r|] eqn:Hj.
    + destruct (Hadj j r (or_introl eq_refl) Hj) as [Hr Hfree].
      constructor; auto.
      apply IH; auto.
      * intros j' r' Hin' Hj'. destruct (Hadj j' r' (or_intror Hin') Hj') as [Hr' Hfree'].
        split; [assumption|].
        intros [<- | Hu]; [|contradiction].
        apply Hnotin. rewrite (Hinj j j' r); simpl; auto.
      * intros j1 j2 r' H1 H2. apply Hinj; simpl; auto.
    + constructor. apply IH; auto.
      * intros j' r' Hin' Hj'. apply Hadj; simpl; auto.
      * intros j1 j2 r' H1 H2. apply Hinj; simpl; auto.
Qed.

Lemma matched_map_lookup pairs cols :
  matched (map (fun j => match lookup j pairs with
                         | Some r => Z.of_nat r
                         | None => (-1)%Z
                         end) cols)
  = length (filter (fun j => match lookup j pairs with
                             | Some _ => true
                             | None => false
                             end) cols).
Proof.
  induction cols as [|j rest IH]; [reflexivity|].
  simpl. destruct (lookup j pairs) as [r|].
  - rewrite matched_take. simpl. now rewrite IH.
  - rewrite matched_skip. exact IH.
Qed.

Lemma pairs_of_spec cols used q :
  valid_perm adj cols used q ->
  length (pairs_of cols q) = matched q
  /\ NoDup (map snd (pairs_of cols q))
  /\ (forall j r, In (j, r) (pairs_of cols q) ->
                  In j cols /\ In r (adj j) /\ ~ In r used).
Proof.
  induction 1 as [used | j rest used q Hq IH | j rest used r q Hin Hnot Hq IH].
  - simpl. split; [reflexivity|]. split; [constructor|]. intros j r [].
  - simpl. destruct IH as (Hlen & Hnd & Hall).
    rewrite matched_skip. split; [assumption|]. split; [assumption|].
    intros j' r' Hin'. destruct (Hall _ _ Hin') as (? & ? & ?). simpl; auto.
  - simpl. destruct (Z.eqb_spec (Z.of_nat r) (-1)) as [Hneg | _]; [lia|].
    destruct IH as (Hlen & Hnd & Hall).
    rewrite matched_take, Nat2Z.id. simpl.
    split; [now rewrite Hlen|]. split.
    + constructor; [|assumption].
      intros Hr. apply in_map_iff in Hr. destruct Hr as ([j' r'] & Heq & Hin').
      simpl in Heq. subst r'. destruct (Hall _ _ Hin') as (_ & _ & Hfree).
      apply Hfree. now left.
    + intros j' r' [Heq | Hin'].
      * injection Heq as <- <-. split; [now left|]. split; assumption.
      * destruct (Hall _ _ Hin') as (? & ? & Hfree).
        split; [now right|]. split; [assumption|].
        intros Hu. apply Hfree. now right.
Qed.

Lemma pairs_of_fst_NoDup cols q : NoDup cols -> NoDup (map fst (pairs_of cols q)).
Proof.
  revert q. induction cols as [|j rest IH]; intros q Hnd; simpl; [constructor|].
  destruct q as [|z q]; [constructor|].
  inversion Hnd as [|? ? Hnotin Hnd']; subst.
  assert (Hsub : forall q', incl (map fst (pairs_of rest q')) rest).
  { clear. induction rest as [|a rest IH]; intros q' x; simpl; [intros []|].
    destruct q' as [|z q']; [intros []|].
    destruct (z =? -1)%Z; simpl.
    - intros Hx. right. eapply IH; eauto.
    - intros [<- | Hx]; [now left | right; eapply IH; eauto]. }
  destruct (z =? -1)%Z; simpl; [auto|].
  constructor; [|auto].
  intros Hin. apply Hnotin. eapply Hsub; eauto.
Qed.

End Search.

(** The search meets the contract of [maximum_bipartite_matching]: its
    answer is a matching, and no matching has more matched columns. *)
Lemma maximum_bipartite_matching_spec g :
  valid_perm (neighbours g) (seq 0 (ncols g)) [] (maximum_bipartite_matching g)
  /\ forall q, valid_perm (neighbours g) (seq 0 (ncols g)) [] q ->
               matched q <= matched (maximum_bipartite_matching g).
Proof.
  split; [apply search_valid | intros q; apply search_optimal].
Qed.

(** ** The entries of a data set *)

Section Entries.

Local Abbreviation pairs_of_row :=
  (fun ir : nat * list nat => map (fun item => (fst ir, item)) (snd ir)).

Lemma in_entries_from data : forall k i v,
  In (i, v) (flat_map pairs_of_row (combine (seq k (length data)) data))
  <-> k <= i < k + length data /\ In v (nth (i - k) data []).
Proof.
  induction data as [|r data IH]; intros k i v; simpl.
  - split; [intros [] | intros [? _]; lia].
  - rewrite in_app_iff, IH.
    rewrite in_map_iff. split.
    + intros [(x & Heq & Hx) | ([Hlo Hhi] & Hv)].
      * injection Heq as <- <-. rewrite Nat.sub_diag. split; [lia | assumption].
      * replace (i - k) with (S (i - S k)) by lia. split; [lia | assumption].
    + intros ([Hlo Hhi] & Hv). destruct (Nat.eq_dec i k) as [-> | Hne].
      * left. rewrite Nat.sub_diag in Hv. exists v. auto.
      * right. replace (i - k) with (S (i - S k)) in Hv by lia.
        split; [lia | assumption].
Qed.

Lemma in_entries data i v :
  In (i, v) (entries data) <-> i < length data /\ In v (nth i data []).
Proof.
  unfold entries, enumerate.
  rewrite (in_entries_from data 0 i v), Nat.sub_0_r. intuition lia.
Qed.

Lemma entries_snd_from data : forall k,
  map snd (flat_map pairs_of_row (combine (seq k (length data)) data)) = concat data.
Proof.
  induction data as [|r data IH]; intros k; simpl; [reflexivity|].
  rewrite map_app, IH. f_equal.
  rewrite map_map. simpl. apply map_id.
Qed.

Lemma entries_snd data : map snd (entries data) = concat data.
Proof. apply (entries_snd_from data 0). Qed.

Lemma entries_NoDup_from data : forall k,
  Forall (@NoDup nat) data ->
  NoDup (flat_map pairs_of_row (combine (seq k (length data)) data)).
Proof.
  induction data as [|r data IH]; intros k Hall; simpl; [constructor|].
  inversion Hall as [|? ? Hr Hrest]; subst.
  apply NoDup_app.
  - apply Finite.Injective_map_NoDup; [|assumption].
    intros x y [= ->]. reflexivity.
  - now apply IH.
  - intros [i v] Hin1 Hin2.
    apply in_map_iff in Hin1. destruct Hin1 as (x & [= <- <-] & _).
    apply in_entries_from in Hin2. lia.
Qed.

Lemma entries_NoDup data : Forall (@NoDup nat) data -> NoDup (entries data).
Proof. apply (entries_NoDup_from data 0). Qed.

End Entries.

Lemma entries_nonempty data : concat data <> [] -> entries data <> [].
Proof.
  intros Hne Heq. apply Hne. rewrite <- entries_snd, Heq. reflexivity.
Qed.

Lemma combine_triplets (E : list (nat * nat)) (w : Z) :
  combine (combine (map fst E) (map snd E)) (repeat w (length (map fst E)))
  = map (fun e => (fst e, snd e, w)) E.
Proof.
  induction E as [|[i v] E IH]; simpl; [reflexivity|].
  now rewrite IH.
Qed.

(** ** The incidence matrix and its stacked copies *)

Lemma to_matrix_ok data :
  concat data <> [] -> _to_matrix data = OK (incidence data).
Proof.
  intros Hne. unfold _to_matrix, csr_matrix_init.
  rewrite repeat_length, !length_map, Nat.eqb_refl. simpl.
  destruct (entries data) as [|e E] eqn:HE.
  - exfalso. now apply (entries_nonempty data).
  - unfold incidence. rewrite HE.
    rewrite <- (length_map fst (e :: E)), combine_triplets. reflexivity.
Qed.

Lemma vstack_repeat data k :
  0 < k -> vstack (repeat (incidence data) k) = OK (stacked data k).
Proof.
  intros Hk. destruct k as [|k]; [lia|].
  unfold vstack. simpl repeat. cbv iota beta.
  replace (forallb _ (repeat (incidence data) k)) with true; [reflexivity|].
  symmetry. apply forallb_forall. intros x Hx.
  apply repeat_spec in Hx. subst. apply Nat.eqb_refl.
Qed.

Lemma in_stack_from A k : forall off t,
  In t (stack_from off (repeat A k))
  <-> exists c t0, c < k /\ In t0 (coo A)
                   /\ t = (off + c * nrows A + row_of t0, col_of t0, weight_of t0).
Proof.
  induction k as [|k IH]; intros off t; simpl.
  - split; [intros [] | intros (c & _ & Hc & _); lia].
  - rewrite in_app_iff, in_map_iff, IH. split.
    + intros [(t0 & <- & Hin) | (c & t0 & Hc & Hin & ->)].
      * exists 0, t0. split; [lia|]. split; [assumption|]. f_equal; f_equal; lia.
      * exists (S c), t0. split; [lia|]. split; [assumption|]. f_equal; f_equal; lia.
    + intros (c & t0 & Hc & Hin & ->). destruct c as [|c].
      * left. exists t0. split; [f_equal; f_equal; lia | assumption].
      * right. exists c, t0. split; [lia|]. split; [assumption|]. f_equal; f_equal; lia.
Qed.

Lemma in_list_max x l : In x l -> x <= list_max l.
Proof.
  intros Hin. assert (H : list_max l <= list_max l) by lia.
  apply list_max_le in H. rewrite Forall_forall in H. now apply H.
Qed.

Lemma entries_row_bound data i v :
  In (i, v) (entries data) -> i < nrows (incidence data).
Proof.
  intros Hin. unfold nrows, incidence. simpl.
  apply Nat.lt_succ_r, in_list_max, in_map_iff. exists (i, v). auto.
Qed.

Lemma entries_col_bound data i v :
  In (i, v) (entries data) -> v < ncols (incidence data).
Proof.
  intros Hin. unfold ncols, incidence. simpl.
  apply Nat.lt_succ_r, in_list_max, in_map_iff. exists (i, v). auto.
Qed.

Lemma neighbours_stacked data k j r :
  In r (neighbours (stacked data k) j)
  <-> exists c i, c < k /\ In (i, j) (entries data)
                  /\ r = c * nrows (incidence data) + i.
Proof.
  unfold neighbours. rewrite in_map_iff. split.
  - intros (t & <- & Ht). apply filter_In in Ht. destruct Ht as [Ht Hcol].
    apply Nat.eqb_eq in Hcol. simpl in Ht. apply in_stack_from in Ht.
    destruct Ht as (c & t0 & Hc & Hin & ->). simpl in Hin.
    apply in_map_iff in Hin. destruct Hin as ([i v] & <- & Hin).
    unfold col_of, row_of in *. simpl in *. subst v.
    exists c, i. auto.
  - intros (c & i & Hc & Hin & ->).
    exists (c * nrows (incidence data) + i, j, 1%Z). split; [reflexivity|].
    apply filter_In. split; [|apply Nat.eqb_refl].
    simpl. apply in_stack_from. exists c, (i, j, 1%Z).
    split; [assumption|]. split; [|reflexivity].
    simpl. apply in_map_iff. exists (i, j). auto.
Qed.

Lemma matching_distinct_count_ok data d b :
  DataSet_init data = OK d -> concat data <> [] -> (0 < b)%Z ->
  matching_distinct_count d b
  = OK (matched (maximum_bipartite_matching (stacked data (Z.to_nat b)))).
Proof.
  intros Hd Hne Hb. destruct data as [|r data]; [discriminate|].
  injection Hd as <-. unfold matching_distinct_count, as_matrix. simpl _data.
  rewrite to_matrix_ok by assumption. simpl bind.
  rewrite vstack_repeat by lia. reflexivity.
Qed.

(** ** Bounded assignments and matchings *)

Lemma decode_unique h c c' i i' :
  i < h -> i' < h -> c * h + i = c' * h + i' -> c = c' /\ i = i'.
Proof.
  intros Hi Hi' Heq.
  assert (Hc : c = c').
  { destruct (Nat.lt_trichotomy c c') as [Hlt | [Heq' | Hgt]]; [|assumption|]; nia. }
  subst. split; [reflexivity | lia].
Qed.

Lemma rows_of_fst h owners : forall seen,
  map fst (rows_of h seen owners) = map fst owners.
Proof.
  induction owners as [|o rest IH]; intros seen; simpl; [reflexivity|].
  now rewrite IH.
Qed.

Lemma rows_of_in h owners : forall seen v r,
  In (v, r) (rows_of h seen owners) ->
  exists i c,
    In (v, i) owners /\ r = c * h + i
    /\ count_occ Nat.eq_dec seen i <= c
    /\ c < count_occ Nat.eq_dec seen i + count_occ Nat.eq_dec (map snd owners) i.
Proof.
  induction owners as [|[v0 i0] rest IH]; intros seen v r; simpl; [intros []|].
  intros [Heq | Hin].
  - injection Heq as <- <-. exists i0, (count_occ Nat.eq_dec seen i0).
    destruct (Nat.eq_dec i0 i0); [|congruence].
    split; [now left|]. split; [reflexivity|]. lia.
  - destruct (IH _ _ _ Hin) as (i & c & Hown & -> & Hlo & Hhi).
    exists i, c. simpl in Hlo, Hhi.
    split; [now right|]. split; [reflexivity|].
    destruct (Nat.eq_dec i0 i); lia.
Qed.

Lemma rows_of_NoDup h owners : forall seen,
  (forall v i, In (v, i) owners -> i < h) ->
  NoDup (map snd (rows_of h seen owners)).
Proof.
  induction owners as [|[v0 i0] rest IH]; intros seen Hlt; simpl; [constructor|].
  constructor.
  - intros Hin. apply in_map_iff in Hin. destruct Hin as ([v r] & Heq & Hin).
    simpl in Heq. subst r.
    destruct (rows_of_in _ _ _ _ _ Hin) as (i & c & Hown & Heq & Hlo & _).
    apply decode_unique in Heq.
    + destruct Heq as [<- <-]. simpl in Hlo.
      destruct (Nat.eq_dec i0 i0); [lia | congruence].
    + apply (Hlt v0). now left.
    + apply (Hlt v). now right.
  - apply IH. intros v i Hin. apply (Hlt v). now right.
Qed.

Lemma NoDup_snd_functional (l : list (nat * nat)) a a' r :
  NoDup (map snd l) -> In (a, r) l -> In (a', r) l -> a = a'.
Proof.
  induction l as [|[x y] l IH]; simpl; [intros _ []|].
  intros Hnd H1 H2. inversion Hnd as [|? ? Hnotin Hnd']; subst.
  destruct H1 as [H1 | H1], H2 as [H2 | H2].
  - congruence.
  - injection H1 as -> ->. exfalso. apply Hnotin.
    apply in_map_iff. exists (a', r). auto.
  - injection H2 as -> ->. exfalso. apply Hnotin.
    apply in_map_iff. exists (a, r). auto.
  - auto.
Qed.

(** Every bounded assignment is matched by the search on the stacked
    matrix. *)
Lemma assignment_le_matching data k owners :
  assignment data k owners ->
  length owners <= matched (maximum_bipartite_matching (stacked data k)).
Proof.
  intros (Hnd & Hmem & Hcnt).
  set (h := nrows (incidence data)).
  set (pairs := rows_of h [] owners).
  assert (Hlt : forall v i, In (v, i) owners -> i < h).
  { intros v i Hin. apply (entries_row_bound data i v). auto. }
  assert (Hfst : map fst pairs = map fst owners) by apply rows_of_fst.
  assert (Hrows : NoDup (map snd pairs)) by now apply rows_of_NoDup.
  unfold maximum_bipartite_matching.
  set (cols := seq 0 (ncols (stacked data k))).
  assert (Hvalid : valid_perm (neighbours (stacked data k)) cols []
            (map (fun j => match lookup j pairs with
                           | Some r => Z.of_nat r
                           | None => (-1)%Z
                           end) cols)).
  { apply valid_of_lookup.
    - apply seq_NoDup.
    - intros j r _ Hj. split; [|intros []].
      apply lookup_In in Hj.
      destruct (rows_of_in _ _ _ _ _ Hj) as (i & c & Hown & -> & _ & Hhi).
      apply neighbours_stacked. exists c, i. simpl in Hhi.
      specialize (Hcnt i). split; [lia|]. split; [auto | reflexivity].
    - intros j j' r _ _ Hj Hj'. apply lookup_In in Hj, Hj'.
      eapply NoDup_snd_functional; eauto. }
  apply search_optimal in Hvalid. rewrite matched_map_lookup in Hvalid.
  eapply Nat.le_trans; [|exact Hvalid].
  rewrite <- (length_map fst owners).
  apply NoDup_incl_length; [assumption|].
  intros v Hv. apply filter_In.
  apply in_map_iff in Hv. destruct Hv as ([v' i] & Heq & Hin). simpl in Heq. subst v'.
  split.
  - apply in_seq. split; [lia|]. simpl.
    apply (entries_col_bound data i v). auto.
  - assert (Hv : In v (map fst pairs)).
    { rewrite Hfst. apply in_map_iff. exists (v, i). auto. }
    apply in_map_iff in Hv. destruct Hv as ([v' r] & Heq & Hin'). simpl in Heq. subst v'.
    rewrite (In_lookup v pairs r); [reflexivity | now rewrite Hfst | assumption].
Qed.

Lemma count_occ_map_filter {A : Type} (f : A -> nat) (l : list A) (y : nat) :
  count_occ Nat.eq_dec (map f l) y = length (filter (fun x => f x =? y) l).
Proof.
  induction l as [|a l IH]; simpl; [reflexivity|].
  destruct (Nat.eq_dec (f a) y) as [Heq | Hne].
  - rewrite (proj2 (Nat.eqb_eq _ _) Heq). simpl. now rewrite IH.
  - rewrite (proj2 (Nat.eqb_neq _ _) Hne). exact IH.
Qed.

(** At most [k] distinct numbers below [k * h] share a residue modulo [h]. *)
Lemma residue_count (h k : nat) (rows : list nat) (i : nat) :
  NoDup rows -> (forall r, In r rows -> r < k * h) ->
  count_occ Nat.eq_dec (map (fun r => r mod h) rows) i <= k.
Proof.
  intros Hnd Hlt. rewrite count_occ_map_filter.
  set (same := filter (fun r => r mod h =? i) rows).
  rewrite <- (length_map (fun r => r / h) same), <- (length_seq k 0).
  apply NoDup_incl_length.
  - apply NoDup_map_NoDup_ForallPairs; [|now apply NoDup_filter].
    intros x y Hx Hy Hdiv. apply filter_In in Hx, Hy.
    destruct Hx as [Hx Hxi], Hy as [Hy Hyi].
    apply Nat.eqb_eq in Hxi, Hyi.
    assert (Hh : h <> 0).
    { intros ->. specialize (Hlt x Hx). lia. }
    rewrite (Nat.div_mod x h Hh), (Nat.div_mod y h Hh). congruence.
  - intros q Hq. apply in_map_iff in Hq. destruct Hq as (r & <- & Hr).
    apply filter_In in Hr. destruct Hr as [Hr _].
    apply in_seq. split; [lia|]. simpl.
    specialize (Hlt r Hr). apply Nat.Div0.div_lt_upper_bound. lia.
Qed.

(** The matching found on the stacked matrix is a bounded assignment. *)
Lemma matching_assignment data k :
  exists owners,
    assignment data k owners
    /\ length owners = matched (maximum_bipartite_matching (stacked data k)).
Proof.
  set (M := stacked data k). set (h := nrows (incidence data)).
  set (cols := seq 0 (ncols M)).
  set (q := maximum_bipartite_matching M).
  assert (Hvalid : valid_perm (neighbours M) cols [] q) by apply search_valid.
  destruct (pairs_of_spec _ _ _ _ Hvalid) as (Hlen & Hrows & Hall).
  assert (Hcols : NoDup (map fst (pairs_of cols q))).
  { apply pairs_of_fst_NoDup, seq_NoDup. }
  assert (Hdecode : forall j r, In (j, r) (pairs_of cols q) ->
            In (r mod h, j) (entries data) /\ r < k * h).
  { intros j r Hin. destruct (Hall _ _ Hin) as (_ & Hadj & _).
    apply neighbours_stacked in Hadj. destruct Hadj as (c & i & Hc & Hent & ->).
    pose proof (entries_row_bound data i j Hent) as Hi. fold h in Hi |- *.
    split.
    - rewrite Nat.add_comm, Nat.Div0.mod_add, Nat.mod_small by lia. assumption.
    - nia. }
  exists (map (fun p => (fst p, snd p mod h)) (pairs_of cols q)).
  split; [split; [|split]|].
  - rewrite map_map. cbn [fst]. exact Hcols.
  - intros v i Hin. apply in_map_iff in Hin.
    destruct Hin as ([j r] & [= <- <-] & Hin). simpl.
    now apply Hdecode.
  - intros i. rewrite map_map. cbn [snd].
    rewrite <- (map_map snd (fun r => r mod h)).
    apply residue_count; [assumption|].
    intros r Hr. apply in_map_iff in Hr. destruct Hr as ([j r'] & Heq & Hin).
    simpl in Heq. subst r'. now apply (Hdecode j).
  - now rewrite length_map.
Qed.

(** ** Enumerated flows *)

Lemma Zsum_app l1 l2 : Zsum (l1 ++ l2) = (Zsum l1 + Zsum l2)%Z.
Proof.
  induction l1 as [|x l1 IH]; simpl; [reflexivity|].
  unfold Zsum in *. simpl. rewrite IH. lia.
Qed.

Lemma in_amounts c x : In x (amounts c) <-> (0 <= x <= Z.max 0 c)%Z.
Proof.
  unfold amounts. rewrite in_map_iff. split.
  - intros (k & <- & Hk). apply in_seq in Hk. lia.
  - intros Hx. exists (Z.to_nat x). split; [lia|]. apply in_seq. lia.
Qed.

Lemma in_all_flows caps : forall f, In f (all_flows caps) <-> within f caps.
Proof.
  unfold within.
  induction caps as [|c caps IH]; intros f; cbn [all_flows].
  - split.
    + intros [<- | []]. constructor.
    + intros H. inversion H. now left.
  - rewrite in_flat_map. split.
    + intros (x & Hx & Hf). apply in_map_iff in Hf. destruct Hf as (f' & <- & Hf').
      constructor; [now apply in_amounts | now apply IH].
    + intros H. inversion H as [|x c' f' caps' Hx Hf']; subst.
      exists x. split; [now apply in_amounts|].
      apply in_map_iff. exists f'. split; [reflexivity | now apply IH].
Qed.

Lemma fold_max_ge l x : In x l -> (x <= fold_right Z.max 0 l)%Z.
Proof.
  induction l as [|y l IH]; simpl; [intros []|].
  intros [-> | Hin]; [lia|]. specialize (IH Hin). lia.
Qed.

Lemma fold_max_in l :
  fold_right Z.max 0%Z l = 0%Z \/ In (fold_right Z.max 0%Z l) l.
Proof.
  induction l as [|y l IH]; simpl; [now left|].
  destruct (Z.max_spec y (fold_right Z.max 0%Z l)) as [[_ ->] | [_ ->]].
  - destruct IH as [-> | Hin]; [now left | right; now right].
  - right. now left.
Qed.

Lemma conserving_spec g source sink f :
  conserving g source sink f = true
  <-> forall u, u < nrows g -> u <> source -> u <> sink ->
        inflow u (combine (coo g) f) = outflow u (combine (coo g) f).
Proof.
  unfold conserving. rewrite forallb_forall. split.
  - intros H u Hu Hs Ht. specialize (H u).
    rewrite in_seq in H. specialize (H ltac:(lia)).
    apply orb_true_iff in H. destruct H as [H | H].
    + apply orb_true_iff in H. destruct H as [H | H]; apply Nat.eqb_eq in H; contradiction.
    + now apply Z.eqb_eq.
  - intros H u Hu. apply in_seq in Hu.
    destruct (Nat.eqb_spec u source); [reflexivity|].
    destruct (Nat.eqb_spec u sink); [reflexivity|].
    simpl. apply Z.eqb_eq. apply H; lia.
Qed.

(** The value [maximum_flow] returns bounds the value of every flow, and
    some flow has that value. *)
Lemma maximum_flow_spec g source sink :
  source <> sink -> nrows g = ncols g -> source < nrows g -> sink < nrows g ->
  exists k,
    maximum_flow g source sink = OK k
    /\ (forall f, within f (map weight_of (coo g)) ->
                  conserving g source sink f = true ->
                  (flow_value_of g source f <= k)%Z)
    /\ (k = 0%Z
        \/ exists f, within f (map weight_of (coo g))
                     /\ conserving g source sink f = true
                     /\ flow_value_of g source f = k).
Proof.
  intros Hne Hsq Hs Ht. unfold maximum_flow.
  rewrite (proj2 (Nat.eqb_neq _ _) Hne), <- Hsq, Nat.eqb_refl.
  rewrite (proj2 (Nat.ltb_lt _ _) Hs), (proj2 (Nat.ltb_lt _ _) Ht). simpl.
  eexists. split; [reflexivity|]. split.
  - intros f Hf Hc. apply fold_max_ge, in_map, filter_In.
    split; [now apply in_all_flows | assumption].
  - destruct (fold_max_in (map (flow_value_of g source)
               (filter (conserving g source sink)
                  (all_flows (map weight_of (coo g)))))) as [H0 | Hin].
    + now left.
    + right. apply in_map_iff in Hin. destruct Hin as (f & Hval & Hf).
      apply filter_In in Hf. destruct Hf as [Hf Hc].
      exists f. split; [now apply in_all_flows|]. split; assumption.
Qed.

(** ** The flow network of a well-formed data set *)

Lemma combine_app {A B : Type} (l1 l2 : list A) (l1' l2' : list B) :
  length l1 = length l1' ->
  combine (l1 ++ l2) (l1' ++ l2') = combine l1 l1' ++ combine l2 l2'.
Proof.
  revert l1'. induction l1 as [|a l1 IH]; intros [|a' l1'] Hlen;
    simpl in *; try discriminate; [reflexivity|].
  f_equal. apply IH. lia.
Qed.

Lemma combine3_map {A : Type} (f g : A -> nat) (w : Z) (l : list A) :
  combine (combine (map f l) (map g l)) (repeat w (length l))
  = map (fun x => (f x, g x, w)) l.
Proof.
  induction l as [|a l IH]; simpl; [reflexivity | now rewrite IH].
Qed.

Section WellFormed.

Variable data : list (list nat).
Hypothesis Hwf : well_formed data.

Let n := length data.
Let m := length (nodup Nat.eq_dec (concat data)).
Let E := entries data.

Lemma wf_entries_NoDup : NoDup E.
Proof. apply entries_NoDup, Hwf. Qed.

Lemma wf_entry_bounds i v : In (i, v) E -> i < n /\ v < m.
Proof.
  intros Hin. split.
  - now apply in_entries in Hin.
  - apply Hwf. rewrite <- entries_snd. apply in_map_iff. exists (i, v). auto.
Qed.

Lemma wf_values_pos : 0 < m.
Proof.
  destruct Hwf as (_ & _ & Hne). unfold m.
  destruct (concat data) as [|v l] eqn:Hc; [congruence|].
  assert (Hin : In v (nodup Nat.eq_dec (v :: l))) by (apply nodup_In; now left).
  destruct (nodup Nat.eq_dec (v :: l)); [destruct Hin | simpl; lia].
Qed.

Lemma wf_users_pos : 0 < n.
Proof.
  destruct Hwf as (_ & _ & Hne). unfold n.
  destruct data; [now simpl in Hne | simpl; lia].
Qed.

Lemma wf_value_used v : v < m -> exists i, In (i, v) E.
Proof.
  intros Hv.
  assert (Hincl : incl (seq 0 m) (nodup Nat.eq_dec (concat data))).
  { apply NoDup_length_incl.
    - apply NoDup_nodup.
    - rewrite length_seq. unfold m. lia.
    - intros x Hx. apply nodup_In in Hx. apply in_seq.
      split; [lia|]. simpl. now apply Hwf. }
  assert (Hin : In v (concat data)).
  { apply (nodup_In Nat.eq_dec), Hincl, in_seq. lia. }
  rewrite <- entries_snd in Hin. apply in_map_iff in Hin.
  destruct Hin as ([i v'] & Heq & Hin). simpl in Heq. subst v'.
  now exists i.
Qed.

Lemma to_flow_matrix_ok b : _to_flow_matrix m data b = OK (flow_network data m b).
Proof.
  pose proof wf_values_pos as Hm. pose proof wf_users_pos as Hn.
  unfold _to_flow_matrix, csr_matrix_init. fold n. fold E.
  rewrite !length_app, !length_map, !length_seq, !repeat_length, !Nat.eqb_refl.
  simpl negb. cbv iota.
  destruct (map (fun _ : nat => 0) (seq 2 n) ++ seq (n + 2) m
              ++ map (fun e => fst e + 2) E) as [|r0 rows] eqn:Hrows.
  { apply (f_equal (@length nat)) in Hrows.
    rewrite !length_app, !length_map, !length_seq in Hrows. simpl in Hrows. lia. }
  rewrite <- Hrows. clear Hrows r0 rows.
  assert (Hmax_rows :
    list_max (map (fun _ : nat => 0) (seq 2 n) ++ seq (n + 2) m
                ++ map (fun e => fst e + 2) E) = n + m + 1).
  { apply Nat.le_antisymm.
    - apply list_max_le, Forall_forall. intros x Hx.
      rewrite !in_app_iff, !in_map_iff in Hx.
      destruct Hx as [(u & <- & _) | [Hx | ([i v] & <- & Hin)]].
      + lia.
      + apply in_seq in Hx. lia.
      + apply wf_entry_bounds in Hin. simpl. lia.
    - replace (n + m + 1) with (n + 2 + (m - 1)) by lia.
      apply in_list_max. rewrite !in_app_iff. right. left. apply in_seq. lia. }
  assert (Hmax_cols :
    list_max (seq 2 n ++ map (fun _ : nat => 1) (seq (n + 2) m)
                ++ map (fun e => snd e + n + 2) E) = n + m + 1).
  { apply Nat.le_antisymm.
    - apply list_max_le, Forall_forall. intros x Hx.
      rewrite !in_app_iff, !in_map_iff in Hx.
      destruct Hx as [Hx | [(u & <- & _) | ([i v] & <- & Hin)]].
      + apply in_seq in Hx. lia.
      + lia.
      + apply wf_entry_bounds in Hin. simpl. lia.
    - destruct (wf_value_used (m - 1)) as (i & Hin); [lia|].
      apply in_list_max. rewrite !in_app_iff. right. right.
      apply in_map_iff. exists (i, m - 1). split; [simpl; lia | assumption]. }
  rewrite Hmax_rows, Hmax_cols.
  unfold flow_network. fold n. fold E.
  replace (S (n + m + 1)) with (n + m + 2) by lia.
  f_equal. f_equal.
  - repeat rewrite combine_app
      by (rewrite ?length_combine, ?length_map, ?length_seq, ?repeat_length; lia).
    unfold source_edges, sink_edges, internal_edges.
    f_equal; [|f_equal].
    + rewrite <- (map_id (seq 2 n)) at 2. rewrite <- (length_seq n 2) at 3.
      rewrite combine3_map. reflexivity.
    + rewrite <- (map_id (seq (n + 2) m)) at 1. rewrite <- (length_seq m (n + 2)) at 3.
      rewrite combine3_map. reflexivity.
    + rewrite combine3_map. reflexivity.
Qed.

End WellFormed.

(** ** Sums of the amounts on selected edges *)

Lemma pick_sum_app {A : Type} (key : A -> nat) u (l1 l2 : list (A * Z)) :
  pick_sum key u (l1 ++ l2) = (pick_sum key u l1 + pick_sum key u l2)%Z.
Proof. unfold pick_sum. now rewrite map_app, Zsum_app. Qed.

Lemma pick_sum_cons {A : Type} (key : A -> nat) u (a : A) (x : Z) ps :
  pick_sum key u ((a, x) :: ps)
  = ((if (key a =? u)%nat then x else 0) + pick_sum key u ps)%Z.
Proof. reflexivity. Qed.

Lemma pick_sum_map_key {A B : Type} (g : A -> B) (key : B -> nat) u (l : list A) :
  forall xs,
    pick_sum key u (combine (map g l) xs)
    = pick_sum (fun a => key (g a)) u (combine l xs).
Proof.
  induction l as [|a l IH]; intros [|x xs]; simpl; try reflexivity.
  rewrite !pick_sum_cons, IH. reflexivity.
Qed.

Lemma pick_sum_cond {A : Type} (key key' : A -> nat) u u' (l : list A) :
  forall xs,
    (forall a, In a l -> (key a =? u) = (key' a =? u')) ->
    pick_sum key u (combine l xs) = pick_sum key' u' (combine l xs).
Proof.
  induction l as [|a l IH]; intros [|x xs] Hext; simpl; try reflexivity.
  rewrite !pick_sum_cons, (Hext a) by (simpl; auto).
  rewrite IH; [reflexivity|]. intros a' Ha'. apply Hext. simpl; auto.
Qed.

Lemma pick_sum_none {A : Type} (key : A -> nat) u (l : list A) :
  forall xs,
    (forall a, In a l -> key a <> u) -> pick_sum key u (combine l xs) = 0%Z.
Proof.
  induction l as [|a l IH]; intros [|x xs] Hne; simpl; try reflexivity.
  rewrite pick_sum_cons, IH by (intros a' Ha'; apply Hne; simpl; auto).
  rewrite (proj2 (Nat.eqb_neq _ _) (Hne a (or_introl eq_refl))). reflexivity.
Qed.

Lemma pick_sum_all {A : Type} (key : A -> nat) u (l : list A) :
  forall xs,
    (forall a, In a l -> key a = u) -> length xs = length l ->
    pick_sum key u (combine l xs) = Zsum xs.
Proof.
  induction l as [|a l IH]; intros [|x xs] Heq Hlen; simpl in *;
    try discriminate; try reflexivity.
  rewrite pick_sum_cons, IH by (auto; lia).
  rewrite (proj2 (Nat.eqb_eq _ _) (Heq a (or_introl eq_refl))).
  unfold Zsum. simpl. reflexivity.
Qed.

Lemma pick_sum_seq len : forall start u xs,
  length xs = len -> start <= u < start + len ->
  pick_sum (fun a => a) u (combine (seq start len) xs) = nth (u - start) xs 0%Z.
Proof.
  induction len as [|len IH]; intros start u [|x xs] Hlen Hu; simpl in *;
    try discriminate; try lia.
  rewrite pick_sum_cons. destruct (Nat.eqb_spec start u) as [-> | Hne].
  - rewrite Nat.sub_diag.
    rewrite pick_sum_none; [lia|]. intros a Ha. apply in_seq in Ha. lia.
  - rewrite IH by lia. replace (u - start) with (S (u - S start)) by lia.
    reflexivity.
Qed.

Lemma Forall2_repeat (R : Z -> Z -> Prop) (c : Z) (k : nat) (l : list Z) :
  Forall2 R l (repeat c k) <-> length l = k /\ Forall (fun x => R x c) l.
Proof.
  revert l. induction k as [|k IH]; intros l; simpl.
  - split.
    + intros H. inversion H. split; [reflexivity | constructor].
    + intros [Hlen _]. apply length_zero_iff_nil in Hlen. subst. constructor.
  - split.
    + intros H. inversion H as [|x c' l' r' Hx Hrest]; subst.
      apply IH in Hrest. destruct Hrest as [Hlen Hall].
      split; [simpl; lia | now constructor].
    + intros [Hlen Hall]. destruct l as [|x l]; [discriminate|].
      inversion Hall; subst. constructor; [assumption|].
      apply IH. split; [simpl in Hlen; lia | assumption].
Qed.

Section Network.

Variable data : list (list nat).
Hypothesis Hwf : well_formed data.
Variable b : Z.

Let n := length data.
Let m := length (nodup Nat.eq_dec (concat data)).
Let E := entries data.
Let G := flow_network data m b.

Lemma network_caps :
  map weight_of (coo G) = repeat b n ++ repeat 1%Z m ++ repeat 1%Z (length E).
Proof.
  unfold G, flow_network, source_edges, sink_edges, internal_edges. simpl coo.
  rewrite !map_app, !map_map. unfold weight_of. simpl.
  rewrite !map_const, !length_seq. reflexivity.
Qed.

Lemma network_within f :
  within f (map weight_of (coo G)) <->
  exists fS fT fI,
    f = fS ++ fT ++ fI
    /\ length fS = n /\ length fT = m /\ length fI = length E
    /\ Forall (fun x => 0 <= x <= Z.max 0 b)%Z fS
    /\ Forall (fun x => 0 <= x <= 1)%Z fT
    /\ Forall (fun x => 0 <= x <= 1)%Z fI.
Proof.
  rewrite network_caps. unfold within. split.
  - intros H.
    apply Forall2_app_inv_r in H. destruct H as (fS & f' & HS & H & ->).
    apply Forall2_app_inv_r in H. destruct H as (fT & fI & HT & HI & ->).
    apply Forall2_repeat in HS, HT, HI.
    exists fS, fT, fI. intuition.
  - intros (fS & fT & fI & -> & HlS & HlT & HlI & HS & HT & HI).
    repeat apply Forall2_app; apply Forall2_repeat; auto.
Qed.

Section Pieces.

Variables fS fT fI : list Z.
Hypothesis HlS : length fS = n.
Hypothesis HlT : length fT = m.
Hypothesis HlI : length fI = length E.

Let ef := combine (coo G) (fS ++ fT ++ fI).

Lemma network_combine :
  ef = combine (source_edges n b) fS
         ++ combine (sink_edges n m) fT
         ++ combine (internal_edges n E) fI.
Proof.
  unfold ef, G, flow_network. simpl coo. fold n. fold E.
  rewrite !combine_app; [reflexivity | |];
    unfold source_edges, sink_edges; rewrite length_map, length_seq; lia.
Qed.

Lemma network_out_source : outflow 0 ef = Zsum fS.
Proof.
  change (outflow 0 ef) with (pick_sum row_of 0 ef).
  rewrite network_combine, !pick_sum_app.
  unfold source_edges, sink_edges, internal_edges.
  rewrite !pick_sum_map_key.
  rewrite pick_sum_all; [| reflexivity | now rewrite length_seq].
  rewrite pick_sum_none.
  2:{ intros a Ha. apply in_seq in Ha. unfold row_of. simpl. lia. }
  rewrite pick_sum_none; [lia|].
  intros a _. unfold row_of. simpl. lia.
Qed.

Lemma network_in_source : inflow 0 ef = 0%Z.
Proof.
  change (inflow 0 ef) with (pick_sum col_of 0 ef).
  rewrite network_combine, !pick_sum_app.
  unfold source_edges, sink_edges, internal_edges.
  rewrite !pick_sum_map_key.
  rewrite !pick_sum_none; [lia | | |].
  - intros a _. unfold col_of. simpl. lia.
  - intros a _. unfold col_of. simpl. lia.
  - intros a Ha. apply in_seq in Ha. unfold col_of. simpl. lia.
Qed.

Lemma network_in_user i : i < n -> inflow (i + 2) ef = nth i fS 0%Z.
Proof.
  intros Hi.
  change (inflow (i + 2) ef) with (pick_sum col_of (i + 2) ef).
  rewrite network_combine, !pick_sum_app.
  unfold source_edges, sink_edges, internal_edges.
  rewrite !pick_sum_map_key.
  rewrite (pick_sum_none (fun a => col_of (a, 1, 1%Z))).
  2:{ intros a _. unfold col_of. simpl. lia. }
  rewrite (pick_sum_none (fun a : nat * nat => col_of (fst a + 2, snd a + n + 2, 1%Z))).
  2:{ intros a _. unfold col_of. simpl. lia. }
  change (fun a : nat => col_of (0, a, b)) with (fun a : nat => a).
  rewrite pick_sum_seq by lia.
  replace (i + 2 - 2) with i by lia. lia.
Qed.

Lemma network_out_user i :
  i < n -> outflow (i + 2) ef = pick_sum fst i (combine E fI).
Proof.
  intros Hi.
  change (outflow (i + 2) ef) with (pick_sum row_of (i + 2) ef).
  rewrite network_combine, !pick_sum_app.
  unfold source_edges, sink_edges, internal_edges.
  rewrite !pick_sum_map_key.
  rewrite (pick_sum_none (fun a => row_of (0, a, b))).
  2:{ intros a _. unfold row_of. simpl. lia. }
  rewrite (pick_sum_none (fun a => row_of (a, 1, 1%Z))).
  2:{ intros a Ha. apply in_seq in Ha. unfold row_of. simpl. lia. }
  rewrite (pick_sum_cond _ fst (i + 2) i); [lia|].
  intros a _. unfold row_of. simpl.
  destruct (Nat.eqb_spec (fst a + 2) (i + 2)), (Nat.eqb_spec (fst a) i);
    try reflexivity; lia.
Qed.

Lemma network_out_value v : v < m -> outflow (v + n + 2) ef = nth v fT 0%Z.
Proof.
  intros Hv.
  change (outflow (v + n + 2) ef) with (pick_sum row_of (v + n + 2) ef).
  rewrite network_combine, !pick_sum_app.
  unfold source_edges, sink_edges, internal_edges.
  rewrite !pick_sum_map_key.
  rewrite (pick_sum_none (fun a => row_of (0, a, b))).
  2:{ intros a _. unfold row_of. simpl. lia. }
  rewrite (pick_sum_none (fun a : nat * nat => row_of (fst a + 2, snd a + n + 2, 1%Z))).
  2:{ intros [i' v'] Ha. apply (wf_entry_bounds data Hwf) in Ha.
      unfold row_of. simpl. fold n in Ha. lia. }
  change (fun a : nat => row_of (a, 1, 1%Z)) with (fun a : nat => a).
  rewrite pick_sum_seq by lia.
  replace (v + n + 2 - (n + 2)) with v by lia. lia.
Qed.

Lemma network_in_value v :
  v < m -> inflow (v + n + 2) ef = pick_sum snd v (combine E fI).
Proof.
  intros Hv.
  change (inflow (v + n + 2) ef) with (pick_sum col_of (v + n + 2) ef).
  rewrite network_combine, !pick_sum_app.
  unfold source_edges, sink_edges, internal_edges.
  rewrite !pick_sum_map_key.
  rewrite (pick_sum_none (fun a => col_of (0, a, b))).
  2:{ intros a Ha. apply in_seq in Ha. unfold col_of. simpl. lia. }
  rewrite (pick_sum_none (fun a => col_of (a, 1, 1%Z))).
  2:{ intros a _. unfold col_of. simpl. lia. }
  rewrite (pick_sum_cond _ snd (v + n + 2) v); [lia|].
  intros a _. unfold col_of. simpl.
  destruct (Nat.eqb_spec (snd a + n + 2) (v + n + 2)), (Nat.eqb_spec (snd a) v);
    try reflexivity; lia.
Qed.

(** Conservation, node by node. *)
Lemma network_conserving :
  conserving G 0 1 (fS ++ fT ++ fI) = true
  <-> (forall i, i < n -> nth i fS 0%Z = pick_sum fst i (combine E fI))
      /\ (forall v, v < m -> pick_sum snd v (combine E fI) = nth v fT 0%Z).
Proof.
  rewrite conserving_spec. fold ef. unfold G at 1, flow_network, nrows. simpl.
  fold n. split.
  - intros H. split.
    + intros i Hi. rewrite <- network_in_user, <- network_out_user by assumption.
      apply H; lia.
    + intros v Hv. rewrite <- network_in_value, <- network_out_value by assumption.
      apply H; lia.
  - intros [HU HV] u Hu H0 H1.
    destruct (Nat.lt_ge_cases u (n + 2)) as [Hlt | Hge].
    + replace u with (u - 2 + 2) by lia.
      rewrite network_in_user, network_out_user by lia. apply HU. lia.
    + replace u with (u - n - 2 + n + 2) by lia.
      rewrite network_in_value, network_out_value by lia. apply HV. lia.
Qed.

Lemma network_value : flow_value_of G 0 (fS ++ fT ++ fI) = Zsum fS.
Proof.
  unfold flow_value_of. fold ef.
  rewrite network_out_source, network_in_source. lia.
Qed.

End Pieces.

End Network.

(** ** From flows to bounded assignments *)

Lemma pick_sum_carriers (key : nat * nat -> nat) u (E : list (nat * nat)) :
  forall fI,
    Forall (fun x => 0 <= x <= 1)%Z fI ->
    pick_sum key u (combine E fI)
    = Z.of_nat (count_occ Nat.eq_dec (map key (carriers E fI)) u).
Proof.
  unfold carriers.
  induction E as [|e E IH]; intros [|x fI] Hall; simpl; try reflexivity.
  inversion Hall as [|? ? Hx Hrest]; subst.
  rewrite pick_sum_cons, IH by assumption.
  destruct (Z.eqb_spec x 1) as [-> | Hne]; simpl.
  - destruct (Nat.eq_dec (key e) u) as [Heq | Hneq].
    + rewrite (proj2 (Nat.eqb_eq _ _) Heq). lia.
    + rewrite (proj2 (Nat.eqb_neq _ _) Hneq). lia.
  - assert (x = 0)%Z as -> by lia. destruct (key e =? u); lia.
Qed.

Lemma carriers_incl E fI : incl (carriers E fI) E.
Proof.
  intros e He. unfold carriers in He. apply in_map_iff in He.
  destruct He as ([e' x] & Heq & Hin). simpl in Heq. subst e'.
  apply filter_In in Hin. destruct Hin as [Hin _].
  now apply in_combine_l in Hin.
Qed.

Lemma indicator_sum a n :
  list_sum (map (fun i => if Nat.eq_dec a i then 1 else 0) (seq 0 n))
  = if a <? n then 1 else 0.
Proof.
  induction n as [|n IH]; [reflexivity|].
  rewrite seq_S, map_app, list_sum_app, IH. simpl.
  destruct (Nat.eq_dec a n) as [-> | Hne].
  - rewrite Nat.ltb_irrefl, (proj2 (Nat.ltb_lt n (S n))) by lia. reflexivity.
  - destruct (Nat.ltb_spec a n), (Nat.ltb_spec a (S n)); lia.
Qed.

(** A list of numbers below [n] is as long as its counts add up to. *)
Lemma length_by_count (l : list nat) n :
  (forall x, In x l -> x < n) ->
  length l = list_sum (map (count_occ Nat.eq_dec l) (seq 0 n)).
Proof.
  induction l as [|a l IH]; intros Hlt.
  - simpl. induction (seq 0 n); simpl; auto.
  - assert (Hsplit : forall s,
      list_sum (map (count_occ Nat.eq_dec (a :: l)) s)
      = list_sum (map (fun i => if Nat.eq_dec a i then 1 else 0) s)
        + list_sum (map (count_occ Nat.eq_dec l) s)).
    { induction s as [|i s IHs]; [reflexivity|].
      rewrite !map_cons.
      change (list_sum (count_occ Nat.eq_dec (a :: l) i
                          :: map (count_occ Nat.eq_dec (a :: l)) s))
        with (count_occ Nat.eq_dec (a :: l) i
              + list_sum (map (count_occ Nat.eq_dec (a :: l)) s)).
      rewrite IHs. simpl. destruct (Nat.eq_dec a i); lia. }
    rewrite Hsplit, indicator_sum, <- IH by (intros x Hx; apply Hlt; now right).
    rewrite (proj2 (Nat.ltb_lt a n)) by (apply Hlt; now left).
    reflexivity.
Qed.

Lemma Zsum_of_nat (c : nat -> nat) (s : list nat) :
  Z.of_nat (list_sum (map c s)) = Zsum (map (fun i => Z.of_nat (c i)) s).
Proof.
  induction s as [|i s IH]; simpl; [reflexivity|].
  unfold Zsum in *. simpl. rewrite <- IH. lia.
Qed.

Lemma Zsum_nth (xs : list Z) :
  Zsum (map (fun i => nth i xs 0%Z) (seq 0 (length xs))) = Zsum xs.
Proof.
  induction xs as [|x xs IH]; [reflexivity|].
  simpl length. simpl seq. rewrite <- seq_shift, map_cons, map_map.
  simpl. unfold Zsum in *. simpl. now rewrite IH.
Qed.

Lemma flow_assignment data b f :
  well_formed data -> (0 <= b)%Z ->
  let G := flow_network data (length (nodup Nat.eq_dec (concat data))) b in
  within f (map weight_of (coo G)) ->
  conserving G 0 1 f = true ->
  exists owners,
    assignment data (Z.to_nat b) owners
    /\ Z.of_nat (length owners) = flow_value_of G 0 f.
Proof.
  intros Hwf Hb G Hin Hcons.
  set (n := length data). set (m := length (nodup Nat.eq_dec (concat data))).
  set (E := entries data).
  apply (network_within data b) in Hin.
  destruct Hin as (fS & fT & fI & -> & HlS & HlT & HlI & HS & HT & HI).
  apply (network_conserving data Hwf b fS fT fI HlS HlT HlI) in Hcons.
  destruct Hcons as [HU HV]. fold E in HU, HV. fold E in HlI.
  unfold G. rewrite (network_value data b fS fT fI HlS HlT HlI).
  set (L := carriers E fI).
  assert (HcS : forall u, pick_sum fst u (combine E fI)
                          = Z.of_nat (count_occ Nat.eq_dec (map fst L) u))
    by (intros u; now apply pick_sum_carriers).
  assert (HcT : forall u, pick_sum snd u (combine E fI)
                          = Z.of_nat (count_occ Nat.eq_dec (map snd L) u))
    by (intros u; now apply pick_sum_carriers).
  assert (HLE : forall i v, In (i, v) L -> i < n /\ v < m).
  { intros i v Hiv. apply (wf_entry_bounds data Hwf). now apply (carriers_incl E fI). }
  assert (Hcnt_user : forall i,
    (Z.of_nat (count_occ Nat.eq_dec (map fst L) i) <= b)%Z
    /\ (i < n -> Z.of_nat (count_occ Nat.eq_dec (map fst L) i) = nth i fS 0%Z)).
  { intros i. destruct (Nat.lt_ge_cases i n) as [Hi | Hi].
    - rewrite <- HcS, <- HU by assumption.
      split; [|reflexivity].
      rewrite Forall_forall in HS.
      specialize (HS (nth i fS 0%Z) ltac:(apply nth_In; lia)). lia.
    - rewrite (proj1 (count_occ_not_In Nat.eq_dec (map fst L) i)); [split; lia|].
      intros Hx. apply in_map_iff in Hx. destruct Hx as ([i' v] & Heq & Hx).
      simpl in Heq. subst i'. apply HLE in Hx. lia. }
  assert (Hcnt_value : forall v, count_occ Nat.eq_dec (map snd L) v <= 1).
  { intros v. destruct (Nat.lt_ge_cases v m) as [Hv | Hv].
    - apply Nat2Z.inj_le.
      rewrite <- HcT, HV by assumption.
      rewrite Forall_forall in HT.
      specialize (HT (nth v fT 0%Z) ltac:(apply nth_In; lia)). lia.
    - rewrite (proj1 (count_occ_not_In Nat.eq_dec (map snd L) v)); [lia|].
      intros Hx. apply in_map_iff in Hx. destruct Hx as ([i v'] & Heq & Hx).
      simpl in Heq. subst v'. apply HLE in Hx. lia. }
  exists (map flip L).
  assert (Hfst : map fst (map flip L) = map snd L)
    by (rewrite map_map; reflexivity).
  assert (Hsnd : map snd (map flip L) = map fst L)
    by (rewrite map_map; reflexivity).
  split; [split; [|split]|].
  - rewrite Hfst. now apply NoDup_count_occ with (decA := Nat.eq_dec).
  - intros v i Hvi. apply in_map_iff in Hvi.
    destruct Hvi as ([i' v'] & [= <- <-] & Hin').
    now apply (carriers_incl E fI).
  - intros i. rewrite Hsnd. destruct (Hcnt_user i) as [Hle _]. lia.
  - rewrite length_map, <- (length_map fst L).
    rewrite (length_by_count (map fst L) n).
    2:{ intros i Hi. apply in_map_iff in Hi. destruct Hi as ([i' v] & Heq & Hx).
        simpl in Heq. subst i'. now apply HLE in Hx. }
    rewrite Zsum_of_nat, <- (Zsum_nth fS), HlS. f_equal.
    apply map_ext_in. intros i Hi. apply in_seq in Hi.
    now apply Hcnt_user.
Qed.

(** ** From bounded assignments to flows *)

Lemma chosen_spec owners e : chosen owners e = true <-> In (flip e) owners.
Proof.
  unfold chosen. rewrite existsb_exists. split.
  - intros ([v i] & Hin & Heq). apply andb_true_iff in Heq.
    destruct Heq as [H1 H2]. apply Nat.eqb_eq in H1, H2. simpl in *. subst.
    exact Hin.
  - intros Hin. exists (flip e). split; [assumption|].
    unfold flip. simpl. now rewrite !Nat.eqb_refl.
Qed.

Lemma carriers_indicator (c : nat * nat -> bool) E :
  carriers E (map (fun e => if c e then 1%Z else 0%Z) E) = filter c E.
Proof.
  unfold carriers. induction E as [|e E IH]; [reflexivity|].
  simpl. destruct (c e); simpl; now rewrite IH.
Qed.

Lemma flip_flip e : flip (flip e) = e.
Proof. now destruct e. Qed.

Lemma chosen_permutation data k owners :
  well_formed data -> assignment data k owners ->
  Permutation (filter (chosen owners) (entries data)) (map flip owners).
Proof.
  intros Hwf (Hnd & Hmem & _).
  apply NoDup_Permutation.
  - apply NoDup_filter, entries_NoDup, Hwf.
  - apply Finite.Injective_map_NoDup.
    + intros x y Hxy. now rewrite <- (flip_flip x), Hxy, flip_flip.
    + now apply NoDup_map_inv in Hnd.
  - intros e. rewrite filter_In, chosen_spec, in_map_iff. split.
    + intros [_ Hin]. exists (flip e). split; [apply flip_flip | assumption].
    + intros (o & <- & Hin). rewrite flip_flip. split; [|assumption].
      destruct o as [v i]. now apply Hmem.
Qed.

Lemma nth_map_seq (g : nat -> Z) n i :
  i < n -> nth i (map g (seq 0 n)) 0%Z = g i.
Proof.
  intros Hi. rewrite (nth_indep _ 0%Z (g 0)) by (now rewrite length_map, length_seq).
  rewrite map_nth, seq_nth by assumption. reflexivity.
Qed.

Lemma assignment_flow data b owners :
  well_formed data -> (0 <= b)%Z ->
  assignment data (Z.to_nat b) owners ->
  let G := flow_network data (length (nodup Nat.eq_dec (concat data))) b in
  exists f,
    within f (map weight_of (coo G))
    /\ conserving G 0 1 f = true
    /\ flow_value_of G 0 f = Z.of_nat (length owners).
Proof.
  intros Hwf Hb Hasg G.
  pose proof (chosen_permutation data _ owners Hwf Hasg) as Hperm.
  destruct Hasg as (Hnd & Hmem & Hcnt).
  set (n := length data). set (m := length (nodup Nat.eq_dec (concat data))).
  set (E := entries data). fold E in Hperm.
  set (fS := map (fun i => Z.of_nat (count_occ Nat.eq_dec (map snd owners) i)) (seq 0 n)).
  set (fT := map (fun v => Z.of_nat (count_occ Nat.eq_dec (map fst owners) v)) (seq 0 m)).
  set (fI := map (fun e => if chosen owners e then 1%Z else 0%Z) E).
  assert (HlS : length fS = n) by (unfold fS; now rewrite length_map, length_seq).
  assert (HlT : length fT = m) by (unfold fT; now rewrite length_map, length_seq).
  assert (HlI : length fI = length E) by (unfold fI; now rewrite length_map).
  assert (HI : Forall (fun x => 0 <= x <= 1)%Z fI).
  { apply Forall_forall. intros x Hx. apply in_map_iff in Hx.
    destruct Hx as (e & <- & _). destruct (chosen owners e); lia. }
  assert (Hfst : forall u,
    count_occ Nat.eq_dec (map fst (carriers E fI)) u
    = count_occ Nat.eq_dec (map snd owners) u).
  { intros u. unfold fI. rewrite carriers_indicator.
    rewrite (proj1 (Permutation_count_occ Nat.eq_dec _ _)
               (Permutation_map fst Hperm) u).
    rewrite map_map. reflexivity. }
  assert (Hsnd : forall u,
    count_occ Nat.eq_dec (map snd (carriers E fI)) u
    = count_occ Nat.eq_dec (map fst owners) u).
  { intros u. unfold fI. rewrite carriers_indicator.
    rewrite (proj1 (Permutation_count_occ Nat.eq_dec _ _)
               (Permutation_map snd Hperm) u).
    rewrite map_map. reflexivity. }
  exists (fS ++ fT ++ fI). split; [|split].
  - apply (network_within data b). exists fS, fT, fI.
    split; [reflexivity|]. split; [assumption|]. split; [assumption|].
    split; [assumption|]. split; [|split; [|assumption]].
    + apply Forall_forall. intros x Hx. apply in_map_iff in Hx.
      destruct Hx as (i & <- & _). specialize (Hcnt i). lia.
    + apply Forall_forall. intros x Hx. apply in_map_iff in Hx.
      destruct Hx as (v & <- & _).
      pose proof (proj1 (NoDup_count_occ Nat.eq_dec _) Hnd v). lia.
  - apply (network_conserving data Hwf b fS fT fI HlS HlT HlI). fold E. split.
    + intros i Hi. rewrite (pick_sum_carriers fst i E fI HI), Hfst.
      unfold fS. now rewrite nth_map_seq.
    + intros v Hv. rewrite (pick_sum_carriers snd v E fI HI), Hsnd.
      unfold fT. now rewrite nth_map_seq.
  - unfold G. rewrite (network_value data b fS fT fI HlS HlT HlI).
    unfold fS. rewrite <- Zsum_of_nat, <- length_by_count, length_map; [reflexivity|].
    intros i Hi. apply in_map_iff in Hi. destruct Hi as ([v i'] & Heq & Hin).
    simpl in Heq. subst i'. apply Hmem in Hin.
    now apply (wf_entry_bounds data Hwf) in Hin.
Qed.

(** ** The flow estimator on a well-formed data set *)

Lemma flow_distinct_count_spec data d b :
  DataSet_init data = OK d -> well_formed data -> (0 <= b)%Z ->
  exists k,
    flow_distinct_count d b = OK k
    /\ (forall owners, assignment data (Z.to_nat b) owners ->
                       (Z.of_nat (length owners) <= k)%Z)
    /\ (exists owners, assignment data (Z.to_nat b) owners
                       /\ Z.of_nat (length owners) = k).
Proof.
  intros Hd Hwf Hb.
  assert (Hdata : _data d = data /\ number_of_values d = length (nodup Nat.eq_dec (concat data))).
  { destruct data; [discriminate|]. injection Hd as <-. split; reflexivity. }
  destruct Hdata as [Hdata Hvalues].
  unfold flow_distinct_count, as_flow_matrix. rewrite Hdata, Hvalues.
  rewrite (to_flow_matrix_ok data Hwf b). simpl bind.
  set (m := length (nodup Nat.eq_dec (concat data))).
  set (G := flow_network data m b).
  destruct (maximum_flow_spec G 0 1) as (k & Hk & Hub & Hatt).
  - lia.
  - reflexivity.
  - unfold G, flow_network, nrows. simpl. lia.
  - unfold G, flow_network, nrows. simpl. lia.
  - exists k. split; [assumption|]. split.
    + intros owners Hasg.
      destruct (assignment_flow data b owners Hwf Hb Hasg) as (f & Hin & Hc & Hv).
      rewrite <- Hv. now apply Hub.
    + destruct Hatt as [-> | (f & Hin & Hc & Hv)].
      * exists []. split; [|reflexivity].
        split; [constructor|]. split; [intros v i []|]. intros i. simpl. lia.
      * destruct (flow_assignment data b f Hwf Hb Hin Hc) as (owners & Hasg & Hlen).
        exists owners. split; [assumption|]. fold m in Hlen. fold G in Hlen. lia.
Qed.

(** ** The greedy estimator *)

Lemma set_add_fresh (x : nat) (s : set nat) :
  ~ In x s -> set_add Nat.eq_dec x s = s ++ [x].
Proof.
  induction s as [|y s IH]; simpl; intros Hnot; [reflexivity|].
  destruct (Nat.eq_dec x y) as [-> | Hne]; [exfalso; auto|].
  rewrite IH by auto. reflexivity.
Qed.

Lemma advance_spec rest : forall pre result,
  (forall v, In v pre -> In v result) ->
  exists k,
    fst (advance rest (length pre) result) = length pre + k
    /\ k <= length rest
    /\ (forall v, In v (pre ++ firstn k rest) ->
                  In v (snd (advance rest (length pre) result)))
    /\ ((snd (advance rest (length pre) result) = result /\ k = length rest)
        \/ (exists v, In v rest /\ ~ In v result /\ 0 < k
                      /\ snd (advance rest (length pre) result) = result ++ [v])).
Proof.
  induction rest as [|x rest IH]; intros pre result Hpre; simpl.
  - exists 0. split; [lia|]. split; [lia|]. split.
    + intros v Hv. rewrite app_nil_r in Hv. auto.
    + now left.
  - destruct (set_mem Nat.eq_dec x result) eqn:Hmem.
    + apply set_mem_correct1 in Hmem.
      destruct (IH (pre ++ [x]) result) as (k & Hpos & Hk & Hseen & Hres).
      { intros v Hv. apply in_app_or in Hv. destruct Hv as [Hv | [<- | []]]; auto. }
      rewrite length_app in Hpos, Hseen, Hres. simpl in Hpos, Hseen, Hres.
      rewrite Nat.add_1_r in Hpos, Hseen, Hres.
      exists (S k). split; [lia|]. split; [lia|]. split.
      * intros v Hv. apply Hseen. simpl in Hv. rewrite <- app_assoc. exact Hv.
      * destruct Hres as [[Hsame Hlen] | (v & Hv & Hnot & Hpos' & Hadd)].
        -- left. split; [assumption | lia].
        -- right. exists v. split; [now right|]. split; [assumption|].
           split; [lia | assumption].
    + apply set_mem_complete1 in Hmem. simpl.
      rewrite set_add_fresh by assumption.
      exists 1. split; [lia|]. split; [lia|]. split.
      * intros v Hv. simpl in Hv. apply in_or_app.
        apply in_app_or in Hv. destruct Hv as [Hv | [<- | []]]; [left; auto | right; now left].
      * right. exists x. split; [now left|]. split; [assumption|].
        split; [lia | reflexivity].
Qed.

Lemma firstn_add_split {A : Type} (p k : nat) : forall r : list A,
  firstn (p + k) r = firstn p r ++ firstn k (skipn p r).
Proof.
  induction p as [|p IH]; intros r; [reflexivity|].
  destruct r as [|a r]; simpl.
  - now rewrite firstn_nil.
  - now rewrite IH.
Qed.

Lemma length_list_set {A : Type} (l : list A) : forall i x,
  length (list_set l i x) = length l.
Proof.
  induction l as [|h t IH]; intros [|i] x; simpl; auto.
Qed.

Lemma nth_list_set (l : list nat) : forall i j x,
  i < length l ->
  nth j (list_set l i x) 0 = if j =? i then x else nth j l 0.
Proof.
  induction l as [|h t IH]; intros [|i] [|j] x Hi; simpl in *; try lia; try reflexivity.
  apply IH. lia.
Qed.

Lemma in_skipn_In {A : Type} (x : A) p (r : list A) : In x (skipn p r) -> In x r.
Proof.
  intros Hin. rewrite <- (firstn_skipn p r). apply in_or_app. now right.
Qed.

(** One user, within a round. *)
Lemma greedy_user_inv data cap st owners i :
  greedy_inv data cap st owners -> i < length data ->
  exists owners',
    greedy_inv data (fun j => if j =? i then S (cap i) else cap j)
               (greedy_user st (i, nth i data [])) owners'.
Proof.
  intros (Hlen & Hpos & Hseen & Hown & Hnd & Hmem & Hcnt) Hi.
  destruct st as [positions result]. simpl in *.
  set (r := nth i data []). set (p := nth i positions 0).
  destruct (Hpos i Hi) as [Hp Hprog]. fold r p in Hp, Hprog.
  destruct (advance_spec (skipn p r) (firstn p r) result) as (k & Hfst & Hk & Hin & Hres).
  { intros v Hv. apply (Hseen i v Hi). exact Hv. }
  rewrite length_firstn, Nat.min_l in Hfst, Hin, Hres by assumption.
  rewrite length_skipn in Hk.
  destruct (advance (skipn p r) p result) as [pos' result'] eqn:Hadv.
  simpl in Hfst, Hin, Hres. subst pos'.
  assert (Hincl : forall v, In v result -> In v result').
  { destruct Hres as [[-> _] | (v0 & _ & _ & _ & ->)]; intros v Hv;
      [assumption | apply in_or_app; now left]. }
  assert (Hshape :
    forall owners',
      map fst owners' = result' -> NoDup result' ->
      (forall v j, In (v, j) owners' -> In (j, v) (entries data)) ->
      (forall j, count_occ Nat.eq_dec (map snd owners') j
                 <= if j =? i then S (cap i) else cap j) ->
      Nat.min (S (cap i)) (length r) <= p + k ->
      greedy_inv data (fun j => if j =? i then S (cap i) else cap j)
                 (list_set positions i (p + k), result') owners').
  { intros owners' H1 H2 H3 H4 H5. unfold greedy_inv. simpl.
    split; [now rewrite length_list_set|]. split; [|split; [|auto]].
    - intros j Hj. rewrite nth_list_set by lia.
      destruct (Nat.eqb_spec j i) as [-> | Hne].
      + fold r. split; [lia | assumption].
      + apply Hpos; assumption.
    - intros j v Hj. rewrite nth_list_set by lia.
      destruct (Nat.eqb_spec j i) as [-> | Hne].
      + fold r. rewrite firstn_add_split. exact (Hin v).
      + intros Hv. apply Hincl. now apply (Hseen j). }
  destruct Hres as [[-> Hkeq] | (v & Hv & Hnot & Hkpos & ->)].
  - rewrite length_skipn in Hkeq.
    exists owners. apply Hshape; auto.
    + intros j. specialize (Hcnt j). destruct (Nat.eqb_spec j i); subst; lia.
    + lia.
  - exists (owners ++ [(v, i)]). apply Hshape.
    + rewrite map_app, Hown. reflexivity.
    + apply NoDup_app; [assumption | repeat constructor; auto |].
      intros x Hx [<- | []]. contradiction.
    + intros v' j Hvj. apply in_app_or in Hvj.
      destruct Hvj as [Hvj | [[= <- <-] | []]]; [now apply Hmem|].
      apply in_entries. split; [assumption|]. fold r. now apply in_skipn_In in Hv.
    + intros j. rewrite map_app, count_occ_app. simpl.
      specialize (Hcnt j). destruct (Nat.eq_dec i j) as [<- | Hne].
      * rewrite Nat.eqb_refl. lia.
      * rewrite (proj2 (Nat.eqb_neq j i)) by auto. lia.
    + lia.
Qed.

Lemma greedy_inv_weaken data cap cap' st owners :
  (forall j, j < length data -> cap j = cap' j) ->
  (forall j, cap j <= cap' j) ->
  greedy_inv data cap st owners -> greedy_inv data cap' st owners.
Proof.
  intros Heq Hle (Hlen & Hpos & Hseen & Hown & Hnd & Hmem & Hcnt).
  unfold greedy_inv. split; [assumption|]. split; [|split; [assumption|]].
  - intros i Hi. rewrite <- (Heq i Hi). now apply Hpos.
  - split; [assumption|]. split; [assumption|]. split; [assumption|].
    intros i. specialize (Hcnt i). specialize (Hle i). lia.
Qed.

Lemma length_enumerate {A : Type} (xs : list A) : length (enumerate xs) = length xs.
Proof. unfold enumerate. rewrite length_combine, length_seq. lia. Qed.

Lemma enumerate_split (data : list (list nat)) pre i r rest :
  enumerate data = pre ++ (i, r) :: rest ->
  i = length pre /\ r = nth i data [] /\ i < length data.
Proof.
  intros Heq.
  assert (Hlen : length pre < length data).
  { rewrite <- (length_enumerate data), Heq, length_app. simpl. lia. }
  assert (Hnth : nth (length pre) (enumerate data) (0, []) = (i, r)).
  { rewrite Heq. apply nth_middle. }
  unfold enumerate in Hnth.
  rewrite combine_nth in Hnth by apply length_seq.
  rewrite seq_nth in Hnth by assumption.
  injection Hnth as <- <-. simpl. auto.
Qed.

(** The users that remain in a round. *)
Lemma greedy_fold_inv data k : forall irs pre st owners,
  enumerate data = pre ++ irs ->
  greedy_inv data (fun j => if j <? length pre then S k else k) st owners ->
  exists owners',
    greedy_inv data (fun _ => S k) (fold_left greedy_user irs st) owners'.
Proof.
  induction irs as [|[i r] irs IH]; intros pre st owners Henum Hinv.
  - exists owners. simpl. rewrite app_nil_r in Henum.
    assert (Hlen : length pre = length data)
      by (now rewrite <- Henum, length_enumerate).
    eapply greedy_inv_weaken; [| |exact Hinv].
    + intros j Hj. simpl. rewrite (proj2 (Nat.ltb_lt j (length pre))) by lia.
      reflexivity.
    + intros j. simpl. destruct (j <? length pre); lia.
  - destruct (enumerate_split data pre i r irs Henum) as (Hi & Hr & Hlt).
    subst r. destruct (greedy_user_inv data _ st owners i Hinv Hlt) as (owners1 & Hinv1).
    simpl fold_left.
    apply (IH (pre ++ [(i, nth i data [])]) _ owners1).
    + rewrite <- app_assoc. exact Henum.
    + eapply greedy_inv_weaken; [| |exact Hinv1].
      * intros j _. simpl. rewrite length_app. simpl. subst i.
        rewrite Nat.ltb_irrefl.
        destruct (Nat.eqb_spec j (length pre)), (Nat.ltb_spec j (length pre)),
          (Nat.ltb_spec j (length pre + 1)); lia.
      * intros j. simpl. rewrite length_app. simpl. subst i.
        rewrite Nat.ltb_irrefl.
        destruct (Nat.eqb_spec j (length pre)), (Nat.ltb_spec j (length pre)),
          (Nat.ltb_spec j (length pre + 1)); lia.
Qed.

Lemma greedy_round_inv data k st owners :
  greedy_inv data (fun _ => k) st owners ->
  exists owners', greedy_inv data (fun _ => S k) (greedy_round data st) owners'.
Proof.
  intros Hinv. unfold greedy_round.
  apply (greedy_fold_inv data k (enumerate data) [] st owners); [reflexivity|].
  exact Hinv.
Qed.

Lemma greedy_iter_inv data k :
  exists owners,
    greedy_inv data (fun _ => k)
      (Nat.iter k (greedy_round data) (repeat 0 (length data), empty_set nat))
      owners.
Proof.
  induction k as [|k [owners IH]].
  - exists []. unfold greedy_inv. simpl.
    split; [apply repeat_length|]. split; [|split].
    + intros i _. rewrite nth_repeat. lia.
    + intros i v _. rewrite nth_repeat. simpl. intros [].
    + split; [reflexivity|]. split; [constructor|].
      split; [intros v i []|]. intros i. lia.
  - simpl Nat.iter. now apply greedy_round_inv with (owners := owners).
Qed.

(** The values the greedy estimator collects form a bounded assignment. *)
Lemma greedy_assignment data d b :
  DataSet_init data = OK d ->
  exists owners,
    assignment data (Z.to_nat b) owners
    /\ length owners = greedy_distinct_count d b.
Proof.
  intros Hd. assert (Hdata : _data d = data).
  { destruct data; [discriminate|]. now injection Hd as <-. }
  unfold greedy_distinct_count. rewrite Hdata.
  destruct (greedy_iter_inv data (Z.to_nat b))
    as (owners & _ & _ & _ & Hown & Hnd & Hmem & Hcnt).
  exists owners. split.
  - split; [now rewrite Hown|]. split; assumption.
  - now rewrite <- Hown, length_map.
Qed.

Lemma record_length_degree (data : list (list nat)) i :
  length (nth i data []) <= list_max (map (@length nat) data).
Proof.
  destruct (Nat.lt_ge_cases i (length data)) as [Hi | Hi].
  - apply in_list_max, in_map, nth_In, Hi.
  - rewrite nth_overflow by assumption. simpl. lia.
Qed.

Lemma in_concat_entries data v :
  In v (concat data) <-> exists i, In (i, v) (entries data).
Proof.
  rewrite <- entries_snd, in_map_iff. split.
  - intros ([i v'] & Heq & Hin). simpl in Heq. subst v'. now exists i.
  - intros (i & Hin). exists (i, v). auto.
Qed.


(** ** Sampling *)

Lemma move_last_perm {A : Type} (d : A) j (pool : list A) :
  j < length pool ->
  Permutation (nth j pool d :: random.move_last j pool) pool.
Proof.
  intros Hj. unfold random.move_last.
  destruct (rev pool) as [|last front] eqn:Hrev.
  - apply (f_equal (@length A)) in Hrev. rewrite length_rev in Hrev.
    simpl in Hrev. lia.
  - assert (Hpool : pool = rev front ++ [last]).
    { rewrite <- (rev_involutive pool), Hrev. reflexivity. }
    set (init := rev front) in *.
    assert (Hlen : length front = length init) by (unfold init; now rewrite length_rev).
    rewrite Hpool in Hj |- *. rewrite length_app in Hj. simpl in Hj.
    destruct (Nat.eqb_spec j (length front)) as [-> | Hne].
    + rewrite Hlen, nth_middle. apply Permutation_cons_append.
    + rewrite app_nth1 by lia.
      assert (Hmid : firstn j init ++ nth j init d :: skipn (S j) init = init)
        by (apply firstn_skipn_middle, nth_error_nth'; lia).
      transitivity ((firstn j init ++ nth j init d :: skipn (S j) init) ++ [last]);
        [|now rewrite Hmid].
      rewrite <- app_assoc. simpl.
      etransitivity; [apply Permutation_middle|].
      apply Permutation_app_head, perm_skip, Permutation_cons_append.
Qed.

Lemma select_perm {A : Type} (d : A) k : forall (pool : list A) s,
  k <= length pool ->
  exists remaining,
    Permutation (fst (random.select d k pool s) ++ remaining) pool
    /\ length (fst (random.select d k pool s)) = k.
Proof.
  induction k as [|k IH]; intros pool s Hk; simpl.
  - exists pool. split; [apply Permutation_refl | reflexivity].
  - set (j := hd 0 s mod length pool).
    assert (Hj : j < length pool) by (apply Nat.mod_upper_bound; lia).
    pose proof (move_last_perm d j pool Hj) as Hperm.
    assert (Hlen : length (random.move_last j pool) = length pool - 1).
    { apply Permutation_length in Hperm. simpl in Hperm. lia. }
    destruct (IH (random.move_last j pool) (tl s)) as (remaining & Hrest & Hpicked); [lia|].
    destruct (random.select d k (random.move_last j pool) (tl s)) as [picked s2].
    simpl in *. exists remaining. split; [|lia].
    etransitivity; [|exact Hperm]. now apply perm_skip.
Qed.

(** Every selection of [k] members of the pool, in any order, is the
    outcome of some stream of draws. *)
Lemma select_complete {A : Type} (d : A) (picks : list A) :
  forall pool remaining,
    Permutation (picks ++ remaining) pool ->
    exists s, fst (random.select d (length picks) pool s) = picks.
Proof.
  induction picks as [|x picks IH]; intros pool remaining Hperm; simpl.
  - exists []. reflexivity.
  - assert (Hx : In x pool) by (apply (Permutation_in x Hperm); now left).
    destruct (In_nth pool x d Hx) as (j & Hj & Hnth).
    pose proof (move_last_perm d j pool Hj) as Hmove. rewrite Hnth in Hmove.
    destruct (IH (random.move_last j pool) remaining) as (s & Hs).
    { apply Permutation_cons_inv with (a := x).
      etransitivity; [exact Hperm | now apply Permutation_sym]. }
    exists (j :: s). simpl. rewrite Nat.mod_small by assumption.
    destruct (random.select d (length picks) (random.move_last j pool) s) as [picked s2].
    simpl in *. now rewrite Hnth, Hs.
Qed.

Lemma sample_spec values num s :
  (0 <= num)%Z ->
  exists xs,
    fst (_sample values num s) = OK xs
    /\ incl xs values
    /\ (Z.of_nat (length xs) <= num)%Z
    /\ ((Z.of_nat (length values) <= num)%Z -> Permutation xs values).
Proof.
  intros Hnum. unfold _sample.
  destruct (Z.ltb_spec (Z.of_nat (length values)) num) as [Hlt | Hge].
  - exists values. simpl. split; [reflexivity|]. split; [apply incl_refl|].
    split; [lia | intros _; apply Permutation_refl].
  - unfold random.sample.
    rewrite (proj2 (Z.ltb_ge num 0)) by lia.
    rewrite (proj2 (Z.ltb_ge (Z.of_nat (length values)) num)) by lia. simpl.
    destruct (select_perm 0 (Z.to_nat num) values s) as (remaining & Hperm & Hlen); [lia|].
    destruct (random.select 0 (Z.to_nat num) values s) as [picked s'].
    simpl in *. exists picked. split; [reflexivity|]. split; [|split].
    + intros x Hx. apply (Permutation_in x Hperm). apply in_or_app. now left.
    + lia.
    + intros Hall. apply Permutation_length in Hperm as Hl.
      rewrite length_app in Hl.
      assert (remaining = []) as -> by (apply length_zero_iff_nil; lia).
      now rewrite app_nil_r in Hperm.
Qed.

Lemma set_add_present (x : nat) (s : set nat) :
  In x s -> set_add Nat.eq_dec x s = s.
Proof.
  induction s as [|y s IH]; simpl; [intros []|].
  destruct (Nat.eq_dec x y) as [-> | Hne]; [reflexivity|].
  intros [-> | Hin]; [congruence|]. now rewrite IH.
Qed.

(** [result.update(xs)]: the new values go to the end. *)
Lemma update_spec xs : forall result,
  NoDup result ->
  exists fresh,
    fold_left (fun acc x => set_add Nat.eq_dec x acc) xs result = result ++ fresh
    /\ NoDup (result ++ fresh)
    /\ incl fresh xs
    /\ length fresh <= length xs
    /\ (forall v, In v xs -> In v (result ++ fresh)).
Proof.
  induction xs as [|x xs IH]; intros result Hnd; simpl.
  - exists []. rewrite app_nil_r. split; [reflexivity|]. split; [assumption|].
    split; [apply incl_refl|]. split; [simpl; lia | intros v []].
  - destruct (in_dec Nat.eq_dec x result) as [Hin | Hnot].
    + rewrite set_add_present by assumption.
      destruct (IH result Hnd) as (fresh & Heq & Hnd' & Hincl & Hlen & Hall).
      exists fresh. split; [assumption|]. split; [assumption|].
      split; [now apply incl_tl|]. split; [lia|].
      intros v [<- | Hv]; [apply in_or_app; now left | now apply Hall].
    + rewrite set_add_fresh by assumption.
      destruct (IH (result ++ [x])) as (fresh & Heq & Hnd' & Hincl & Hlen & Hall).
      { apply NoDup_app; [assumption | repeat constructor; auto |].
        intros y Hy [<- | []]. contradiction. }
      rewrite <- app_assoc in Heq, Hnd', Hall. simpl in Heq, Hnd', Hall.
      exists (x :: fresh). split; [assumption|]. split; [assumption|].
      split; [|split; [simpl; lia|]].
      * intros y [<- | Hy]; [now left | right; now apply Hincl].
      * intros v [<- | Hv]; [apply in_or_app; right; now left | now apply Hall].
Qed.

Lemma sampling_loop_inv data b :
  (0 <= b)%Z ->
  forall records pre result owners s,
    data = pre ++ records ->
    map fst owners = result -> NoDup result ->
    (forall v i, In (v, i) owners -> In (i, v) (entries data) /\ i < length pre) ->
    (forall i, count_occ Nat.eq_dec (map snd owners) i <= Z.to_nat b) ->
    exists result' owners',
      sampling_loop records b result s = OK result'
      /\ map fst owners' = result' /\ NoDup result'
      /\ (forall v i, In (v, i) owners' -> In (i, v) (entries data))
      /\ (forall i, count_occ Nat.eq_dec (map snd owners') i <= Z.to_nat b)
      /\ (forall v, In v result -> In v result')
      /\ ((Z.of_nat (list_max (map (@length nat) data)) <= b)%Z ->
          forall v, In v (concat records) -> In v result').
Proof.
  intros Hb.
  induction records as [|record rest IH];
    intros pre result owners s Hdata Hown Hnd Hmem Hcnt; simpl.
  - exists result, owners. split; [reflexivity|]. split; [assumption|].
    split; [assumption|]. split; [intros v i Hvi; now apply Hmem|].
    split; [assumption|]. split; [auto | intros _ v []].
  - destruct (sample_spec record b s Hb) as (xs & Hxs & Hincl & Hlen & Hall).
    destruct (_sample record b s) as [drawn s']. simpl in Hxs. subst drawn.
    destruct (update_spec xs result Hnd) as (fresh & Heq & Hnd' & Hfresh & Hflen & Hin).
    rewrite Heq.
    set (i := length pre).
    assert (Hi : i < length data /\ nth i data [] = record).
    { rewrite Hdata, length_app. simpl. split; [lia|]. apply nth_middle. }
    destruct Hi as [Hi Hrec].
    destruct (IH (pre ++ [record]) (result ++ fresh)
                 (owners ++ map (fun v => (v, i)) fresh) s')
      as (result' & owners' & Hloop & Hown' & Hnd'' & Hmem' & Hcnt' & Hkeep & Hcomplete).
    + rewrite <- app_assoc. exact Hdata.
    + rewrite map_app, map_map, Hown. simpl. now rewrite map_id.
    + exact Hnd'.
    + intros v j Hvj. rewrite length_app. simpl. apply in_app_or in Hvj.
      destruct Hvj as [Hvj | Hvj].
      * destruct (Hmem v j Hvj). split; [assumption | lia].
      * apply in_map_iff in Hvj. destruct Hvj as (v' & [= <- <-] & Hv').
        split; [|fold i; lia].
        apply in_entries. split; [assumption|]. rewrite Hrec. auto.
    + intros j. rewrite map_app, count_occ_app, map_map. simpl.
      destruct (Nat.eq_dec j i) as [-> | Hne].
      * rewrite (proj1 (count_occ_not_In Nat.eq_dec (map snd owners) i)).
        -- rewrite map_const, count_occ_repeat_eq by reflexivity. lia.
        -- intros Hx. apply in_map_iff in Hx. destruct Hx as ([v j] & Heq' & Hx).
           simpl in Heq'. subst j. apply Hmem in Hx. fold i in Hx. lia.
      * rewrite map_const, count_occ_repeat_neq by auto. specialize (Hcnt j). lia.
    + exists result', owners'. split; [assumption|]. split; [assumption|].
      split; [assumption|]. split; [assumption|]. split; [assumption|]. split.
      * intros v Hv. apply Hkeep. apply in_or_app. now left.
      * intros Hdeg v Hv. apply in_app_or in Hv. destruct Hv as [Hv | Hv].
        -- apply Hkeep, Hin.
           apply (Permutation_in v (Permutation_sym (Hall ltac:(
             pose proof (record_length_degree data i); rewrite Hrec in *; lia)))).
           exact Hv.
        -- now apply Hcomplete.
Qed.

(** ** The estimators compared *)

Lemma DataSet_init_fields data d :
  DataSet_init data = OK d ->
  _data d = data
  /\ degree d = list_max (map (@length nat) data)
  /\ number_of_values d = length (nodup Nat.eq_dec (concat data))
  /\ data <> [].
Proof.
  destruct data as [|r data]; [discriminate|].
  intros [= <-]. repeat split. discriminate.
Qed.

Lemma assignment_le_values data k owners :
  assignment data k owners -> length owners <= length (nodup Nat.eq_dec (concat data)).
Proof.
  intros (Hnd & Hmem & _). rewrite <- (length_map fst owners).
  apply NoDup_incl_length; [assumption|].
  intros v Hv. apply nodup_In, in_concat_entries.
  apply in_map_iff in Hv. destruct Hv as ([v' i] & Heq & Hin).
  simpl in Heq. subst v'. exists i. now apply Hmem.
Qed.


Lemma test_data_well_formed : well_formed test_data.
Proof.
  split; [|split].
  - repeat constructor; simpl; intuition discriminate.
  - simpl. intros v Hv. repeat (destruct Hv as [<- | Hv]; [lia|]). destruct Hv.
  - discriminate.
Qed.

(** The unit tests of the repository. *)
Example test_true_distinct_count : true_distinct_count test_dataset = 3.
Proof. reflexivity. Qed.

Example test_greedy_distinct_count_1 : greedy_distinct_count test_dataset 1 = 2.
Proof. reflexivity. Qed.

Example test_greedy_distinct_count_2 : greedy_distinct_count test_dataset 2 = 3.
Proof. reflexivity. Qed.

Example test_greedy_distinct_count_3 :
  exists d, DataSet_init [[1; 0; 2]; [1; 3]] = OK d /\ greedy_distinct_count d 2 = 3.
Proof. eexists. split; reflexivity. Qed.

Example test_matching_distinct_count :
  exists d, DataSet_init [[0; 1; 2]; [2; 1; 3]] = OK d
            /\ matching_distinct_count d 2 = OK 4.
Proof. eexists. split; reflexivity. Qed.

Example test_flow_distinct_count :
  exists d, DataSet_init [[0; 1; 2]; [2; 1; 3]] = OK d
            /\ flow_distinct_count d 2 = OK 4%Z.
Proof. eexists. split; [reflexivity | vm_compute; reflexivity]. Qed.



(** C4. On every well-formed data set and for every positive bound the
    greedy estimate is at most the matching estimate. *)
Theorem greedy_le_matching data d b :
  DataSet_init data = OK d -> well_formed data -> (0 < b)%Z ->
  exists k,
    matching_distinct_count d b = OK k
    /\ greedy_distinct_count d b <= k.
Proof.
  intros Hd Hwf Hb.
  assert (Hne : concat data <> []) by apply Hwf.
  rewrite (matching_distinct_count_ok data d b Hd Hne Hb).
  eexists. split; [reflexivity|].
  destruct (greedy_assignment data d b Hd) as (owners & Hasg & <-).
  now apply assignment_le_matching.
Qed.

Lemma greedy_le_matching_witness :
  exists k,
    matching_distinct_count test_dataset 1 = OK k
    /\ greedy_distinct_count test_dataset 1 <= k.
Proof.
  apply (greedy_le_matching test_data test_dataset 1);
    [reflexivity | exact test_data_well_formed | lia].
Defined.

Lemma sampling_assignment data d b s :
  DataSet_init data = OK d -> (0 <= b)%Z ->
  exists owners,
    assignment data (Z.to_nat b) owners
    /\ sampling_distinct_count d b s = OK (length owners)
    /\ ((Z.of_nat (degree d) <= b)%Z ->
        length owners = length (nodup Nat.eq_dec (concat data))).
Proof.
  intros Hd Hb.
  destruct (DataSet_init_fields data d Hd) as (Hdata & Hdeg & _ & _).
  destruct (sampling_loop_inv data b Hb data [] (empty_set nat) [] s)
    as (result & owners & Hloop & Hown & Hnd & Hmem & Hcnt & _ & Hcomplete);
    try reflexivity.
  - constructor.
  - intros v i [].
  - intros i. simpl. lia.
  - exists owners. unfold sampling_distinct_count. rewrite Hdata, Hloop. simpl.
    split; [|split].
    + split; [now rewrite Hown|]. split; assumption.
    + now rewrite <- Hown, length_map.
    + intros Hall. rewrite <- (length_map fst owners), Hown.
      apply Permutation_length, NoDup_Permutation;
        [assumption | apply NoDup_nodup |].
      intros v. rewrite nodup_In. split.
      * intros Hv. rewrite <- Hown in Hv. apply in_map_iff in Hv.
        destruct Hv as ([v' i] & Heq & Hin). simpl in Heq. subst v'.
        apply in_concat_entries. exists i. now apply Hmem.
      * apply Hcomplete. now rewrite <- Hdeg.
Qed.

(** C5. On every well-formed data set, for every positive bound and every
    outcome of the draws, the sampling estimate is at most the matching
    estimate. *)
Theorem sampling_le_matching data d b s :
  DataSet_init data = OK d -> well_formed data -> (0 < b)%Z ->
  exists k r,
    matching_distinct_count d b = OK k
    /\ sampling_distinct_count d b s = OK r
    /\ r <= k.
Proof.
  intros Hd Hwf Hb.
  assert (Hne : concat data <> []) by apply Hwf.
  rewrite (matching_distinct_count_ok data d b Hd Hne Hb).
  destruct (sampling_assignment data d b s Hd ltac:(lia)) as (owners & Hasg & Hs & _).
  eexists. exists (length owners). split; [reflexivity|]. split; [assumption|].
  now apply assignment_le_matching.
Qed.

Lemma sampling_le_matching_witness :
  exists k r,
    matching_distinct_count test_dataset 1 = OK k
    /\ sampling_distinct_count test_dataset 1 [1; 0] = OK r
    /\ r <= k.
Proof.
  apply (sampling_le_matching test_data test_dataset 1 [1; 0]);
    [reflexivity | exact test_data_well_formed | lia].
Defined.



(** ** Bounds that are not positive *)

Lemma greedy_nonpositive d b : (b <= 0)%Z -> greedy_distinct_count d b = 0.
Proof.
  intros Hb. unfold greedy_distinct_count.
  replace (Z.to_nat b) with 0 by lia. reflexivity.
Qed.

Lemma matching_nonpositive d b : (b <= 0)%Z -> raises (matching_distinct_count d b).
Proof.
  intros Hb. unfold matching_distinct_count, raises.
  destruct (as_matrix d) as [m | e]; simpl; [|now exists e].
  replace (Z.to_nat b) with 0 by lia. simpl. eexists. reflexivity.
Qed.

Lemma sampling_loop_zero records : forall result s,
  sampling_loop records 0 result s = OK result.
Proof.
  induction records as [|record rest IH]; intros result s; simpl; [reflexivity|].
  unfold _sample, random.sample.
  rewrite (proj2 (Z.ltb_ge (Z.of_nat (length record)) 0)) by lia.
  simpl. apply IH.
Qed.

Lemma sampling_negative d b s :
  _data d <> [] -> (b < 0)%Z -> raises (sampling_distinct_count d b s).
Proof.
  intros Hne Hb. unfold sampling_distinct_count, raises.
  destruct (_data d) as [|record rest]; [congruence|]. simpl.
  unfold _sample, random.sample.
  rewrite (proj2 (Z.ltb_ge (Z.of_nat (length record)) b)) by lia.
  rewrite (proj2 (Z.ltb_lt b 0)) by lia. simpl. eexists. reflexivity.
Qed.

Lemma flow_zero data d :
  DataSet_init data = OK d -> well_formed data -> flow_distinct_count d 0 = OK 0%Z.
Proof.
  intros Hd Hwf.
  destruct (flow_distinct_count_spec data d 0 Hd Hwf ltac:(lia))
    as (k & Hk & _ & (owners & (_ & _ & Hcnt) & Hlen)).
  rewrite Hk. f_equal. rewrite <- Hlen.
  destruct owners as [|[v i] owners]; [reflexivity|].
  specialize (Hcnt i). simpl in Hcnt.
  destruct (Nat.eq_dec i i); [lia | congruence].
Qed.

(** C2, as the code has it.  No estimator checks the bound.  For a bound
    that is not positive the greedy estimator returns [0]; the matching
    estimator fails; the sampling estimator returns [0] at bound [0] and
    fails below; the flow estimator returns [0] at bound [0]. *)
Theorem nonpositive_bound data d b s :
  DataSet_init data = OK d -> (b <= 0)%Z ->
  greedy_distinct_count d b = 0
  /\ raises (matching_distinct_count d b)
  /\ (b = 0%Z -> sampling_distinct_count d b s = OK 0)
  /\ ((b < 0)%Z -> raises (sampling_distinct_count d b s))
  /\ (well_formed data -> b = 0%Z -> flow_distinct_count d b = OK 0%Z).
Proof.
  intros Hd Hb.
  destruct (DataSet_init_fields data d Hd) as (Hdata & _ & _ & Hne).
  split; [now apply greedy_nonpositive|].
  split; [now apply matching_nonpositive|].
  split; [|split].
  - intros ->. unfold sampling_distinct_count.
    now rewrite sampling_loop_zero.
  - intros Hneg. apply sampling_negative; [now rewrite Hdata | assumption].
  - intros Hwf ->. now apply (flow_zero data).
Qed.

Lemma nonpositive_bound_witness :
  greedy_distinct_count test_dataset (-1) = 0
  /\ raises (matching_distinct_count test_dataset (-1))
  /\ ((-1)%Z = 0%Z -> sampling_distinct_count test_dataset (-1) [] = OK 0)
  /\ ((-1 < 0)%Z -> raises (sampling_distinct_count test_dataset (-1) []))
  /\ (well_formed test_data -> (-1)%Z = 0%Z
      -> flow_distinct_count test_dataset (-1) = OK 0%Z).
Proof.
  apply (nonpositive_bound test_data test_dataset (-1) []); [reflexivity | lia].
Defined.

(** C2 does not hold as stated: at bound [0] three of the four estimators
    return a number on the data set of the unit tests. *)
Lemma nonpositive_bound_counterexample :
  DataSet_init test_data = OK test_dataset
  /\ greedy_distinct_count test_dataset 0 = 0
  /\ greedy_distinct_count test_dataset (-2) = 0
  /\ sampling_distinct_count test_dataset 0 [] = OK 0
  /\ ~ raises (sampling_distinct_count test_dataset 0 [])
  /\ flow_distinct_count test_dataset 0 = OK 0%Z
  /\ ~ raises (flow_distinct_count test_dataset 0).
Proof.
  assert (Hflow : flow_distinct_count test_dataset 0 = OK 0%Z)
    by (vm_compute; reflexivity).
  split; [reflexivity|]. split; [reflexivity|]. split; [reflexivity|].
  split; [reflexivity|]. split; [intros [e He]; discriminate|].
  split; [exact Hflow|]. rewrite Hflow. intros [e He]. discriminate.
Qed.

(** ** The generalized exponential selector *)

Section Selector.

Import pymath diffprivlib selection dp.
Local Open Scope R_scope.

Lemma bind_OK {A B : Type} (r : outcome A) (k : A -> outcome B) (b : B) :
  bind r k = OK b -> exists a, r = OK a /\ k a = OK b.
Proof.
  destruct r as [a | e]; simpl; [|discriminate]. intros H. now exists a.
Qed.

Lemma div_OK x y : y <> 0 -> div x y = OK (x / y).
Proof.
  intros Hy. unfold div. destruct (Req_dec_T y 0); [contradiction | reflexivity].
Qed.

Lemma log_OK x : 0 < x -> log x = OK (ln x).
Proof.
  intros Hx. unfold log. destruct (Rle_dec x 0); [lra | reflexivity].
Qed.

Lemma for_each_Forall2 {A B : Type} (P : A -> B -> Prop)
    (body : A -> outcome B) (xs : list A) :
  (forall x, In x xs -> exists y, body x = OK y /\ P x y) ->
  exists ys, for_each body xs = OK ys /\ Forall2 P xs ys.
Proof.
  induction xs as [|x xs IH]; intros Hbody; simpl.
  - exists []. split; [reflexivity | constructor].
  - destruct (Hbody x (or_introl eq_refl)) as (y & Hy & HP).
    destruct IH as (ys & Hys & Hall); [intros x' Hx'; apply Hbody; now right|].
    exists (y :: ys). rewrite Hy, Hys. simpl. split; [reflexivity | now constructor].
Qed.

Lemma Forall2_seq_nth {B : Type} (P : nat -> B -> Prop) (d : B) k :
  forall start ys,
    Forall2 P (seq start k) ys ->
    length ys = k /\ forall i, (i < k)%nat -> P (start + i)%nat (nth i ys d).
Proof.
  induction k as [|k IH]; intros start ys Hall; simpl in Hall.
  - inversion Hall. split; [reflexivity | intros i Hi; lia].
  - inversion Hall as [|x y xs ys' Hxy Hrest]; subst.
    destruct (IH _ _ Hrest) as [Hlen Hnth].
    split; [simpl; lia|]. intros [|i] Hi; simpl.
    + now rewrite Nat.add_0_r.
    + replace (start + S i)%nat with (S start + i)%nat by lia. apply Hnth. lia.
Qed.

Lemma fold_Rmax_spec rest : forall x,
  (fold_left Rmax rest x = x \/ In (fold_left Rmax rest x) rest)
  /\ x <= fold_left Rmax rest x
  /\ forall y, In y rest -> y <= fold_left Rmax rest x.
Proof.
  induction rest as [|a rest IH]; intros x; simpl.
  - split; [now left|]. split; [lra | intros y []].
  - destruct (IH (Rmax x a)) as (Hin & Hge & Hall).
    pose proof (Rmax_l x a). pose proof (Rmax_r x a).
    split; [|split].
    + destruct Hin as [Heq | Hin]; [|right; now right].
      rewrite Heq. unfold Rmax. destruct (Rle_dec x a); [right; now left | now left].
    + lra.
    + intros y [<- | Hy]; [lra | now apply Hall].
Qed.

Lemma fold_Rmin_spec rest : forall x,
  (fold_left Rmin rest x = x \/ In (fold_left Rmin rest x) rest)
  /\ fold_left Rmin rest x <= x
  /\ forall y, In y rest -> fold_left Rmin rest x <= y.
Proof.
  induction rest as [|a rest IH]; intros x; simpl.
  - split; [now left|]. split; [lra | intros y []].
  - destruct (IH (Rmin x a)) as (Hin & Hge & Hall).
    pose proof (Rmin_l x a). pose proof (Rmin_r x a).
    split; [|split].
    + destruct Hin as [Heq | Hin]; [|right; now right].
      rewrite Heq. unfold Rmin. destruct (Rle_dec x a); [now left | right; now left].
    + lra.
    + intros y [<- | Hy]; [lra | now apply Hall].
Qed.

Lemma min_least xs : xs <> [] -> exists lowest, min xs = OK lowest /\ least xs lowest.
Proof.
  destruct xs as [|x rest]; [congruence|]. intros _.
  exists (fold_left Rmin rest x). split; [reflexivity|].
  destruct (fold_Rmin_spec rest x) as (Hin & Hle & Hall). split.
  - destruct Hin as [-> | Hin]; [now left | now right].
  - intros y [<- | Hy]; [assumption | now apply Hall].
Qed.

Lemma max_greatest (f : nat -> R) k :
  (0 < k)%nat ->
  exists M, max (map f (seq 0 k)) = OK M /\ greatest_over k f M.
Proof.
  intros Hk. destruct k as [|k]; [lia|]. simpl seq. simpl map.
  exists (fold_left Rmax (map f (seq 1 k)) (f 0%nat)). split; [reflexivity|].
  destruct (fold_Rmax_spec (map f (seq 1 k)) (f 0%nat)) as (Hin & Hge & Hall).
  split.
  - destruct Hin as [-> | Hin].
    + exists 0%nat. split; [lia | reflexivity].
    + apply in_map_iff in Hin. destruct Hin as (j & Hj & Hin).
      apply in_seq in Hin. exists j. split; [lia | assumption].
  - intros [|j] Hj; [assumption|].
    apply Hall, in_map, in_seq. lia.
Qed.

Lemma shifted_least xs lowest :
  least xs lowest -> least (map (fun x => x - lowest) xs) 0.
Proof.
  intros [Hin Hall]. split.
  - apply in_map_iff. exists lowest. split; [lra | assumption].
  - intros y Hy. apply in_map_iff in Hy. destruct Hy as (x & <- & Hx).
    specialize (Hall x Hx). lra.
Qed.

Lemma reweigh_spec t u s i :
  (0 < length u)%nat ->
  (forall j, (j < length u)%nat -> nth i s 0 + nth j s 0 <> 0) ->
  exists M,
    reweigh t u s i = OK (- M)
    /\ greatest_over (length u) (spec_ratio t u s i) M.
Proof.
  intros Hk Hs. unfold reweigh.
  assert (Hratios :
    for_each
      (fun j => div ((- nth i u 0 + nth i s 0 * t) - (- nth j u 0 + nth j s 0 * t))
                    (nth i s 0 + nth j s 0))
      (seq 0 (length u))
    = OK (map (spec_ratio t u s i) (seq 0 (length u)))).
  { assert (Hgen : forall js, (forall j, In j js -> (j < length u)%nat) ->
      for_each
        (fun j => div ((- nth i u 0 + nth i s 0 * t) - (- nth j u 0 + nth j s 0 * t))
                      (nth i s 0 + nth j s 0)) js
      = OK (map (spec_ratio t u s i) js)).
    { induction js as [|j js IH]; intros Hjs; simpl; [reflexivity|].
      rewrite div_OK by (apply Hs, Hjs; now left). simpl.
      rewrite IH by (intros j' Hj'; apply Hjs; now right). reflexivity. }
    apply Hgen. intros j Hj. apply in_seq in Hj. lia. }
  rewrite Hratios. simpl.
  destruct (max_greatest (spec_ratio t u s i) (length u) Hk) as (M & HM & Hgreat).
  exists M. rewrite HM. simpl. split; [reflexivity | assumption].
Qed.

Lemma Exponential_init_OK eps w :
  0 < eps -> w <> [] ->
  Exponential_init eps 1 w None
  = OK {| epsilon := eps; sensitivity := 1; utility := w; candidates := None |}.
Proof.
  intros Heps Hw. unfold Exponential_init.
  destruct (Rlt_dec eps 0); [lra|].
  destruct (Req_dec_T eps 0); [lra|].
  destruct (Rlt_dec 1 0); [lra|].
  destruct w; [congruence | reflexivity].
Qed.

Lemma positive_no_zero s : Forall (fun x => 0 < x) s -> ~ In 0 s.
Proof.
  intros Hall Hin. rewrite Forall_forall in Hall. specialize (Hall 0 Hin). lra.
Qed.

Lemma selector_init_spec eps beta u s :
  0 < eps -> 0 < beta < 1 -> u <> [] -> length s = length u ->
  Forall (fun x => 0 < x) s ->
  exists w,
    GeneralizedExponential_init eps beta (Sequence s) u
    = OK {| mechanism := {| epsilon := eps; sensitivity := 1;
                            utility := w; candidates := None |} |}
    /\ spec_reweighted eps beta u s w.
Proof.
  intros Heps Hbeta Hu Hlen Hpos.
  assert (Hk : (0 < length u)%nat) by (destruct u; [congruence | simpl; lia]).
  unfold GeneralizedExponential_init.
  rewrite Hlen, Nat.eqb_refl. simpl negb. cbv iota.
  destruct (in_dec Req_dec_T 0 s) as [Hin | _];
    [exfalso; now apply (positive_no_zero s Hpos)|].
  rewrite div_OK by lra. simpl bind.
  assert (HINR : 0 < INR (length u)) by now apply lt_0_INR.
  rewrite log_OK by (apply Rdiv_lt_0_compat; lra). simpl bind.
  rewrite div_OK by lra. simpl bind.
  destruct (min_least u Hu) as (lowest & Hmin & Hleast).
  rewrite Hmin. simpl bind.
  set (t := 2 * ln (INR (length u) / beta) / eps).
  set (shifted := map (fun x => x - lowest) u).
  assert (Hshift_len : length shifted = length u) by (unfold shifted; apply length_map).
  rewrite Hshift_len.
  destruct (for_each_Forall2
              (fun i y => exists M, y = - M
                          /\ greatest_over (length u) (spec_ratio t shifted s i) M)
              (reweigh t shifted s) (seq 0 (length u)))
    as (w & Hw & Hall).
  { intros i Hi. apply in_seq in Hi.
    destruct (reweigh_spec t shifted s i) as (M & HM & Hgreat).
    - now rewrite Hshift_len.
    - intros j Hj. rewrite Hshift_len in Hj.
      rewrite Forall_forall in Hpos.
      assert (0 < nth i s 0) by (apply Hpos, nth_In; lia).
      assert (0 < nth j s 0) by (apply Hpos, nth_In; lia).
      lra.
    - rewrite Hshift_len in Hgreat. exists (- M). split; [assumption|].
      exists M. split; [reflexivity | assumption]. }
  destruct (Forall2_seq_nth _ 0 _ _ _ Hall) as [Hwlen Hnth].
  rewrite Hw. simpl bind.
  rewrite Exponential_init_OK; [|assumption|].
  2:{ intros ->. simpl in Hwlen. lia. }
  simpl bind. exists w. split; [reflexivity|].
  exists lowest. split; [assumption|]. split; [now apply shifted_least|].
  split; [assumption|].
  intros i Hi. destruct (Hnth i Hi) as (M & HM & Hgreat).
  exists M. split; [exact Hgreat | exact HM].
Qed.

(** C6. For [epsilon > 0], [beta] in (0, 1), a non-empty utility vector
    and positive sensitivities, the constructor computes
    [t = 2 ln(k / beta) / epsilon], shifts the utilities so that the least
    is [0], gives each candidate minus the largest ratio over all [j], and
    hands exactly these numbers to an exponential mechanism with the same
    [epsilon] and sensitivity [1]. *)
Theorem generalized_exponential_init eps beta u s :
  0 < eps -> 0 < beta < 1 -> u <> [] -> length s = length u ->
  Forall (fun x => 0 < x) s ->
  exists ge,
    GeneralizedExponential_init eps beta (Sequence s) u = OK ge
    /\ epsilon (mechanism ge) = eps
    /\ sensitivity (mechanism ge) = 1
    /\ candidates (mechanism ge) = None
    /\ spec_reweighted eps beta u s (utility (mechanism ge)).
Proof.
  intros Heps Hbeta Hu Hlen Hpos.
  destruct (selector_init_spec eps beta u s Heps Hbeta Hu Hlen Hpos) as (w & Hinit & Hw).
  eexists. split; [exact Hinit|]. simpl. auto.
Qed.

Lemma generalized_exponential_init_witness :
  exists ge,
    GeneralizedExponential_init 1 (1 / 2) (Sequence [5; 7]) [3; 4] = OK ge
    /\ epsilon (mechanism ge) = 1
    /\ sensitivity (mechanism ge) = 1
    /\ candidates (mechanism ge) = None
    /\ spec_reweighted 1 (1 / 2) [3; 4] [5; 7] (utility (mechanism ge)).
Proof.
  apply (generalized_exponential_init 1 (1 / 2) [3; 4] [5; 7]);
    [lra | lra | discriminate | reflexivity | repeat constructor; lra].
Defined.

End Selector.

Section SelectorFailures.

Import pymath diffprivlib selection dp.
Local Open Scope R_scope.

Lemma bind_no_assertion {A B : Type} (r : outcome A) (k : A -> outcome B) :
  ~ raises_assertion r -> (forall a, ~ raises_assertion (k a)) ->
  ~ raises_assertion (bind r k).
Proof.
  intros Hr Hk. destruct r as [a | e]; simpl; [apply Hk|].
  intros [msg H]. apply Hr. exists msg. now injection H as ->.
Qed.

Lemma div_no_assertion x y : ~ raises_assertion (div x y).
Proof. unfold div. destruct (Req_dec_T y 0); intros [msg H]; discriminate. Qed.

Lemma log_no_assertion x : ~ raises_assertion (log x).
Proof. unfold log. destruct (Rle_dec x 0); intros [msg H]; discriminate. Qed.

Lemma min_no_assertion xs : ~ raises_assertion (min xs).
Proof. destruct xs; intros [msg H]; discriminate. Qed.

Lemma max_no_assertion xs : ~ raises_assertion (max xs).
Proof. destruct xs; intros [msg H]; discriminate. Qed.

Lemma OK_no_assertion {A : Type} (a : A) : ~ raises_assertion (OK a).
Proof. intros [msg H]; discriminate. Qed.

Lemma for_each_no_assertion {A B : Type} (body : A -> outcome B) xs :
  (forall x, ~ raises_assertion (body x)) -> ~ raises_assertion (for_each body xs).
Proof.
  intros Hbody. induction xs as [|x xs IH]; simpl; [apply OK_no_assertion|].
  apply bind_no_assertion; [apply Hbody|]. intros y.
  apply bind_no_assertion; [assumption|]. intros ys. apply OK_no_assertion.
Qed.

Lemma reweigh_no_assertion t u s i : ~ raises_assertion (reweigh t u s i).
Proof.
  unfold reweigh. apply bind_no_assertion.
  - apply for_each_no_assertion. intros j. apply div_no_assertion.
  - intros ratios. apply bind_no_assertion; [apply max_no_assertion|].
    intros largest. apply OK_no_assertion.
Qed.

Lemma Exponential_init_no_assertion eps sens w cs :
  ~ raises_assertion (Exponential_init eps sens w cs).
Proof.
  unfold Exponential_init.
  destruct (Rlt_dec eps 0); [intros [msg H]; discriminate|].
  destruct (Req_dec_T eps 0); [intros [msg H]; discriminate|].
  destruct (Rlt_dec sens 0); [intros [msg H]; discriminate|].
  destruct w; [intros [msg H]; discriminate|].
  destruct cs as [cs|]; [|apply OK_no_assertion].
  destruct (negb _); [intros [msg H]; discriminate | apply OK_no_assertion].
Qed.

(** C7. Given one sensitivity per candidate, the constructor fails on the
    assertion [0 not in sensitivity] exactly when some sensitivity is zero;
    a scalar sensitivity is first repeated once per candidate; sequences of
    different lengths fail the length assertion. *)
Theorem degenerate_sensitivity eps beta u :
  (forall s, length s = length u ->
     (GeneralizedExponential_init eps beta (Sequence s) u
      = Raise (AssertionError "0 not in sensitivity")
      <-> In 0 s))
  /\ (forall x,
        GeneralizedExponential_init eps beta (Scalar x) u
        = GeneralizedExponential_init eps beta (Sequence (repeat x (length u))) u)
  /\ (forall s, length s <> length u ->
        GeneralizedExponential_init eps beta (Sequence s) u
        = Raise (AssertionError "len(sensitivity) == len(utility)")).
Proof.
  split; [|split].
  - intros s Hlen. unfold GeneralizedExponential_init.
    rewrite Hlen, Nat.eqb_refl. simpl negb. cbv iota.
    destruct (in_dec Req_dec_T 0 s) as [Hin | Hnot].
    + split; [intros _; assumption | reflexivity].
    + split; [|contradiction]. intros H. exfalso.
      revert H. match goal with |- ?r = _ -> False =>
        assert (Hno : ~ raises_assertion r) end.
      { apply bind_no_assertion; [apply div_no_assertion|]. intros ratio.
        apply bind_no_assertion; [apply log_no_assertion|]. intros logarithm.
        apply bind_no_assertion; [apply div_no_assertion|]. intros t.
        apply bind_no_assertion; [apply min_no_assertion|]. intros lowest.
        apply bind_no_assertion.
        - apply for_each_no_assertion. intros i. apply reweigh_no_assertion.
        - intros w. apply bind_no_assertion; [apply Exponential_init_no_assertion|].
          intros mech. apply OK_no_assertion. }
      intros H. apply Hno. eexists. exact H.
  - intros x. reflexivity.
  - intros s Hlen. unfold GeneralizedExponential_init.
    rewrite (proj2 (Nat.eqb_neq _ _) Hlen). reflexivity.
Qed.

Lemma degenerate_sensitivity_witness :
  GeneralizedExponential_init 1 (1 / 2) (Sequence [0; 7]) [3; 4]
  = Raise (AssertionError "0 not in sensitivity").
Proof.
  apply (proj1 (degenerate_sensitivity 1 (1 / 2) [3; 4]) [0; 7]);
    [reflexivity | now left].
Defined.

Lemma init_candidates_none eps beta sarg u ge :
  GeneralizedExponential_init eps beta sarg u = OK ge ->
  candidates (mechanism ge) = None.
Proof.
  unfold GeneralizedExponential_init.
  destruct (negb _); [discriminate|].
  destruct (in_dec Req_dec_T 0 _); [discriminate|].
  intros H.
  apply bind_OK in H. destruct H as (ratio & _ & H).
  apply bind_OK in H. destruct H as (logarithm & _ & H).
  apply bind_OK in H. destruct H as (t & _ & H).
  apply bind_OK in H. destruct H as (lowest & _ & H).
  apply bind_OK in H. destruct H as (w & _ & H).
  apply bind_OK in H. destruct H as (mech & Hmech & H).
  injection H as <-. simpl.
  unfold Exponential_init in Hmech.
  destruct (Rlt_dec eps 0); [discriminate|].
  destruct (Req_dec_T eps 0); [discriminate|].
  destruct (Rlt_dec 1 0); [discriminate|].
  destruct w; [discriminate|]. now injection Hmech as <-.
Qed.

Lemma randomise_index mech idx :
  candidates mech = None -> randomise mech idx = Z.of_nat idx.
Proof. intros H. unfold randomise. now rewrite H. Qed.

(** [GeneralizedExponential.randomise] by itself yields the index the
    mechanism draws, as the unit tests of the selector expect. *)
Lemma generalized_randomise_index eps beta sarg u ge idx :
  GeneralizedExponential_init eps beta sarg u = OK ge ->
  GeneralizedExponential_randomise ge idx = Z.of_nat idx.
Proof.
  intros Hinit. unfold GeneralizedExponential_randomise.
  apply randomise_index. exact (init_candidates_none _ _ _ _ _ Hinit).
Qed.

Lemma selector_closure eps beta counts bounds :
  0 < eps -> 0 < beta < 1 -> bounds <> [] ->
  length counts = length bounds -> Forall (fun b => (0 < b)%Z) bounds ->
  exists u ge internal,
    GeneralizedExponential_init eps beta (Sequence (map IZR bounds)) u = OK ge
    /\ _dp_max_utility_selector eps beta counts bounds = OK internal
    /\ forall idx,
         internal idx
         = nth (Z.to_nat (GeneralizedExponential_randomise ge idx)) bounds 0%Z.
Proof.
  intros Heps Hbeta Hne Hlen Hpos.
  unfold _dp_max_utility_selector.
  rewrite div_OK by lra. simpl bind.
  unfold broadcast. rewrite Hlen, Nat.eqb_refl. simpl bind.
  set (u := map _ (combine counts bounds)).
  destruct (selector_init_spec eps beta u (map IZR bounds)) as (w & Hinit & _);
    try assumption.
  - unfold u. intros Hnil. apply (f_equal (@length R)) in Hnil.
    rewrite length_map, length_combine, Hlen, Nat.min_id in Hnil.
    destruct bounds; [congruence | discriminate].
  - unfold u. rewrite !length_map, length_combine, Hlen, Nat.min_id. reflexivity.
  - apply Forall_forall. intros x Hx. apply in_map_iff in Hx.
    destruct Hx as (b & <- & Hb). rewrite Forall_forall in Hpos.
    apply IZR_lt. now apply Hpos.
  - exists u. eexists. eexists. split; [exact Hinit|].
    rewrite Hinit. simpl bind. split; reflexivity.
Qed.

(** C8. The sampler built by [_dp_max_utility_selector] over a list of
    candidate bounds returns, for every draw of the mechanism, the bound of
    the selected candidate, an element of that list: the mechanism
    underneath yields the index, and the sampler looks it up. *)
Theorem selector_returns_bound eps beta counts bounds :
  0 < eps -> 0 < beta < 1 -> bounds <> [] ->
  length counts = length bounds -> Forall (fun b => (0 < b)%Z) bounds ->
  exists internal,
    _dp_max_utility_selector eps beta counts bounds = OK internal
    /\ forall idx, (idx < length bounds)%nat ->
         internal idx = nth idx bounds 0%Z /\ In (internal idx) bounds.
Proof.
  intros Heps Hbeta Hne Hlen Hpos.
  destruct (selector_closure eps beta counts bounds Heps Hbeta Hne Hlen Hpos)
    as (u & ge & internal & Hinit & Hsel & Hinternal).
  exists internal. split; [assumption|].
  intros idx Hidx.
  rewrite Hinternal, (generalized_randomise_index _ _ _ _ _ idx Hinit), Nat2Z.id.
  split; [reflexivity | now apply nth_In].
Qed.

Lemma selector_returns_bound_witness :
  exists internal,
    _dp_max_utility_selector 1 (1 / 2) [3; 4] [5; 7]%Z = OK internal
    /\ forall idx, (idx < length [5; 7]%Z)%nat ->
         internal idx = nth idx [5; 7]%Z 0%Z /\ In (internal idx) [5; 7]%Z.
Proof.
  apply (selector_returns_bound 1 (1 / 2) [3; 4] [5; 7]%Z);
    [lra | lra | discriminate | reflexivity | repeat constructor].
Defined.

(** Built over the sensitivities [5] and [7], the selector class answers
    the draw of the second candidate with the index [1]; the sampler of
    the composition layer turns it into the bound [7]. *)
Example selector_index_and_bound :
  exists ge internal,
    GeneralizedExponential_init 1 (1 / 2) (Sequence [5; 7]) [3; 4] = OK ge
    /\ GeneralizedExponential_randomise ge 1 = 1%Z
    /\ _dp_max_utility_selector 1 (1 / 2) [3; 4] [5; 7]%Z = OK internal
    /\ internal 1%nat = 7%Z.
Proof.
  destruct (selector_init_spec 1 (1 / 2) [3; 4] [5; 7]) as (w & Hinit & _);
    [lra | lra | discriminate | reflexivity | repeat constructor; lra |].
  destruct (selector_closure 1 (1 / 2) [3; 4] [5; 7]%Z)
    as (u & ge & internal & Hge & Hsel & Hinternal);
    [lra | lra | discriminate | reflexivity | repeat constructor |].
  eexists. exists internal. split; [exact Hinit|].
  split; [reflexivity|]. split; [exact Hsel|].
  now rewrite Hinternal, (generalized_randomise_index _ _ _ _ _ 1%nat Hge).
Qed.

End SelectorFailures.

(** ** The shifted inverse mechanism *)

Section ShiftedInverse.

Import pymath diffprivlib shifted_inverse.
Local Open Scope R_scope.

Variable linprog : linear_program -> R.

Lemma ln_10_pos : 0 < ln 10.
Proof. rewrite <- ln_1. apply ln_increasing; lra. Qed.

Lemma ceil_spec x : IZR (ceil x) - 1 < x <= IZR (ceil x).
Proof.
  unfold ceil. rewrite opp_IZR.
  destruct (base_Int_part (- x)) as [H1 H2]. lra.
Qed.

Lemma ceil_unique x z : IZR z - 1 < x <= IZR z -> ceil x = z.
Proof.
  intros [H1 H2]. destruct (ceil_spec x) as [H3 H4].
  assert (Hlt1 : (ceil x - 1 < z)%Z) by (apply lt_IZR; rewrite minus_IZR; lra).
  assert (Hlt2 : (z - 1 < ceil x)%Z) by (apply lt_IZR; rewrite minus_IZR; lra).
  lia.
Qed.

Lemma floor_spec x : IZR (floor x) <= x < IZR (floor x) + 1.
Proof. unfold floor. destruct (base_Int_part x) as [H1 H2]. lra. Qed.

Lemma log_base_10_OK x : 0 < x -> log_base x 10 = OK (ln x / ln 10).
Proof.
  intros Hx. unfold log_base. rewrite log_OK by assumption. simpl.
  rewrite log_OK by lra. simpl. apply div_OK.
  pose proof ln_10_pos. lra.
Qed.

Lemma log_base_10_domain x :
  x <= 0 -> log_base x 10 = Raise (ValueError "math domain error").
Proof.
  intros Hx. unfold log_base, log. destruct (Rle_dec x 0); [reflexivity | lra].
Qed.

Lemma log_upper_bound_nonneg (ub : Z) : (1 <= ub)%Z -> 0 <= ln (IZR ub) / ln 10.
Proof.
  intros Hub. apply IZR_le in Hub. pose proof ln_10_pos as H10.
  apply Rmult_le_pos; [|left; now apply Rinv_0_lt_compat].
  destruct (Req_dec (IZR ub) 1) as [-> | Hne]; [rewrite ln_1; lra|].
  left. rewrite <- ln_1. apply ln_increasing; lra.
Qed.

(** [tau] is computed without an exception and is at least [1]. *)
Lemma compute_tau_OK eps err L beta :
  0 < eps -> 0 < err -> 0 <= L -> 0 < beta < 1 ->
  exists tau, compute_tau eps err L beta = OK tau /\ (1 <= tau)%Z.
Proof.
  intros Heps Herr HL Hbeta. unfold compute_tau.
  rewrite !div_OK by lra. simpl bind.
  assert (Hq : 0 <= L / err) by (apply Rmult_le_pos; [lra | left; now apply Rinv_0_lt_compat]).
  assert (Hratio : 1 < (L / err + 1) / beta).
  { apply (Rmult_lt_reg_r beta); [lra|].
    unfold Rdiv. rewrite Rmult_assoc, Rinv_l by lra. lra. }
  rewrite div_OK by lra. simpl bind.
  rewrite log_OK by lra. simpl bind.
  eexists. split; [reflexivity|].
  assert (Hln : 0 < ln ((L / err + 1) / beta)).
  { rewrite <- ln_1. apply ln_increasing; lra. }
  assert (Hprod : 0 < 2 / eps * ln ((L / err + 1) / beta)).
  { apply Rmult_lt_0_compat; [|assumption]. apply Rdiv_lt_0_compat; lra. }
  destruct (ceil_spec (2 / eps * ln ((L / err + 1) / beta))) as [_ Hc].
  assert (0 < ceil (2 / eps * ln ((L / err + 1) / beta)))%Z
    by (apply lt_IZR; lra).
  lia.
Qed.

Lemma for_each_raises {A B : Type} (body : A -> outcome B) (e : exn) xs :
  (forall x, In x xs -> body x = Raise e \/ exists y, body x = OK y) ->
  (exists x, In x xs /\ body x = Raise e) ->
  for_each body xs = Raise e.
Proof.
  induction xs as [|x xs IH]; intros Hall (x0 & Hin & Hx0); [destruct Hin|].
  simpl. destruct (Hall x (or_introl eq_refl)) as [Hx | (y & Hx)];
    rewrite Hx; [reflexivity|].
  simpl. rewrite IH; [reflexivity | |].
  - intros x' Hx'. apply Hall. now right.
  - destruct Hin as [<- | Hin]; [congruence|]. now exists x0.
Qed.

Lemma round_OK value step : step <> 0 -> exists y, _round value step = OK y.
Proof.
  intros Hstep. unfold _round. rewrite div_OK by assumption. simpl. eauto.
Qed.

(** An edge either is computed or fails in [math.log]. *)
Lemma bin_edge_cases d err k :
  err <> 0 ->
  (exists s, _sensitivity linprog d k = OK s) ->
  bin_edge linprog d err k = Raise (ValueError "math domain error")
  \/ exists y, bin_edge linprog d err k = OK y.
Proof.
  intros Herr (s & Hs). unfold bin_edge. rewrite Hs. simpl bind.
  destruct (Rle_dec (INR (number_of_values d) - s) 0) as [Hle | Hgt].
  - left. now rewrite log_base_10_domain.
  - right. rewrite log_base_10_OK by lra. simpl bind. now apply round_OK.
Qed.

Lemma bin_edge_domain d err k :
  _sensitivity linprog d k = OK (INR (number_of_values d)) ->
  bin_edge linprog d err k = Raise (ValueError "math domain error").
Proof.
  intros Hs. unfold bin_edge. rewrite Hs. simpl bind.
  rewrite log_base_10_domain by lra. reflexivity.
Qed.

Lemma length_entries data : length (entries data) = list_sum (map (@length nat) data).
Proof.
  rewrite <- (length_map snd), entries_snd.
  induction data as [|r data IH]; simpl; [reflexivity|].
  now rewrite length_app, IH.
Qed.

Lemma triplets_combine (T : list (nat * nat * Z)) :
  combine (combine (map scipy.row_of T) (map scipy.col_of T)) (map scipy.weight_of T) = T.
Proof.
  induction T as [|[[r c0] w] T IH]; simpl; [reflexivity|]. now rewrite IH.
Qed.

(** The constraint matrix of a constructed data set. *)
Lemma inequalities_coefficients_OK data d :
  DataSet_init data = OK d ->
  exists A,
    _inequalities_coefficients d = OK A
    /\ scipy.coo A
       = record_rows d
           ++ map (fun user_id => (length (entries data), user_id, 1%Z))
                  (seq 0 (length data)).
Proof.
  intros Hd.
  assert (Hfields : _data d = data
                    /\ number_of_records d = list_sum (map (@length nat) data)
                    /\ data <> []).
  { destruct data as [|r data]; [discriminate|]. injection Hd as <-.
    split; [reflexivity|]. split; [reflexivity | discriminate]. }
  destruct Hfields as (Hdata & Hrec & Hne).
  unfold _inequalities_coefficients, number_of_users.
  rewrite Hdata, Hrec, <- length_entries, Nat.eqb_refl. simpl negb. cbv iota.
  set (T := record_rows d
              ++ map (fun user_id => (length (entries data), user_id, 1%Z))
                     (seq 0 (length data))).
  unfold scipy.csr_matrix_init. rewrite !length_map, Nat.eqb_refl. simpl negb. cbv iota.
  rewrite triplets_combine.
  destruct (map scipy.row_of T) as [|r0 rows] eqn:Hrows.
  - apply (f_equal (@length nat)) in Hrows. unfold T in Hrows.
    rewrite length_map, length_app, length_map, length_seq in Hrows.
    destruct data; [congruence | simpl in Hrows; lia].
  - eexists. split; reflexivity.
Qed.

Lemma sensitivity_OK data d k :
  DataSet_init data = OK d -> exists s, _sensitivity linprog d k = OK s.
Proof.
  intros Hd. destruct (inequalities_coefficients_OK data d Hd) as (A & HA & _).
  unfold _sensitivity, problem. rewrite HA. simpl. eauto.
Qed.

Lemma in_users_to_delete_range tau k :
  In k (users_to_delete_range tau) <-> (0 <= k < 2 * tau)%Z.
Proof.
  unfold users_to_delete_range. rewrite in_map_iff. split.
  - intros (i & <- & Hi). apply in_seq in Hi. lia.
  - intros Hk. exists (Z.to_nat k). split; [lia|]. apply in_seq. lia.
Qed.

(** The loop fails as soon as some number of users to delete has a
    sensitivity equal to the number of values. *)
Lemma shifted_inverse_domain_error data d eps err ub beta idx fraction :
  DataSet_init data = OK d ->
  0 < eps -> 0 < err -> (1 <= ub)%Z -> 0 < beta < 1 ->
  (exists tau k,
     compute_tau eps err (ln (IZR ub) / ln 10) beta = OK tau
     /\ (0 <= k < 2 * tau)%Z
     /\ _sensitivity linprog d k = OK (INR (number_of_values d))) ->
  shifted_inverse_distinct_count linprog d eps err ub beta idx fraction
  = Raise (ValueError "math domain error").
Proof.
  intros Hd Heps Herr Hub Hbeta (tau & k & Htau & Hk & Hs).
  unfold shifted_inverse_distinct_count.
  rewrite log_base_10_OK by (apply IZR_lt; lia). simpl bind.
  rewrite Htau. simpl bind.
  unfold bin_edges.
  rewrite (for_each_raises (bin_edge linprog d err)
             (ValueError "math domain error")); [reflexivity | |].
  - intros x _. apply bin_edge_cases; [lra|]. now apply (sensitivity_OK data).
  - exists k. split; [now apply in_users_to_delete_range|].
    now apply bin_edge_domain.
Qed.

(** *** The linear program with every user kept *)

Lemma sumR_app xs ys : sumR (xs ++ ys) = sumR xs + sumR ys.
Proof.
  induction xs as [|x xs IH]; simpl; [lra|]. unfold sumR in *. simpl. rewrite IH. lra.
Qed.

Lemma dot_app xs xs' ys ys' :
  length xs = length ys ->
  dot (xs ++ xs') (ys ++ ys') = dot xs ys + dot xs' ys'.
Proof.
  intros Hlen. unfold dot. rewrite combine_app by assumption.
  rewrite map_app. apply sumR_app.
Qed.

Lemma dot_zeros n ws : dot (map Ropp (repeat 0 n)) ws = 0.
Proof.
  revert ws. induction n as [|n IH]; intros [|w ws]; simpl; try reflexivity.
  unfold dot in *. simpl. rewrite IH. lra.
Qed.

Lemma dot_ones_bound m : forall ws,
  length ws = m -> Forall (fun x => 0 <= x <= 1) ws ->
  - INR m <= dot (map Ropp (repeat 1 m)) ws.
Proof.
  induction m as [|m IH]; intros [|w ws] Hlen Hall;
    try discriminate; [unfold dot; simpl; lra|].
  inversion Hall as [|? ? Hw Hrest]; subst.
  rewrite S_INR. simpl. unfold dot in *. simpl.
  specialize (IH ws ltac:(simpl in Hlen; lia) Hrest). lra.
Qed.

Lemma dot_ones m : dot (map Ropp (repeat 1 m)) (repeat 1 m) = - INR m.
Proof.
  induction m as [|m IH]; [unfold dot; simpl; lra|].
  rewrite S_INR. simpl. unfold dot in *. simpl. rewrite IH. lra.
Qed.

Lemma Forall2_unit_bounds N (ws : list R) :
  Forall2 (fun x (lu : R * R) => fst lu <= x <= snd lu) ws (repeat (0, 1) N)
  <-> length ws = N /\ Forall (fun x => 0 <= x <= 1) ws.
Proof.
  revert ws. induction N as [|N IH]; intros ws; simpl.
  - split.
    + intros H. inversion H. split; [reflexivity | constructor].
    + intros [Hlen _]. apply length_zero_iff_nil in Hlen. subst. constructor.
  - split.
    + intros H. inversion H as [|x lu ws' r' Hx Hrest]; subst.
      apply IH in Hrest. destruct Hrest as [Hlen Hall].
      split; [simpl; lia | constructor; assumption].
    + intros [Hlen Hall]. destruct ws as [|x ws]; [discriminate|].
      inversion Hall; subst. constructor; [assumption|].
      apply IH. split; [simpl in Hlen; lia | assumption].
Qed.

Lemma nth_ones_le N i : 0 <= nth i (repeat 1 N) 0 <= 1.
Proof.
  destruct (Nat.lt_ge_cases i N) as [Hi | Hi].
  - rewrite nth_repeat_lt by assumption. lra.
  - rewrite nth_overflow by (now rewrite repeat_length). lra.
Qed.

Lemma record_rows_value (n N r : nat)
    (L : list (nat * (nat * nat))) :
  (forall ke, In ke L -> (fst (snd ke) < N)%nat) ->
  sumR (map (fun t => if (scipy.row_of t =? r)%nat
                      then IZR (scipy.weight_of t) * nth (scipy.col_of t) (repeat 1 N) 0
                      else 0)
            (flat_map (fun ke => [(fst ke, (n + snd (snd ke))%nat, 1%Z);
                                  (fst ke, fst (snd ke), (-1)%Z)]) L))
  <= 0.
Proof.
  induction L as [|[k [u rec]] L IH]; intros Hu; [simpl; lra|].
  cbn [flat_map app map]. unfold scipy.row_of, scipy.col_of, scipy.weight_of in *.
  cbn [fst snd]. unfold sumR in *. cbn [fold_right].
  specialize (IH ltac:(intros ke Hke; apply Hu; now right)).
  pose proof (nth_ones_le N (n + rec)).
  assert (Hone : nth u (repeat 1 N) 0 = 1).
  { apply nth_repeat_lt. apply (Hu (k, (u, rec))). now left. }
  rewrite Hone. destruct (k =? r)%nat; lra.
Qed.

Lemma last_row_value (R0 r n N : nat) :
  (n <= N)%nat ->
  sumR (map (fun t => if (scipy.row_of t =? r)%nat
                      then IZR (scipy.weight_of t) * nth (scipy.col_of t) (repeat 1 N) 0
                      else 0)
            (map (fun user_id => (R0, user_id, 1%Z)) (seq 0 n)))
  = if (R0 =? r)%nat then INR n else 0.
Proof.
  intros HnN. rewrite map_map. unfold scipy.row_of, scipy.col_of, scipy.weight_of.
  cbn [fst snd].
  assert (Hgen : forall l, (forall u, In u l -> (u < N)%nat) ->
    sumR (map (fun x => if (R0 =? r)%nat then 1 * nth x (repeat 1 N) 0 else 0) l)
    = if (R0 =? r)%nat then INR (length l) else 0).
  { induction l as [|u l IH]; intros Hl.
    - simpl. destruct (R0 =? r)%nat; reflexivity.
    - cbn [map length]. rewrite S_INR. unfold sumR in *. cbn [fold_right].
      rewrite IH by (intros u' Hu'; apply Hl; now right).
      rewrite nth_repeat_lt by (apply Hl; now left).
      destruct (R0 =? r)%nat; lra. }
  rewrite Hgen, length_seq; [reflexivity|].
  intros u Hu. apply in_seq in Hu. lia.
Qed.

(** With [number_of_users] users kept, the optimum of the linear program
    is minus the number of values. *)
Lemma all_users_optimum data d lp :
  DataSet_init data = OK d ->
  problem d (Z.of_nat (number_of_users d)) = OK lp ->
  optimum lp (- INR (number_of_values d)).
Proof.
  intros Hd Hlp.
  destruct (inequalities_coefficients_OK data d Hd) as (A & HA & Hcoo).
  assert (Hfields : _data d = data
                    /\ number_of_records d = length (entries data)).
  { destruct data as [|r data]; [discriminate|]. injection Hd as <-.
    split; [reflexivity|]. simpl number_of_records. now rewrite length_entries. }
  destruct Hfields as (Hdata & Hrec).
  unfold problem in Hlp. rewrite HA in Hlp. simpl in Hlp. injection Hlp as <-.
  set (n := number_of_users d) in *. set (m := number_of_values d) in *.
  assert (Hn : n = length data) by (unfold n, number_of_users; now rewrite Hdata).
  unfold optimum, feasible. simpl.
  unfold _bounds, _objective_coefficients, _inequalities_bounds. fold n m.
  split.
  - exists (repeat 1 (n + m)). split; [split|].
    + apply Forall2_unit_bounds. split; [apply repeat_length|].
      apply Forall_forall. intros x Hx. apply repeat_spec in Hx. lra.
    + intros r Hr. rewrite length_app, repeat_length in Hr. simpl in Hr.
      unfold row_value. rewrite Hcoo, map_app.
      change (fold_right Rplus 0) with sumR. rewrite sumR_app.
      unfold record_rows. fold n.
      pose proof (record_rows_value n (n + m) r (enumerate (entries (_data d)))) as Hrows.
      rewrite <- Hn, last_row_value by lia.
      assert (Hle : forall ke, In ke (enumerate (entries (_data d))) ->
                               (fst (snd ke) < n + m)%nat).
      { intros [k [u rec]] Hke. unfold enumerate in Hke. apply in_combine_r in Hke.
        rewrite Hdata in Hke. apply in_entries in Hke. simpl. lia. }
      specialize (Hrows Hle). rewrite Hrec in Hr |- *.
      destruct (Nat.eqb_spec (length (entries data)) r) as [<- | Hne].
      * rewrite app_nth2, repeat_length, Nat.sub_diag
          by (rewrite repeat_length; lia).
        simpl. rewrite <- INR_IZR_INZ. lra.
      * rewrite app_nth1 by (rewrite repeat_length; lia).
        rewrite nth_repeat_lt by lia. lra.
    + rewrite map_app, repeat_app, dot_app by (now rewrite length_map, !repeat_length).
      rewrite dot_zeros, dot_ones. lra.
  - intros w [Hbounds _]. apply Forall2_unit_bounds in Hbounds.
    destruct Hbounds as [Hlen Hall].
    rewrite <- (firstn_skipn n w), map_app, dot_app.
    2:{ rewrite length_map, repeat_length, length_firstn. lia. }
    rewrite dot_zeros.
    pose proof (dot_ones_bound m (skipn n w)) as Hb.
    rewrite length_skipn in Hb. specialize (Hb ltac:(lia)).
    assert (Hskip : Forall (fun x => 0 <= x <= 1) (skipn n w)).
    { apply Forall_forall. intros x Hx. rewrite Forall_forall in Hall.
      apply Hall. now apply in_skipn_In in Hx. }
    specialize (Hb Hskip). lra.
Qed.

Lemma sensitivity_all_users data d :
  DataSet_init data = OK d ->
  (forall lp v, problem d (Z.of_nat (number_of_users d)) = OK lp ->
                optimum lp v -> linprog lp = v) ->
  _sensitivity linprog d (Z.of_nat (number_of_users d))
  = OK (INR (number_of_values d)).
Proof.
  intros Hd Hsolver.
  destruct (inequalities_coefficients_OK data d Hd) as (A & HA & _).
  unfold _sensitivity.
  destruct (problem d (Z.of_nat (number_of_users d))) as [lp | e] eqn:Hlp.
  - simpl. rewrite (Hsolver lp (- INR (number_of_values d)) eq_refl).
    + f_equal. lra.
    + now apply (all_users_optimum data).
  - unfold problem in Hlp. rewrite HA in Hlp. discriminate.
Qed.

(** C10. Whenever some number of users to delete in the loop range has a
    sensitivity equal to the number of values, the estimator raises a math
    domain error instead of returning; this happens in particular when
    [2 * tau - 1 >= number_of_users] and the solver returns the optimum. *)
Theorem shifted_inverse_partial data d eps err ub beta idx fraction :
  DataSet_init data = OK d -> well_formed data ->
  0 < eps -> 0 < err -> (1 <= ub)%Z -> 0 < beta < 1 ->
  exists tau,
    compute_tau eps err (ln (IZR ub) / ln 10) beta = OK tau
    /\ (1 <= tau)%Z
    /\ ((exists k, (0 <= k < 2 * tau)%Z
                   /\ _sensitivity linprog d k = OK (INR (number_of_values d))) ->
        shifted_inverse_distinct_count linprog d eps err ub beta idx fraction
        = Raise (ValueError "math domain error"))
    /\ ((forall lp v, problem d (Z.of_nat (number_of_users d)) = OK lp ->
                      optimum lp v -> linprog lp = v) ->
        (Z.of_nat (number_of_users d) <= 2 * tau - 1)%Z ->
        shifted_inverse_distinct_count linprog d eps err ub beta idx fraction
        = Raise (ValueError "math domain error")).
Proof.
  intros Hd _ Heps Herr Hub Hbeta.
  destruct (compute_tau_OK eps err (ln (IZR ub) / ln 10) beta) as (tau & Htau & Hpos);
    try assumption; [now apply log_upper_bound_nonneg|].
  exists tau. split; [assumption|]. split; [assumption|]. split.
  - intros (k & Hk & Hs).
    apply (shifted_inverse_domain_error data); try assumption.
    exists tau, k. auto.
  - intros Hsolver Hn.
    apply (shifted_inverse_domain_error data); try assumption.
    exists tau, (Z.of_nat (number_of_users d)).
    split; [assumption|]. split; [lia|].
    now apply (sensitivity_all_users data).
Qed.

(** *** When the estimator returns *)







End ShiftedInverse.

(** *** A run on two users *)

Section SmallRun.

Import pymath diffprivlib shifted_inverse.
Local Open Scope R_scope.

Let L := ln 2 / ln 10.

Lemma two_users_well_formed : well_formed [[0]; [1]]%nat.
Proof.
  split; [|split].
  - repeat constructor; simpl; intuition discriminate.
  - simpl. intros v Hv. repeat (destruct Hv as [<- | Hv]; [lia|]). destruct Hv.
  - discriminate.
Qed.

Lemma one_user_well_formed : well_formed [[0]]%nat.
Proof.
  split; [|split].
  - repeat constructor; simpl; intuition discriminate.
  - simpl. intros v Hv. repeat (destruct Hv as [<- | Hv]; [lia|]). destruct Hv.
  - discriminate.
Qed.

Lemma log10_2_bounds : 0 < L < 1.
Proof.
  pose proof ln_10_pos as H10.
  assert (H2 : 0 < ln 2) by (rewrite <- ln_1; apply ln_increasing; lra).
  assert (H210 : ln 2 < ln 10) by (apply ln_increasing; lra).
  unfold L. split.
  - apply Rdiv_lt_0_compat; lra.
  - apply (Rmult_lt_reg_r (ln 10)); [assumption|].
    unfold Rdiv. rewrite Rmult_assoc, Rinv_l by lra. lra.
Qed.

Lemma small_tau : compute_tau 8 1 L (1 / 2) = OK 1%Z.
Proof.
  pose proof log10_2_bounds as [HL0 HL1].
  unfold compute_tau. rewrite !div_OK by lra. simpl bind.
  assert (Hy : 2 < (L / 1 + 1) / (1 / 2) < 4).
  { replace ((L / 1 + 1) / (1 / 2)) with (2 * (L + 1)) by field. lra. }
  rewrite div_OK by lra. simpl bind.
  rewrite log_OK by lra. simpl bind. f_equal.
  apply ceil_unique. simpl.
  assert (Hln0 : 0 < ln ((L / 1 + 1) / (1 / 2))).
  { rewrite <- ln_1. apply ln_increasing; lra. }
  assert (Hln4 : ln ((L / 1 + 1) / (1 / 2)) < 4).
  { rewrite <- (ln_exp 4). apply ln_increasing; [lra|].
    pose proof (exp_ineq1 4 ltac:(lra)). lra. }
  lra.
Qed.

Lemma small_sensitivity (k : Z) :
  _sensitivity small_solver two_users k = OK (IZR k)
  /\ _sensitivity small_solver one_user k = OK (IZR k).
Proof.
  split; unfold _sensitivity, problem; simpl; unfold small_solver; simpl;
    f_equal; lra.
Qed.




Lemma small_optimum k lp :
  In k [0%Z; 1%Z] -> problem two_users k = OK lp -> optimum lp (small_solver lp).
Proof.
  intros Hk Hlp. unfold problem in Hlp. simpl in Hlp. injection Hlp as <-.
  unfold small_solver, optimum, feasible. simpl.
  change (_bounds two_users) with [(0, 1); (0, 1); (0, 1); (0, 1)].
  change (_objective_coefficients two_users) with [- 0; - 0; - 1; - 1].
  assert (Hk' : IZR k = 0 \/ IZR k = 1).
  { destruct Hk as [<- | [<- | []]]; [now left | now right]. }
  split.
  - exists [IZR k; 0; IZR k; 0]. split; [split|].
    + repeat (apply Forall2_cons; [simpl; destruct Hk' as [Hk' | Hk']; lra|]).
      apply Forall2_nil.
    + intros r Hr. unfold row_value. simpl.
      destruct r as [|[|[|r]]]; simpl; try lia; lra.
    + unfold dot. simpl. lra.
  - intros w [Hb Hrows].
    inversion Hb as [|a ? w1 ? Ha Hb1]; subst.
    inversion Hb1 as [|b ? w2 ? Hb' Hb2]; subst.
    inversion Hb2 as [|c0 ? w3 ? Hc Hb3]; subst.
    inversion Hb3 as [|e ? w4 ? He Hb4]; subst.
    inversion Hb4; subst.
    pose proof (Hrows 0%nat ltac:(lia)) as H0.
    pose proof (Hrows 1%nat ltac:(lia)) as H1.
    pose proof (Hrows 2%nat ltac:(lia)) as H2.
    unfold row_value in H0, H1, H2. simpl in *.
    unfold dot. simpl. lra.
Qed.



Lemma shifted_inverse_partial_witness :
  exists tau,
    compute_tau 8 1 (ln (IZR 2) / ln 10) (1 / 2) = OK tau
    /\ (1 <= tau)%Z
    /\ ((exists k, (0 <= k < 2 * tau)%Z
                   /\ _sensitivity small_solver one_user k
                      = OK (INR (number_of_values one_user))) ->
        shifted_inverse_distinct_count small_solver one_user 8 1 2 (1 / 2) 0 (1 / 2)
        = Raise (ValueError "math domain error"))
    /\ ((forall lp v, problem one_user (Z.of_nat (number_of_users one_user)) = OK lp ->
                      optimum lp v -> small_solver lp = v) ->
        (Z.of_nat (number_of_users one_user) <= 2 * tau - 1)%Z ->
        shifted_inverse_distinct_count small_solver one_user 8 1 2 (1 / 2) 0 (1 / 2)
        = Raise (ValueError "math domain error")).
Proof.
  apply (shifted_inverse_partial small_solver [[0]]%nat one_user
           8 1 2 (1 / 2) 0 (1 / 2));
    [reflexivity | exact one_user_well_formed | lra | lra | lia | lra].
Defined.

(** One user with one value, [tau = 1]: the second turn of the loop keeps
    the user, the sensitivity is the number of values, and the call
    fails. *)
Lemma one_user_domain_error :
  shifted_inverse_distinct_count small_solver one_user 8 1 2 (1 / 2) 0 (1 / 2)
  = Raise (ValueError "math domain error").
Proof.
  apply (shifted_inverse_domain_error small_solver [[0]]%nat);
    [reflexivity | lra | lra | lia | lra |].
  exists 1%Z, 1%Z. split; [exact small_tau|]. split; [lia|].
  rewrite (proj2 (small_sensitivity 1)). reflexivity.
Qed.

End SmallRun.

(** * Further properties *)

(** ** The estimators: bounds, monotonicity and sensitivity *)













(** *** One more user *)

Lemma in_entries_snoc data r i v :
  In (i, v) (entries (data ++ [r]))
  <-> In (i, v) (entries data) \/ (i = length data /\ In v r).
Proof.
  rewrite !in_entries, length_app. simpl. split.
  - intros [Hi Hv]. destruct (Nat.lt_ge_cases i (length data)) as [Hlt | Hge].
    + left. rewrite app_nth1 in Hv by assumption. now split.
    + right. assert (i = length data) by lia. subst i.
      rewrite app_nth2, Nat.sub_diag in Hv by lia. now split.
  - intros [[Hi Hv] | [-> Hv]].
    + split; [lia|]. now rewrite app_nth1.
    + split; [lia|]. now rewrite app_nth2, Nat.sub_diag by lia.
Qed.

Lemma filter_split_length {A : Type} (p : A -> bool) (l : list A) :
  length l = length (filter p l) + length (filter (fun x => negb (p x)) l).
Proof.
  induction l as [|a l IH]; simpl; [reflexivity|].
  destruct (p a); simpl; lia.
Qed.

Lemma NoDup_map_filter {X Y : Type} (key : X -> Y) (keep : X -> bool)
    (xs : list X) (Hkeys : NoDup (map key xs)) :
  NoDup (map key (filter keep xs)).
Proof.
  induction xs as [|x xs IH]; simpl in *; [constructor|].
  inversion Hkeys as [|? ? Hnotin Hnd]; subst.
  destruct (keep x); simpl; [|now apply IH].
  constructor; [|now apply IH].
  intros Hin. apply Hnotin. apply in_map_iff in Hin.
  destruct Hin as (x' & Hx & Hin). apply filter_In in Hin.
  apply in_map_iff. exists x'. tauto.
Qed.

Lemma count_occ_map_filter_le {A : Type} (f : A -> nat) (p : A -> bool)
    (l : list A) (y : nat) :
  count_occ Nat.eq_dec (map f (filter p l)) y <= count_occ Nat.eq_dec (map f l) y.
Proof.
  induction l as [|a l IH]; simpl; [lia|].
  destruct (p a); simpl; destruct (Nat.eq_dec (f a) y); lia.
Qed.

(** X3. Adding one user to a data set raises the matching estimate by
    at most the contribution bound, and by at most the number of values
    the user holds; it never lowers it. *)
Theorem matching_sensitivity data r d d' b :
  DataSet_init data = OK d -> DataSet_init (data ++ [r]) = OK d' ->
  concat data <> [] -> (0 < b)%Z ->
  exists k k',
    matching_distinct_count d b = OK k
    /\ matching_distinct_count d' b = OK k'
    /\ k <= k' <= k + Nat.min (Z.to_nat b) (length r).
Proof.
  intros Hd Hd' Hne Hb.
  assert (Hne' : concat (data ++ [r]) <> []).
  { rewrite concat_app. intros H. apply app_eq_nil in H. now apply Hne. }
  rewrite (matching_distinct_count_ok data d b Hd Hne Hb).
  rewrite (matching_distinct_count_ok (data ++ [r]) d' b Hd' Hne' Hb).
  do 2 eexists. split; [reflexivity|]. split; [reflexivity|].
  set (B := Z.to_nat b). set (n := length data). split.
  - destruct (matching_assignment data B) as (owners & (Hnd & Hent & Hcnt) & <-).
    apply assignment_le_matching. split; [assumption|]. split; [|assumption].
    intros v i Hin. apply in_entries_snoc. left. now apply Hent.
  - destruct (matching_assignment (data ++ [r]) B)
      as (owners & (Hnd & Hent & Hcnt) & <-).
    set (old := fun o : nat * nat => snd o <? n).
    rewrite (filter_split_length old owners).
    apply Nat.add_le_mono.
    + apply assignment_le_matching. split; [|split].
      * now apply NoDup_map_filter.
      * intros v i Hin. apply filter_In in Hin. destruct Hin as [Hin Hold].
        unfold old in Hold. simpl in Hold. apply Nat.ltb_lt in Hold.
        apply Hent, in_entries_snoc in Hin. destruct Hin as [Hin | [Heq _]];
          [assumption | lia].
      * intros i. etransitivity; [apply count_occ_map_filter_le | apply Hcnt].
    + assert (Hnew : forall o, In o (filter (fun x => negb (old x)) owners) ->
                               snd o = n /\ In (fst o) r).
      { intros [v i] Hin. apply filter_In in Hin. destruct Hin as [Hin Hold].
        unfold old in Hold. simpl in Hold. apply negb_true_iff, Nat.ltb_ge in Hold.
        apply Hent, in_entries_snoc in Hin. simpl.
        destruct Hin as [Hin | [Heq Hv]]; [|now split].
        apply in_entries in Hin. fold n in Hin. lia. }
      apply Nat.min_glb.
      * rewrite (filter_ext_in (fun x => negb (old x)) (fun x => snd x =? n)).
        -- rewrite <- count_occ_map_filter. apply Hcnt.
        -- intros [v i] Hin. unfold old. simpl.
           apply Hent, in_entries_snoc in Hin.
           destruct Hin as [Hin | [-> _]].
           ++ apply in_entries in Hin. fold n in Hin.
              destruct (Nat.ltb_spec i n), (Nat.eqb_spec i n); simpl; lia.
           ++ fold n. rewrite Nat.ltb_irrefl, Nat.eqb_refl. reflexivity.
      * rewrite <- (length_map fst). apply NoDup_incl_length.
        -- now apply NoDup_map_filter.
        -- intros v Hv. apply in_map_iff in Hv. destruct Hv as (o & <- & Hin).
           now apply Hnew.
Qed.

Lemma matching_sensitivity_witness :
  exists k k',
    matching_distinct_count
      {| _data := [[0; 1]]; _degree := 2;
         number_of_values := 2; number_of_records := 2 |} 1 = OK k
    /\ matching_distinct_count test_dataset 1 = OK k'
    /\ k <= k' <= k + Nat.min (Z.to_nat 1) (length [2; 1]).
Proof.
  apply (matching_sensitivity [[0; 1]] [2; 1]);
    [reflexivity | reflexivity | discriminate | lia].
Defined.

(** X4. [_sample] draws without replacement: a negative [num] makes
    [random.sample] fail, a [num] above the number of values returns the
    list itself and consumes no randomness, and otherwise the result holds
    exactly [num] entries taken from distinct positions of the list. *)
Theorem sample_without_replacement values num s :
  ((num < 0)%Z -> raises (fst (_sample values num s)))
  /\ ((Z.of_nat (length values) < num)%Z -> _sample values num s = (OK values, s))
  /\ ((0 <= num <= Z.of_nat (length values))%Z ->
      exists xs rest,
        fst (_sample values num s) = OK xs
        /\ length xs = Z.to_nat num
        /\ Permutation (xs ++ rest) values).
Proof.
  unfold _sample, random.sample. split; [|split].
  - intros Hneg.
    destruct (Z.ltb_spec (Z.of_nat (length values)) num) as [H | _]; [lia|].
    destruct (Z.ltb_spec num 0) as [_ | H]; [|lia].
    simpl. now eexists.
  - intros Hbig.
    destruct (Z.ltb_spec (Z.of_nat (length values)) num) as [_ | H]; [reflexivity | lia].
  - intros [Hlo Hhi].
    destruct (Z.ltb_spec (Z.of_nat (length values)) num) as [H | _]; [lia|].
    destruct (Z.ltb_spec num 0) as [H | _]; [lia|]. simpl.
    destruct (select_perm 0 (Z.to_nat num) values s ltac:(lia)) as (rest & Hperm & Hlen).
    destruct (random.select 0 (Z.to_nat num) values s) as [picked s'] eqn:Hsel.
    simpl in *. exists picked, rest. now split; [|split].
Qed.

(** *** Data sets outside the invariants *)

(** The flow matrix of any data set: its shape as the COO constructor
    infers it. *)
Lemma to_flow_matrix_shape m data b :
  data <> [] ->
  exists g,
    _to_flow_matrix m data b = OK g
    /\ nrows g = S (list_max (map (fun _ : nat => 0) (seq 2 (length data))
                                ++ seq (length data + 2) m
                                ++ map (fun e => fst e + 2) (entries data)))
    /\ ncols g = S (list_max (seq 2 (length data)
                                ++ map (fun _ : nat => 1) (seq (length data + 2) m)
                                ++ map (fun e => snd e + length data + 2)
                                       (entries data))).
Proof.
  intros Hne. unfold _to_flow_matrix, csr_matrix_init.
  rewrite !length_app, !length_map, !length_seq, !repeat_length, !Nat.eqb_refl.
  simpl negb. cbv iota.
  destruct (map (fun _ : nat => 0) (seq 2 (length data)) ++ seq (length data + 2) m
              ++ map (fun e => fst e + 2) (entries data)) as [|r0 rows] eqn:Hrows.
  { apply (f_equal (@length nat)) in Hrows.
    rewrite !length_app, !length_map, !length_seq in Hrows.
    destruct data; [contradiction | simpl in Hrows; lia]. }
  eexists. split; [reflexivity|]. split; reflexivity.
Qed.

Lemma flow_rows_bound m data :
  list_max (map (fun _ : nat => 0) (seq 2 (length data))
              ++ seq (length data + 2) m
              ++ map (fun e => fst e + 2) (entries data))
  <= length data + m + 1.
Proof.
  apply list_max_le, Forall_forall. intros x Hx.
  rewrite !in_app_iff, !in_map_iff in Hx.
  destruct Hx as [(u & <- & _) | [Hx | ([i v] & <- & Hin)]].
  - lia.
  - apply in_seq in Hx. lia.
  - apply in_entries in Hin. simpl. lia.
Qed.

(** X5. The flow estimator needs value identifiers [0 .. number_of_values - 1]:
    when some identifier is [number_of_values] or more, the flow matrix is
    not square and [maximum_flow] rejects it, whatever the bound. *)
Theorem flow_needs_contiguous_values data d b v :
  DataSet_init data = OK d ->
  In v (concat data) -> number_of_values d <= v ->
  flow_distinct_count d b
  = Raise (ValueError "graph must be specified as a square matrix.").
Proof.
  intros Hd Hin Hv.
  destruct (DataSet_init_fields data d Hd) as (Hdata & _ & Hnv & Hne).
  unfold flow_distinct_count, as_flow_matrix. rewrite Hdata.
  destruct (to_flow_matrix_shape (number_of_values d) data b Hne)
    as (g & -> & Hrows & Hcols).
  simpl. unfold maximum_flow. simpl (0 =? 1).
  pose proof (flow_rows_bound (number_of_values d) data) as Hr.
  assert (Hc : v + length data + 2
               <= list_max (seq 2 (length data)
                              ++ map (fun _ : nat => 1)
                                     (seq (length data + 2) (number_of_values d))
                              ++ map (fun e => snd e + length data + 2)
                                     (entries data))).
  { apply in_concat_entries in Hin. destruct Hin as (i & Hin).
    apply in_list_max. rewrite !in_app_iff. right. right.
    apply in_map_iff. now exists (i, v). }
  destruct (Nat.eqb_spec (nrows g) (ncols g)) as [Heq | _]; [lia | reflexivity].
Qed.

Lemma flow_needs_contiguous_values_witness :
  exists d,
    DataSet_init [[5]] = OK d
    /\ matching_distinct_count d 1 = OK 1
    /\ flow_distinct_count d 1
       = Raise (ValueError "graph must be specified as a square matrix.").
Proof.
  eexists. split; [reflexivity|]. split; [reflexivity|].
  apply (flow_needs_contiguous_values [[5]] _ 1 5);
    [reflexivity | simpl; auto | simpl; lia].
Defined.

(** X6. A data set whose users hold no value at all: the greedy and the
    sampling estimators return [0], the matching estimator fails because
    the incidence matrix has no entry to infer its shape from, and the flow
    estimator fails because the flow matrix is not square. *)
Theorem no_records data d b s :
  DataSet_init data = OK d -> concat data = [] ->
  greedy_distinct_count d b = 0
  /\ matching_distinct_count d b
     = Raise (ValueError "cannot infer dimensions from zero sized index arrays")
  /\ flow_distinct_count d b
     = Raise (ValueError "graph must be specified as a square matrix.")
  /\ ((0 <= b)%Z -> sampling_distinct_count d b s = OK 0).
Proof.
  intros Hd Hempty.
  destruct (DataSet_init_fields data d Hd) as (Hdata & _ & Hnv & Hne).
  assert (Hentries : entries data = []).
  { apply length_zero_iff_nil. rewrite <- (length_map snd), entries_snd, Hempty.
    reflexivity. }
  assert (Hzero : forall k owners, assignment data k owners -> length owners = 0).
  { intros k owners Hasg. apply assignment_le_values in Hasg.
    rewrite Hempty in Hasg. simpl in Hasg. lia. }
  split; [|split; [|split]].
  - destruct (greedy_assignment data d b Hd) as (owners & Hasg & <-).
    now apply Hzero with (k := Z.to_nat b).
  - unfold matching_distinct_count, as_matrix, _to_matrix. rewrite Hdata, Hentries.
    reflexivity.
  - unfold flow_distinct_count, as_flow_matrix. rewrite Hdata.
    destruct (to_flow_matrix_shape (number_of_values d) data b Hne)
      as (g & -> & Hrows & Hcols).
    simpl. unfold maximum_flow. simpl (0 =? 1).
    rewrite Hnv, Hempty, Hentries in Hrows, Hcols. simpl in Hrows, Hcols.
    rewrite !app_nil_r in Hrows, Hcols.
    assert (Hr : list_max (map (fun _ : nat => 0) (seq 2 (length data))) <= 0).
    { apply list_max_le, Forall_forall. intros x Hx. apply in_map_iff in Hx.
      destruct Hx as (u & <- & _). lia. }
    assert (Hc : 2 <= list_max (seq 2 (length data))).
    { apply in_list_max, in_seq. destruct data; [contradiction | simpl; lia]. }
    destruct (Nat.eqb_spec (nrows g) (ncols g)) as [Heq | _]; [lia | reflexivity].
  - intros Hb.
    destruct (sampling_assignment data d b s Hd Hb) as (owners & Hasg & Hs & _).
    rewrite Hs. f_equal. now apply Hzero with (k := Z.to_nat b).
Qed.

Lemma no_records_witness :
  exists d,
    DataSet_init [[]; []] = OK d
    /\ greedy_distinct_count d 1 = 0
    /\ matching_distinct_count d 1
       = Raise (ValueError "cannot infer dimensions from zero sized index arrays")
    /\ flow_distinct_count d 1
       = Raise (ValueError "graph must be specified as a square matrix.")
    /\ ((0 <= 1)%Z -> sampling_distinct_count d 1 [] = OK 0).
Proof.
  eexists. split; [reflexivity|].
  apply (no_records [[]; []] _ 1 []); reflexivity.
Defined.

(** ** Reading a data set *)

Section Loading.

Import pydict loading.

Lemma get_None (k : string) (m : dict nat) :
  get k m = None <-> ~ In k (map fst m).
Proof.
  induction m as [|[k' v] m IH]; simpl; [tauto|].
  destruct (String.eqb_spec k k') as [-> | Hne].
  - split; [discriminate | intros H; exfalso; apply H; now left].
  - rewrite IH. split.
    + intros H [E | E]; [congruence | auto].
    + intros H E. apply H. now right.
Qed.

Lemma get_Some (k : string) (v : nat) (m : dict nat) :
  NoDup (map fst m) -> (get k m = Some v <-> In (k, v) m).
Proof.
  induction m as [|[k' v'] m IH]; simpl; intros Hnd.
  - split; [discriminate | tauto].
  - inversion Hnd as [|? ? Hnotin Hnd']; subst.
    destruct (String.eqb_spec k k') as [-> | Hne].
    + split.
      * intros [= ->]. now left.
      * intros [[= ->] | Hin]; [reflexivity|].
        exfalso. apply Hnotin. apply in_map_iff. now exists (k', v).
    + rewrite IH by assumption. split; [now right|].
      intros [[= E _] | Hin]; [congruence | assumption].
Qed.

Lemma setitem_fresh (k : string) (v : nat) (m : dict nat) :
  get k m = None -> setitem k v m = m ++ [(k, v)].
Proof.
  induction m as [|[k' v'] m IH]; simpl; [reflexivity|].
  destruct (String.eqb_spec k k'); [discriminate|].
  intros H. now rewrite IH.
Qed.

Lemma In_fst_functional {A B : Type} (l : list (A * B)) k a b :
  NoDup (map fst l) -> In (k, a) l -> In (k, b) l -> a = b.
Proof.
  induction l as [|[x y] l IH]; simpl; [intros _ []|].
  intros Hnd H1 H2. inversion Hnd as [|? ? Hnotin Hnd']; subst.
  destruct H1 as [H1 | H1], H2 as [H2 | H2].
  - congruence.
  - exfalso. apply Hnotin. apply in_map_iff. exists (k, b).
    split; [simpl; congruence | assumption].
  - exfalso. apply Hnotin. apply in_map_iff. exists (k, a).
    split; [simpl; congruence | assumption].
  - now apply IH.
Qed.

Lemma In_snd_functional {A B : Type} (l : list (A * B)) k k' a :
  NoDup (map snd l) -> In (k, a) l -> In (k', a) l -> k = k'.
Proof.
  induction l as [|[x y] l IH]; simpl; [intros _ []|].
  intros Hnd H1 H2. inversion Hnd as [|? ? Hnotin Hnd']; subst.
  destruct H1 as [H1 | H1], H2 as [H2 | H2].
  - congruence.
  - exfalso. apply Hnotin. apply in_map_iff. exists (k', a).
    split; [simpl; congruence | assumption].
  - exfalso. apply Hnotin. apply in_map_iff. exists (k, a).
    split; [simpl; congruence | assumption].
  - now apply IH.
Qed.

Lemma numbered_bound m k i : numbered m -> In (k, i) m -> i < length m.
Proof.
  intros [_ Hsnd] Hin.
  assert (H : In i (map snd m)) by (apply in_map_iff; now exists (k, i)).
  rewrite Hsnd in H. apply in_seq in H. lia.
Qed.

Lemma numbered_key m i : numbered m -> i < length m -> exists k, In (k, i) m.
Proof.
  intros [_ Hsnd] Hi.
  assert (H : In i (map snd m)) by (rewrite Hsnd; apply in_seq; lia).
  apply in_map_iff in H. destruct H as ([k j] & Heq & Hin). simpl in Heq. subst j.
  now exists k.
Qed.

Lemma numbered_nth_error m i k :
  numbered m -> nth_error (map fst m) i = Some k -> In (k, i) m.
Proof.
  intros [_ Hsnd] Hk.
  rewrite nth_error_map in Hk.
  destruct (nth_error m i) as [[k' j]|] eqn:Hnth; [|discriminate].
  simpl in Hk. injection Hk as ->.
  assert (Hj : nth_error (map snd m) i = Some j) by (rewrite nth_error_map, Hnth; reflexivity).
  rewrite Hsnd in Hj.
  assert (Hi : i < length m) by (apply nth_error_Some; congruence).
  rewrite (nth_error_nth' _ 0) in Hj by (rewrite length_seq; lia).
  rewrite seq_nth in Hj by lia. simpl in Hj. injection Hj as <-.
  now apply nth_error_In with (n := i).
Qed.

Lemma intern_spec k m :
  numbered m ->
  exists i,
    numbered (intern k m)
    /\ get k (intern k m) = Some i
    /\ In (k, i) (intern k m)
    /\ (forall x, In x m -> In x (intern k m))
    /\ (forall k0 j, In (k0, j) (intern k m) -> In k0 (map fst m) -> In (k0, j) m)
    /\ (forall k0, In k0 (map fst (intern k m)) <-> In k0 (map fst m) \/ k0 = k)
    /\ ((contains k m = true /\ intern k m = m)
        \/ (contains k m = false /\ intern k m = m ++ [(k, length m)])).
Proof.
  intros Hm. pose proof Hm as [Hnd Hsnd]. unfold intern, contains.
  destruct (get k m) as [i|] eqn:Hget.
  - exists i. split; [assumption|]. split; [assumption|].
    split; [now apply get_Some|]. split; [auto|]. split; [auto|].
    split; [|now left].
    intros k0. split; [now left|]. intros [H | ->]; [assumption|].
    apply get_Some in Hget; [|assumption].
    apply in_map_iff. now exists (k, i).
  - rewrite (setitem_fresh k (length m) m Hget).
    pose proof (proj1 (get_None k m) Hget) as Hfresh.
    assert (Hm' : numbered (m ++ [(k, length m)])).
    { split.
      - rewrite map_app. simpl.
        apply NoDup_app; [assumption | repeat constructor; simpl; tauto |].
        intros x Hx [<- | []]. contradiction.
      - rewrite map_app, length_app, Hsnd. simpl.
        rewrite Nat.add_1_r, seq_S. reflexivity. }
    exists (length m). split; [assumption|].
    assert (Hin : In (k, length m) (m ++ [(k, length m)])).
    { apply in_or_app. right. now left. }
    split; [apply get_Some; [apply Hm' | assumption]|].
    split; [assumption|].
    split; [intros x Hx; apply in_or_app; now left|].
    split.
    + intros k0 j Hj Hk0. apply in_app_or in Hj.
      destruct Hj as [Hj | [[= <- <-] | []]]; [assumption | contradiction].
    + split; [|now right].
      intros k0. rewrite map_app, in_app_iff. simpl.
      split; [intros [H | [<- | []]]; auto | intros [H | ->]; auto].
Qed.

Lemma nth_list_set_any {A : Type} (d : A) (l : list A) : forall i j x,
  i < length l ->
  nth j (distinct_count.list_set l i x) d = if j =? i then x else nth j l d.
Proof.
  induction l as [|h t IH]; intros [|i] [|j] x Hi; simpl in *; try lia; try reflexivity.
  apply IH. lia.
Qed.

Lemma Forall_list_set {A : Type} (P : A -> Prop) (l : list A) : forall i x,
  Forall P l -> P x -> Forall P (distinct_count.list_set l i x).
Proof.
  induction l as [|h t IH]; intros [|i] x Hl Hx; simpl; try constructor;
    inversion Hl; subst; auto.
Qed.

Lemma grouped_nothing : grouped [] no_tables.
Proof.
  unfold grouped, no_tables, numbered. simpl.
  split; [split; [constructor | reflexivity]|].
  split; [split; [constructor | reflexivity]|].
  split; [reflexivity|]. split; [constructor|].
  split; [|split].
  - intros i j. destruct i; simpl; split; try tauto; intros (u & w & [] & _).
  - intros w. split; [tauto | intros (u & [])].
  - intros u. split; [tauto | intros (w & [])].
Qed.

(** One pass through the body of the loaders. *)
Lemma add_record_grouped evs st u w :
  grouped evs st ->
  exists st', add_record u w st = Return st' /\ grouped (evs ++ [(u, w)]) st'.
Proof.
  intros (HW & HU & Hlen & Hnd & Hrows & Hwords & Husers).
  destruct (intern_spec w (word_matching st) HW)
    as (jw & HW' & Hgw & Hinw & Hsubw & Hbackw & Hkeysw & _).
  destruct (intern_spec u (user_matching st) HU)
    as (iu & HU' & Hgu & Hinu & Hsubu & Hbacku & Hkeysu & Hcase).
  set (res' := if contains u (user_matching st) then result st
               else result st ++ [empty_set nat]).
  assert (Hpair :
    match get u (user_matching st) with
    | None => (result st ++ [empty_set nat],
               setitem u (length (user_matching st)) (user_matching st))
    | Some _ => (result st, user_matching st)
    end = (res', intern u (user_matching st))).
  { unfold res', intern, contains. destruct (get u (user_matching st)); reflexivity. }
  assert (Hlen' : length res' = length (intern u (user_matching st))).
  { unfold res'. destruct Hcase as [[-> ->] | [-> ->]]; [assumption|].
    rewrite !length_app. simpl. lia. }
  assert (Hsame : forall i, nth i res' [] = nth i (result st) []).
  { intros i. unfold res'. destruct (contains u (user_matching st)); [reflexivity|].
    destruct (Nat.lt_ge_cases i (length (result st))) as [Hi | Hi].
    - now rewrite app_nth1.
    - rewrite app_nth2, (nth_overflow (result st)) by assumption.
      destruct (i - length (result st)) as [|[|n]]; reflexivity. }
  assert (Hnd' : Forall (@NoDup nat) res').
  { unfold res'. destruct (contains u (user_matching st)); [assumption|].
    apply Forall_app. split; [assumption | repeat constructor]. }
  assert (Hiu : iu < length res').
  { rewrite Hlen'. now apply numbered_bound with (k := u). }
  unfold add_record.
  change (if contains w (word_matching st) then word_matching st
          else setitem w (length (word_matching st)) (word_matching st))
    with (intern w (word_matching st)).
  rewrite Hpair. unfold getitem. rewrite Hgu. simpl and_then.
  destruct (nth_error res' iu) as [record|] eqn:Hnth;
    [|apply nth_error_None in Hnth; lia].
  rewrite Hgw. simpl and_then.
  assert (Hrecord : record = nth iu (result st) []).
  { rewrite <- Hsame. symmetry. now apply nth_error_nth. }
  eexists. split; [reflexivity|].
  unfold grouped. simpl.
  split; [assumption|]. split; [assumption|].
  split; [now rewrite length_list_set|].
  split.
  { apply Forall_list_set; [assumption|].
    apply set_add_nodup. rewrite Hrecord.
    destruct (nth_in_or_default iu (result st) []) as [Hin | ->]; [|constructor].
    rewrite Forall_forall in Hnd. now apply Hnd. }
  assert (Hold : forall u0 w0 i j,
            In (u0, w0) evs ->
            In (u0, i) (intern u (user_matching st)) ->
            In (w0, j) (intern w (word_matching st)) ->
            In j (nth i (result st) [])).
  { intros u0 w0 i j He Hu0 Hw0. apply Hrows. exists u0, w0.
    split; [assumption|]. split.
    - apply Hbacku; [assumption|]. apply Husers. now exists w0.
    - apply Hbackw; [assumption|]. apply Hwords. now exists u0. }
  split; [|split].
  - intros i j. rewrite (nth_list_set_any [] res') by assumption.
    destruct (Nat.eqb_spec i iu) as [-> | Hne].
    + rewrite set_add_iff, Hrecord. split.
      * intros [-> | Hin].
        -- exists u, w. split; [apply in_or_app; right; now left|]. now split.
        -- apply Hrows in Hin. destruct Hin as (u0 & w0 & He & Hu0 & Hw0).
           exists u0, w0. split; [apply in_or_app; now left|]. split; auto.
      * intros (u0 & w0 & He & Hu0 & Hw0). apply in_app_or in He.
        destruct He as [He | [[= <- <-] | []]].
        -- right. now apply (Hold u0 w0).
        -- left. now apply (In_fst_functional (intern w (word_matching st)) w);
             [apply HW' | |].
    + rewrite Hsame. split.
      * intros Hin. apply Hrows in Hin. destruct Hin as (u0 & w0 & He & Hu0 & Hw0).
        exists u0, w0. split; [apply in_or_app; now left|]. split; auto.
      * intros (u0 & w0 & He & Hu0 & Hw0). apply in_app_or in He.
        destruct He as [He | [[= <- <-] | []]].
        -- now apply (Hold u0 w0).
        -- exfalso. apply Hne.
           now apply (In_fst_functional (intern u (user_matching st)) u);
             [apply HU' | |].
  - intros w0. rewrite Hkeysw, Hwords. split.
    + intros [(u0 & He) | ->].
      * exists u0. apply in_or_app. now left.
      * exists u. apply in_or_app. right. now left.
    + intros (u0 & He). apply in_app_or in He.
      destruct He as [He | [[= <- <-] | []]]; [left; now exists u0 | now right].
  - intros u0. rewrite Hkeysu, Husers. split.
    + intros [(w0 & He) | ->].
      * exists w0. apply in_or_app. now left.
      * exists w. apply in_or_app. right. now left.
    + intros (w0 & He). apply in_app_or in He.
      destruct He as [He | [[= <- <-] | []]]; [left; now exists w0 | now right].
Qed.

Lemma add_records_grouped rows : forall evs st,
  grouped evs st ->
  exists st',
    for_each_state (fun row => add_record (fst row) (snd row)) rows st = Return st'
    /\ grouped (evs ++ rows) st'.
Proof.
  induction rows as [|[u w] rows IH]; intros evs st H; simpl.
  - exists st. rewrite app_nil_r. now split.
  - destruct (add_record_grouped evs st u w H) as (st1 & -> & H1). simpl.
    destruct (IH _ _ H1) as (st' & Hst' & H').
    exists st'. split; [assumption|]. now rewrite <- app_assoc in H'.
Qed.

Lemma add_words_grouped u split : forall evs st,
  grouped evs st ->
  exists st',
    for_each_state (add_record u) split st = Return st'
    /\ grouped (evs ++ map (pair u) split) st'.
Proof.
  induction split as [|w split IH]; intros evs st H; simpl.
  - exists st. rewrite app_nil_r. now split.
  - destruct (add_record_grouped evs st u w H) as (st1 & -> & H1). simpl.
    destruct (IH _ _ H1) as (st' & Hst' & H').
    exists st'. split; [assumption|]. now rewrite <- app_assoc in H'.
Qed.

Lemma anonymous_dec line : {anonymous line} + {~ anonymous line}.
Proof.
  destruct line as [|[[ws|]|] [u|]];
    try (right; intros (x & Hx); discriminate).
  left. now exists ws.
Qed.

Lemma read_line_grouped line evs st :
  grouped evs st -> ~ anonymous line ->
  exists st', read_line line st = Return st' /\ grouped (evs ++ events [line]) st'.
Proof.
  intros H Hline. unfold events. simpl. rewrite app_nil_r.
  destruct line as [|[[ws|]|] [u|]]; simpl;
    try (exists st; rewrite app_nil_r; split; [reflexivity | exact H]).
  - now apply add_words_grouped.
  - exfalso. apply Hline. now exists ws.
Qed.

Lemma read_lines_grouped lines : forall evs st,
  grouped evs st -> ~ Exists anonymous lines ->
  exists st',
    for_each_state read_line lines st = Return st'
    /\ grouped (evs ++ events lines) st'.
Proof.
  induction lines as [|line lines IH]; intros evs st H Hlines.
  - exists st. simpl. rewrite app_nil_r. now split.
  - destruct (read_line_grouped line evs st H) as (st1 & Hst1 & H1).
    { intros Ha. apply Hlines. now left. }
    destruct (IH _ _ H1) as (st' & Hst' & H').
    { intros Ha. apply Hlines. now right. }
    exists st'. simpl for_each_state. rewrite Hst1. simpl. split; [assumption|].
    unfold events in *. simpl in *. rewrite app_nil_r, <- app_assoc in H'. exact H'.
Qed.

Lemma read_lines_anonymous lines : forall evs st,
  grouped evs st -> Exists anonymous lines ->
  for_each_state read_line lines st = Throw (KeyError "reviewerID").
Proof.
  induction lines as [|line lines IH]; intros evs st H Hlines;
    [inversion Hlines|].
  simpl. destruct (anonymous_dec line) as [(ws & ->) | Hline]; [reflexivity|].
  destruct (read_line_grouped line evs st H Hline) as (st1 & -> & H1). simpl.
  apply (IH _ _ H1). inversion Hlines; subst; [contradiction | assumption].
Qed.

(** What the data set is built from, whatever pairs came in. *)
Lemma load_outcome (listing : set nat -> list nat) evs st :
  grouped evs st ->
  (evs = [] ->
   lift (DataSet_init (map listing (result st)))
   = Throw (Builtin (ValueError "max() arg is an empty sequence")))
  /\ (evs <> [] ->
      exists d, lift (DataSet_init (map listing (result st))) = Return d).
Proof.
  intros (_ & _ & Hlen & _ & _ & _ & Husers). split.
  - intros ->. destruct (user_matching st) as [|[u i] um] eqn:Hum.
    + destruct (result st); [reflexivity | discriminate].
    + exfalso. destruct (proj1 (Husers u) (or_introl eq_refl)) as (w & []).
  - intros Hne. destruct evs as [|[u w] evs]; [contradiction|].
    assert (Hu : In u (map fst (user_matching st))).
    { apply Husers. exists w. now left. }
    destruct (user_matching st) as [|p um]; [destruct Hu|].
    destruct (result st) as [|r rs]; [discriminate|].
    simpl. now eexists.
Qed.

Section Listing.

Variable listing : set nat -> list nat.
Hypothesis listing_perm : forall s, Permutation (listing s) s.

Lemma listing_nil : listing [] = [].
Proof. apply Permutation_nil, Permutation_sym, listing_perm. Qed.

Lemma listed_rows evs st i j :
  grouped evs st ->
  In j (nth i (map listing (result st)) []) <-> In j (nth i (result st) []).
Proof.
  intros _. rewrite <- listing_nil at 1. rewrite map_nth. split.
  - apply Permutation_in, listing_perm.
  - apply Permutation_in, Permutation_sym, listing_perm.
Qed.

Lemma grouped_row evs st i j :
  grouped evs st -> In j (nth i (result st) []) ->
  i < length (result st) /\ j < length (word_matching st).
Proof.
  intros (HW & HU & Hlen & _ & Hrows & _ & _) Hin. split.
  - destruct (Nat.lt_ge_cases i (length (result st))) as [Hi | Hi]; [assumption|].
    rewrite nth_overflow in Hin by assumption. destruct Hin.
  - apply Hrows in Hin. destruct Hin as (u & w & _ & _ & Hw).
    now apply numbered_bound with (k := w).
Qed.

Lemma grouped_values evs st v :
  grouped evs st ->
  In v (concat (map listing (result st))) <-> v < length (word_matching st).
Proof.
  intros H. pose proof H as (HW & HU & Hlen & _ & Hrows & Hwords & Husers).
  split.
  - intros Hin. apply in_concat in Hin. destruct Hin as (row & Hrow & Hv).
    destruct (In_nth _ _ [] Hrow) as (i & Hi & <-).
    apply (listed_rows evs) in Hv; [|assumption].
    now apply (grouped_row evs st i v).
  - intros Hv. destruct (numbered_key _ v HW Hv) as (w & Hw).
    assert (Hkey : In w (map fst (word_matching st))).
    { apply in_map_iff. now exists (w, v). }
    apply Hwords in Hkey. destruct Hkey as (u & He).
    assert (Hu : In u (map fst (user_matching st))).
    { apply Husers. now exists w. }
    apply in_map_iff in Hu. destruct Hu as ([u' i] & Heq & Hu). simpl in Heq. subst u'.
    assert (Hin : In v (nth i (result st) [])).
    { apply Hrows. now exists u, w. }
    apply in_concat. exists (nth i (map listing (result st)) []). split.
    + apply nth_In. rewrite length_map. now apply (grouped_row evs st i v).
    + now apply (listed_rows evs).
Qed.

Lemma grouped_count evs st :
  grouped evs st ->
  length (nodup Nat.eq_dec (concat (map listing (result st))))
  = length (word_matching st).
Proof.
  intros H. rewrite <- (length_seq (length (word_matching st)) 0).
  apply Permutation_length, NoDup_Permutation.
  - apply NoDup_nodup.
  - apply seq_NoDup.
  - intros v. rewrite nodup_In, (grouped_values evs) by assumption.
    rewrite in_seq. lia.
Qed.

Lemma grouped_well_formed evs st :
  grouped evs st -> evs <> [] ->
  well_formed (map listing (result st))
  /\ Forall (fun r => r <> []) (map listing (result st)).
Proof.
  intros H Hne. pose proof H as (HW & HU & Hlen & Hnd & Hrows & Hwords & Husers).
  assert (Hsome : forall i, i < length (result st) ->
            exists j, In j (nth i (result st) [])).
  { intros i Hi. rewrite Hlen in Hi.
    destruct (numbered_key _ i HU Hi) as (u & Hu).
    assert (Hkey : In u (map fst (user_matching st))).
    { apply in_map_iff. now exists (u, i). }
    apply Husers in Hkey. destruct Hkey as (w & He).
    assert (Hw : In w (map fst (word_matching st))).
    { apply Hwords. now exists u. }
    apply in_map_iff in Hw. destruct Hw as ([w' j] & Heq & Hw). simpl in Heq. subst w'.
    exists j. apply Hrows. now exists u, w. }
  split; [split; [|split]|].
  - apply Forall_forall. intros row Hrow. apply in_map_iff in Hrow.
    destruct Hrow as (r & <- & Hr).
    apply (Permutation_NoDup (Permutation_sym (listing_perm r))).
    rewrite Forall_forall in Hnd. now apply Hnd.
  - intros v Hv. rewrite (grouped_count evs) by assumption.
    now apply (grouped_values evs).
  - assert (Hex : exists u w, In (u, w) evs).
    { destruct evs as [|[u w] evs']; [contradiction|]. exists u, w. now left. }
    destruct Hex as (u & w & He).
    assert (Hw : In w (map fst (word_matching st))).
    { apply Hwords. now exists u. }
    apply in_map_iff in Hw. destruct Hw as ([w' j] & _ & Hw).
    assert (Hin : In j (concat (map listing (result st)))).
    { apply (grouped_values evs st); [exact H|].
      now apply numbered_bound with (k := w'). }
    intros Heq. rewrite Heq in Hin. destruct Hin.
  - apply Forall_forall. intros row Hrow.
    destruct (In_nth _ _ [] Hrow) as (i & Hi & <-).
    rewrite length_map in Hi. destruct (Hsome i Hi) as (j & Hj).
    apply (listed_rows evs) in Hj; [|assumption].
    intros Heq. rewrite Heq in Hj. destruct Hj.
Qed.

End Listing.

(** X7. Whatever the file holds, a data set that [prepare_dataset]
    returns meets the invariants the estimators rely on: no user lists a
    value twice, the value identifiers are [0 .. number_of_values - 1], and
    every user holds at least one value. *)
Theorem prepare_dataset_well_formed listing lines d :
  (forall s, Permutation (listing s) s) ->
  prepare_dataset listing lines = Return d ->
  DataSet_init (_data d) = OK d
  /\ well_formed (_data d)
  /\ Forall (fun r => r <> []) (_data d).
Proof.
  intros Hperm Hrun. unfold prepare_dataset in Hrun.
  destruct (@Exists_dec _ anonymous lines anonymous_dec) as [Ha | Ha].
  - rewrite (read_lines_anonymous lines [] no_tables grouped_nothing Ha) in Hrun.
    discriminate.
  - destruct (read_lines_grouped lines [] no_tables grouped_nothing Ha)
      as (st & Hst & Hg).
    rewrite Hst in Hrun. cbn [and_then] in Hrun. simpl in Hg.
    match type of Hrun with lift ?r = _ => destruct r as [d'|e] eqn:Hinit end;
      simpl in Hrun; [|discriminate].
    injection Hrun as ->.
    destruct (DataSet_init_fields _ _ Hinit) as (Hdata & _ & _ & Hne).
    rewrite Hdata. split; [assumption|].
    apply (grouped_well_formed listing Hperm (events lines) st Hg).
    intros Hev. destruct (load_outcome listing _ _ Hg) as [Hfail _].
    specialize (Hfail Hev). rewrite Hinit in Hfail. discriminate.
Qed.

Lemma prepare_dataset_well_formed_witness :
  DataSet_init (_data review_dataset) = OK review_dataset
  /\ well_formed (_data review_dataset)
  /\ Forall (fun r => r <> []) (_data review_dataset).
Proof.
  apply (prepare_dataset_well_formed (fun s => s) review_lines review_dataset);
    [intros s; apply Permutation_refl | reflexivity].
Defined.

(** X8. The data set [prepare_dataset] returns is the incidence of the
    reviews: users and words are numbered without repetition, user [i]
    holds value [j] exactly when some review of the [i]-th user has the
    [j]-th word, and the numbers of users and of values are the numbers
    of distinct reviewers with a word and of distinct words. *)
Theorem prepare_dataset_incidence listing lines d :
  (forall s, Permutation (listing s) s) ->
  prepare_dataset listing lines = Return d ->
  exists users words : list string,
    NoDup users /\ NoDup words
    /\ length users = number_of_users d
    /\ length words = number_of_values d
    /\ (forall u, In u users <-> exists w, In (u, w) (events lines))
    /\ (forall w, In w words <-> exists u, In (u, w) (events lines))
    /\ forall i j u w,
         nth_error users i = Some u -> nth_error words j = Some w ->
         (In j (nth i (_data d) []) <-> In (u, w) (events lines)).
Proof.
  intros Hperm Hrun. unfold prepare_dataset in Hrun.
  destruct (@Exists_dec _ anonymous lines anonymous_dec) as [Ha | Ha].
  { rewrite (read_lines_anonymous lines [] no_tables grouped_nothing Ha) in Hrun.
    discriminate. }
  destruct (read_lines_grouped lines [] no_tables grouped_nothing Ha)
    as (st & Hst & Hg).
  rewrite Hst in Hrun. cbn [and_then] in Hrun. simpl in Hg.
  match type of Hrun with lift ?r = _ => destruct r as [d'|e] eqn:Hinit end;
    simpl in Hrun; [|discriminate].
  injection Hrun as ->.
  destruct (DataSet_init_fields _ _ Hinit) as (Hdata & _ & Hnv & _).
  pose proof Hg as (HW & HU & Hlen & _ & Hrows & Hwords & Husers).
  exists (map fst (user_matching st)), (map fst (word_matching st)).
  split; [apply HU|]. split; [apply HW|].
  split; [unfold number_of_users; now rewrite Hdata, !length_map|].
  split; [rewrite Hnv, length_map; symmetry;
          now apply (grouped_count listing Hperm (events lines))|].
  split; [assumption|]. split; [assumption|].
  intros i j u w Hu Hw.
  apply numbered_nth_error in Hu; [|assumption].
  apply numbered_nth_error in Hw; [|assumption].
  rewrite Hdata, (listed_rows listing Hperm (events lines)), Hrows by assumption.
  split.
  - intros (u0 & w0 & He & Hu0 & Hw0).
    assert (u0 = u).
    { apply (In_snd_functional (user_matching st) u0 u i); try assumption.
      destruct HU as [_ ->]. apply seq_NoDup. }
    assert (w0 = w).
    { apply (In_snd_functional (word_matching st) w0 w j); try assumption.
      destruct HW as [_ ->]. apply seq_NoDup. }
    now subst.
  - intros He. now exists u, w.
Qed.

Lemma prepare_dataset_incidence_witness :
  exists users words : list string,
    NoDup users /\ NoDup words
    /\ length users = number_of_users review_dataset
    /\ length words = number_of_values review_dataset
    /\ (forall u, In u users <-> exists w, In (u, w) (events review_lines))
    /\ (forall w, In w words <-> exists u, In (u, w) (events review_lines))
    /\ forall i j u w,
         nth_error users i = Some u -> nth_error words j = Some w ->
         (In j (nth i (_data review_dataset) []) <-> In (u, w) (events review_lines)).
Proof.
  apply (prepare_dataset_incidence (fun s => s) review_lines review_dataset);
    [intros s; apply Permutation_refl | reflexivity].
Defined.


Lemma DataSet_init_records data d :
  DataSet_init data = OK d ->
  number_of_records d = list_sum (map (@length nat) data).
Proof.
  destruct data as [|r data]; [discriminate|]. simpl.
  intros [= <-]. reflexivity.
Qed.

Lemma numbered_nth m k i :
  numbered m -> In (k, i) m -> nth i (map fst m) "" = k.
Proof.
  intros Hm Hin. pose proof Hm as [_ Hsnd].
  destruct (In_nth_error _ _ Hin) as (n & Hn).
  assert (Hlt : n < length m) by (apply nth_error_Some; congruence).
  assert (Hi : nth_error (map snd m) n = Some i)
    by (rewrite nth_error_map, Hn; reflexivity).
  rewrite Hsnd, (nth_error_nth' _ 0) in Hi by (rewrite length_seq; lia).
  rewrite seq_nth in Hi by lia. simpl in Hi. injection Hi as ->.
  apply nth_error_nth. rewrite nth_error_map, Hn. reflexivity.
Qed.

(** X10. [tpch._prepare_dataset] groups the rows of a data frame by
    user: the data set is well formed, it has one user per distinct user
    key, one value per distinct value key, and one record per distinct
    row, so that repeated rows count once. *)
Theorem tpch_prepare_dataset listing rows :
  (forall s, Permutation (listing s) s) -> rows <> [] ->
  exists d,
    _prepare_dataset listing rows = Return d
    /\ well_formed (_data d)
    /\ number_of_users d = length (nodup string_dec (map fst rows))
    /\ number_of_values d = length (nodup string_dec (map snd rows))
    /\ exists distinct,
         NoDup distinct
         /\ (forall p, In p distinct <-> In p rows)
         /\ number_of_records d = length distinct.
Proof.
  intros Hperm Hne. unfold _prepare_dataset.
  destruct (add_records_grouped rows [] no_tables grouped_nothing)
    as (st & -> & Hg).
  simpl in Hg. simpl and_then.
  destruct (load_outcome listing rows st Hg) as [_ Hok].
  destruct (Hok Hne) as (d & Hd). rewrite Hd. exists d. split; [reflexivity|].
  match type of Hd with lift ?r = _ => destruct r as [d'|e] eqn:Hinit end;
    simpl in Hd; [|discriminate].
  injection Hd as ->.
  destruct (DataSet_init_fields _ _ Hinit) as (Hdata & _ & Hnv & _).
  destruct (grouped_well_formed listing Hperm rows st Hg Hne) as [Hwf _].
  pose proof Hg as (HW & HU & Hlen & _ & Hrows & Hwords & Husers).
  rewrite Hdata. split; [assumption|]. split; [|split].
  - unfold number_of_users. rewrite Hdata, length_map, Hlen.
    rewrite <- (length_map fst). apply Permutation_length, NoDup_Permutation.
    + apply HU.
    + apply NoDup_nodup.
    + intros u. rewrite nodup_In, Husers, in_map_iff. split.
      * intros (w & He). now exists (u, w).
      * intros ([u' w] & <- & He). now exists w.
  - rewrite Hnv, (grouped_count listing Hperm rows) by assumption.
    rewrite <- (length_map fst). apply Permutation_length, NoDup_Permutation.
    + apply HW.
    + apply NoDup_nodup.
    + intros w. rewrite nodup_In, Hwords, in_map_iff. split.
      * intros (u & He). now exists (u, w).
      * intros ([u w'] & <- & He). now exists u.
  - set (data := map listing (result st)) in *.
    set (f := fun e : nat * nat =>
                (nth (fst e) (map fst (user_matching st)) "",
                 nth (snd e) (map fst (word_matching st)) "")).
    assert (Hentry : forall i j, In (i, j) (entries data) ->
              exists u w, In (u, w) rows /\ In (u, i) (user_matching st)
                          /\ In (w, j) (word_matching st) /\ f (i, j) = (u, w)).
    { intros i j Hin. apply in_entries in Hin. destruct Hin as [_ Hin].
      unfold data in Hin. apply (listed_rows listing Hperm rows) in Hin; [|assumption].
      apply Hrows in Hin. destruct Hin as (u & w & He & Hu & Hw).
      exists u, w. split; [assumption|]. split; [assumption|]. split; [assumption|].
      unfold f. simpl. f_equal; now apply numbered_nth. }
    exists (map f (entries data)). split; [|split].
    + apply NoDup_map_NoDup_ForallPairs.
      * intros [i j] [i' j'] H1 H2 Heq.
        destruct (Hentry i j H1) as (u & w & _ & Hu & Hw & Hf).
        destruct (Hentry i' j' H2) as (u' & w' & _ & Hu' & Hw' & Hf').
        rewrite Hf, Hf' in Heq. injection Heq as <- <-.
        f_equal.
        -- apply (In_fst_functional (user_matching st) u); [apply HU | |]; assumption.
        -- apply (In_fst_functional (word_matching st) w); [apply HW | |]; assumption.
      * apply entries_NoDup. apply Hwf.
    + intros [u w]. rewrite in_map_iff. split.
      * intros ([i j] & Hf & Hin).
        destruct (Hentry i j Hin) as (u' & w' & He & _ & _ & Hf').
        rewrite Hf' in Hf. now injection Hf as <- <-.
      * intros He.
        assert (Hu : In u (map fst (user_matching st))) by (apply Husers; now exists w).
        assert (Hw : In w (map fst (word_matching st))) by (apply Hwords; now exists u).
        apply in_map_iff in Hu. destruct Hu as ([u' i] & Heq & Hu). simpl in Heq. subst u'.
        apply in_map_iff in Hw. destruct Hw as ([w' j] & Heq & Hw). simpl in Heq. subst w'.
        exists (i, j). split.
        -- unfold f. simpl. f_equal; now apply numbered_nth.
        -- assert (Hin : In j (nth i (result st) [])) by (apply Hrows; now exists u, w).
           apply in_entries. split.
           ++ unfold data. rewrite length_map.
              now apply (grouped_row rows st i j).
           ++ unfold data. now apply (listed_rows listing Hperm rows).
    + rewrite length_map, length_entries. now apply DataSet_init_records.
Qed.

Lemma tpch_prepare_dataset_witness :
  exists d,
    _prepare_dataset (fun s => s)
      [("ann", "good"); ("bob", "good"); ("ann", "good"); ("ann", "bad")] = Return d
    /\ well_formed (_data d)
    /\ number_of_users d
       = length (nodup string_dec
                   (map fst [("ann", "good"); ("bob", "good");
                             ("ann", "good"); ("ann", "bad")]))
    /\ number_of_values d
       = length (nodup string_dec
                   (map snd [("ann", "good"); ("bob", "good");
                             ("ann", "good"); ("ann", "bad")]))
    /\ exists distinct,
         NoDup distinct
         /\ (forall p, In p distinct
                       <-> In p [("ann", "good"); ("bob", "good");
                                 ("ann", "good"); ("ann", "bad")])
         /\ number_of_records d = length distinct.
Proof.
  apply (tpch_prepare_dataset (fun s => s));
    [intros s; apply Permutation_refl | discriminate].
Defined.

End Loading.

(** ** The selector: what the scores are *)

Section SelectorScores.

Import pymath diffprivlib selection dp.
Local Open Scope R_scope.

Lemma ratio_sign N D : 0 < D -> (N / D <= 0 <-> N <= 0).
Proof.
  intros HD. pose proof (Rinv_0_lt_compat D HD) as Hinv. unfold Rdiv. split.
  - intros H. replace N with (N * / D * D) by (field; lra). nra.
  - intros H. nra.
Qed.

Lemma nth_shifted (u : list R) lowest j :
  (j < length u)%nat -> nth j (map (fun x => x - lowest) u) 0 = nth j u 0 - lowest.
Proof.
  intros Hj.
  rewrite (nth_indep _ 0 (0 - lowest)) by now rewrite length_map.
  apply (map_nth (fun x => x - lowest)).
Qed.

Lemma greatest_list (u : list R) :
  u <> [] -> exists top, In top u /\ forall y, In y u -> y <= top.
Proof.
  intros Hu.
  assert (Hk : (0 < length u)%nat) by (destruct u; [congruence | simpl; lia]).
  destruct (max_greatest (fun j => nth j u 0) (length u) Hk)
    as (top & _ & (j & Hj & Htop) & Hall).
  exists top. split.
  - rewrite <- Htop. now apply nth_In.
  - intros y Hy. destruct (In_nth u y 0 Hy) as (i & Hi & <-). now apply Hall.
Qed.

(** X11. The scores the selector hands to the exponential mechanism are
    never positive, and a candidate scores [0] exactly when it maximises
    [utility - sensitivity * t], for [t = 2 ln(k / beta) / epsilon]. *)
Theorem selector_scores eps beta u s :
  0 < eps -> 0 < beta < 1 -> u <> [] -> length s = length u ->
  Forall (fun x => 0 < x) s ->
  exists ge,
    GeneralizedExponential_init eps beta (Sequence s) u = OK ge
    /\ forall i, (i < length u)%nat ->
         nth i (utility (mechanism ge)) 0 <= 0
         /\ (nth i (utility (mechanism ge)) 0 = 0
             <-> forall j, (j < length u)%nat ->
                   nth j u 0 - nth j s 0 * spec_t (length u) beta eps
                   <= nth i u 0 - nth i s 0 * spec_t (length u) beta eps).
Proof.
  intros Heps Hbeta Hu Hlen Hpos.
  destruct (selector_init_spec eps beta u s Heps Hbeta Hu Hlen Hpos)
    as (w & Hinit & (lowest & _ & _ & _ & Hw)).
  eexists. split; [exact Hinit|]. simpl. intros i Hi.
  destruct (Hw i Hi) as (M & ((j0 & Hj0 & HM) & Hall) & ->).
  set (t := spec_t (length u) beta eps) in *.
  rewrite Forall_forall in Hpos.
  assert (Hs : forall j, (j < length u)%nat -> 0 < nth j s 0).
  { intros j Hj. apply Hpos, nth_In. lia. }
  assert (Hratio : forall j, (j < length u)%nat ->
            spec_ratio t (map (fun x => x - lowest) u) s i j
            = ((nth j u 0 - nth j s 0 * t) - (nth i u 0 - nth i s 0 * t))
              / (nth i s 0 + nth j s 0)).
  { intros j Hj. unfold spec_ratio. rewrite !nth_shifted by assumption.
    f_equal. lra. }
  assert (Hzero : 0 <= M).
  { specialize (Hall i Hi). rewrite Hratio in Hall by assumption.
    replace (nth i u 0 - nth i s 0 * t - (nth i u 0 - nth i s 0 * t)) with 0 in Hall
      by lra.
    unfold Rdiv in Hall. now rewrite Rmult_0_l in Hall. }
  split; [lra|]. split.
  - intros HM0 j Hj. assert (HMz : M = 0) by lra.
    specialize (Hall j Hj). rewrite Hratio, HMz in Hall by assumption.
    apply ratio_sign in Hall; [lra|].
    pose proof (Hs i Hi). pose proof (Hs j Hj). lra.
  - intros Hbest. specialize (Hbest j0 Hj0).
    rewrite Hratio in HM by assumption.
    assert (M <= 0); [|lra].
    rewrite <- HM. apply ratio_sign; [|lra].
    pose proof (Hs i Hi). pose proof (Hs j0 Hj0). lra.
Qed.

Lemma selector_scores_witness :
  exists ge,
    GeneralizedExponential_init 1 (1 / 2) (Sequence [5; 7]) [3; 4] = OK ge
    /\ forall i, (i < length [3; 4])%nat ->
         nth i (utility (mechanism ge)) 0 <= 0
         /\ (nth i (utility (mechanism ge)) 0 = 0
             <-> forall j, (j < length [3; 4])%nat ->
                   nth j [3; 4] 0 - nth j [5; 7] 0 * spec_t (length [3; 4]) (1 / 2) 1
                   <= nth i [3; 4] 0
                      - nth i [5; 7] 0 * spec_t (length [3; 4]) (1 / 2) 1).
Proof.
  apply (selector_scores 1 (1 / 2) [3; 4] [5; 7]);
    [lra | lra | discriminate | reflexivity | repeat constructor; lra].
Defined.

(** X12. With one sensitivity [x > 0] for all candidates the parameter
    [t] cancels: the score of candidate [i] is [(utility[i] - max) / (2 x)],
    the score of the ordinary exponential mechanism. *)
Theorem scalar_sensitivity_scores eps beta x u :
  0 < eps -> 0 < beta < 1 -> u <> [] -> 0 < x ->
  exists ge top,
    GeneralizedExponential_init eps beta (Scalar x) u = OK ge
    /\ In top u /\ (forall y, In y u -> y <= top)
    /\ length (utility (mechanism ge)) = length u
    /\ forall i, (i < length u)%nat ->
         nth i (utility (mechanism ge)) 0 = (nth i u 0 - top) / (2 * x).
Proof.
  intros Heps Hbeta Hu Hx.
  change (GeneralizedExponential_init eps beta (Scalar x) u)
    with (GeneralizedExponential_init eps beta (Sequence (repeat x (length u))) u).
  destruct (selector_init_spec eps beta u (repeat x (length u)) Heps Hbeta Hu)
    as (w & Hinit & (lowest & _ & _ & Hwlen & Hw)).
  { apply repeat_length. }
  { apply Forall_forall. intros y Hy. apply repeat_spec in Hy. now subst. }
  destruct (greatest_list u Hu) as (top & Htop & Hmax).
  eexists. exists top. split; [exact Hinit|]. simpl.
  split; [assumption|]. split; [assumption|]. split; [assumption|].
  intros i Hi.
  destruct (Hw i Hi) as (M & ((j0 & Hj0 & HM) & Hall) & ->).
  assert (Hs : forall j, (j < length u)%nat -> nth j (repeat x (length u)) 0 = x).
  { intros j Hj. apply (repeat_spec (length u) x). apply nth_In.
    now rewrite repeat_length. }
  assert (Hratio : forall j, (j < length u)%nat ->
            spec_ratio (spec_t (length u) beta eps)
                       (map (fun y => y - lowest) u) (repeat x (length u)) i j
            = (nth j u 0 - nth i u 0) / (2 * x)).
  { intros j Hj. unfold spec_ratio.
    rewrite !nth_shifted, !Hs by assumption. f_equal; lra. }
  destruct (In_nth u top 0 Htop) as (jt & Hjt & Hnth).
  assert (Hx2 : 0 < / (2 * x)) by (apply Rinv_0_lt_compat; lra).
  assert (Hle : M <= (top - nth i u 0) / (2 * x)).
  { rewrite <- HM, Hratio by assumption. unfold Rdiv.
    apply Rmult_le_compat_r; [lra|].
    assert (nth j0 u 0 <= top) by (apply Hmax, nth_In; assumption). lra. }
  assert (Hge : (top - nth i u 0) / (2 * x) <= M).
  { rewrite <- Hnth, <- Hratio by assumption. now apply Hall. }
  unfold Rdiv in *. nra.
Qed.

Lemma scalar_sensitivity_scores_witness :
  exists ge top,
    GeneralizedExponential_init 1 (1 / 2) (Scalar 1) [3; 4] = OK ge
    /\ In top [3; 4] /\ (forall y, In y [3; 4] -> y <= top)
    /\ length (utility (mechanism ge)) = length [3; 4]
    /\ forall i, (i < length [3; 4])%nat ->
         nth i (utility (mechanism ge)) 0 = (nth i [3; 4] 0 - top) / (2 * 1).
Proof.
  apply (scalar_sensitivity_scores 1 (1 / 2) 1 [3; 4]);
    [lra | lra | discriminate | lra].
Defined.

Lemma fold_Rmin_shift c rest : forall x,
  fold_left Rmin (map (fun y => y + c) rest) (x + c) = fold_left Rmin rest x + c.
Proof.
  induction rest as [|y rest IH]; intros x; simpl; [reflexivity|].
  replace (Rmin (x + c) (y + c)) with (Rmin x y + c); [apply IH|].
  unfold Rmin. destruct (Rle_dec x y), (Rle_dec (x + c) (y + c)); lra.
Qed.

(** X13. Adding the same constant to every utility changes nothing: the
    constructor subtracts the least utility first. *)
Theorem selector_shift_invariant eps beta sens u c :
  GeneralizedExponential_init eps beta sens (map (fun y => y + c) u)
  = GeneralizedExponential_init eps beta sens u.
Proof.
  unfold GeneralizedExponential_init. rewrite !length_map.
  destruct (negb _); [reflexivity|].
  destruct (in_dec _ _ _); [reflexivity|].
  destruct (div (INR (length u)) beta) as [ratio|e]; [|reflexivity]. cbn [bind].
  destruct (log ratio) as [logarithm|e]; [|reflexivity]. cbn [bind].
  destruct (div (2 * logarithm) eps) as [t|e]; [|reflexivity]. cbn [bind].
  assert (Hmin : min (map (fun y => y + c) u)
                 = match min u with OK m => OK (m + c) | Raise e => Raise e end).
  { destruct u as [|x rest]; [reflexivity|]. cbn [min map].
    now rewrite fold_Rmin_shift. }
  rewrite Hmin. destruct (min u) as [m|e]; [|reflexivity]. cbn [bind].
  rewrite !length_map.
  replace (map (fun u0 => u0 - (m + c)) (map (fun y => y + c) u))
    with (map (fun u0 => u0 - m) u); [reflexivity|].
  rewrite map_map. apply map_ext. intros a. lra.
Qed.

(** X14. Arguments the constructor cannot work with.  An empty utility
    list makes [math.log] fail on [0]; [beta = 0] and [epsilon = 0] divide
    by zero; a negative [beta] makes [math.log] fail. *)
Theorem selector_argument_errors eps beta s u :
  length s = length u -> ~ In 0 s ->
  (u = [] -> beta <> 0 ->
   GeneralizedExponential_init eps beta (Sequence s) u
   = Raise (ValueError "math domain error"))
  /\ (beta = 0 ->
      GeneralizedExponential_init eps beta (Sequence s) u = Raise ZeroDivisionError)
  /\ (u <> [] -> beta < 0 ->
      GeneralizedExponential_init eps beta (Sequence s) u
      = Raise (ValueError "math domain error"))
  /\ (u <> [] -> 0 < beta -> eps = 0 ->
      GeneralizedExponential_init eps beta (Sequence s) u = Raise ZeroDivisionError).
Proof.
  intros Hlen Hzero. unfold GeneralizedExponential_init.
  rewrite Hlen, Nat.eqb_refl. simpl negb. cbv iota.
  destruct (in_dec Req_dec_T 0 s) as [Hin | _]; [contradiction|].
  assert (Hk : u <> [] -> 0 < INR (length u)).
  { intros Hu. apply lt_0_INR. destruct u; [congruence | simpl; lia]. }
  split; [|split; [|split]].
  - intros -> Hbeta. rewrite div_OK by assumption. simpl.
    unfold log. unfold Rdiv. rewrite Rmult_0_l.
    destruct (Rle_dec 0 0); [reflexivity | lra].
  - intros ->. unfold div. destruct (Req_dec_T 0 0); [reflexivity | lra].
  - intros Hu Hbeta. rewrite div_OK by lra. simpl.
    unfold log. destruct (Rle_dec (INR (length u) / beta) 0) as [_ | Hpos];
      [reflexivity|].
    exfalso. apply Hpos. specialize (Hk Hu).
    pose proof (Rinv_lt_0_compat beta Hbeta). unfold Rdiv. nra.
  - intros Hu Hbeta ->. rewrite div_OK by lra. simpl.
    rewrite log_OK by (apply Rdiv_lt_0_compat; auto). simpl.
    unfold div. destruct (Req_dec_T 0 0); [reflexivity | lra].
Qed.

Lemma selector_argument_errors_witness :
  GeneralizedExponential_init 1 1 (Sequence []) []
  = Raise (ValueError "math domain error")
  /\ GeneralizedExponential_init 1 0 (Sequence [1]) [3] = Raise ZeroDivisionError
  /\ GeneralizedExponential_init 1 (-1) (Sequence [1]) [3]
     = Raise (ValueError "math domain error")
  /\ GeneralizedExponential_init 0 1 (Sequence [1]) [3] = Raise ZeroDivisionError.
Proof.
  assert (Hs : ~ In 0 [1]) by (simpl; intros [H | []]; lra).
  split; [|split; [|split]].
  - destruct (selector_argument_errors 1 1 [] [] eq_refl (fun H => H))
      as (H & _). apply H; [reflexivity | lra].
  - destruct (selector_argument_errors 1 0 [1] [3] eq_refl Hs)
      as (_ & H & _). apply H. reflexivity.
  - destruct (selector_argument_errors 1 (-1) [1] [3] eq_refl Hs)
      as (_ & _ & H & _). apply H; [discriminate | lra].
  - destruct (selector_argument_errors 0 1 [1] [3] eq_refl Hs)
      as (_ & _ & _ & H). apply H; [discriminate | lra | reflexivity].
Defined.

End SelectorScores.

(** ** The shape of a list of counts *)

Section Shape.

Import dp_shape.
Local Open Scope R_scope.

Lemma max_index_scan (l : list R) k :
  (0 < length l)%nat -> (k <= length l)%nat ->
  let st := fold_left (max_step l) (seq 0 k) (nth 0 l 0, 0%nat) in
  fst st = nth (snd st) l 0
  /\ (snd st < length l)%nat
  /\ (forall j, (j < k)%nat -> nth j l 0 <= fst st)
  /\ (forall j, (j < snd st)%nat -> nth j l 0 < fst st).
Proof.
  intros Hl. induction k as [|k IH]; intros Hk.
  - simpl. split; [reflexivity|]. split; [assumption|]. split; intros j Hj; lia.
  - rewrite seq_S, fold_left_app. simpl fold_left.
    destruct (IH ltac:(lia)) as (Hval & Hidx & Hle & Hlt). simpl in Hval, Hidx, Hle, Hlt.
    destruct (fold_left (max_step l) (seq 0 k) (nth 0 l 0, 0%nat)) as [v p].
    simpl in *. destruct (Rgt_dec (nth k l 0) v) as [Hgt | Hngt]; simpl.
    + split; [reflexivity|]. split; [lia|]. split.
      * intros j Hj. destruct (Nat.eq_dec j k) as [-> | Hne]; [lra|].
        specialize (Hle j ltac:(lia)). lra.
      * intros j Hj. specialize (Hle j Hj). lra.
    + split; [assumption|]. split; [assumption|]. split; [|assumption].
      intros j Hj. destruct (Nat.eq_dec j k) as [-> | Hne]; [lra|].
      apply Hle. lia.
Qed.

Lemma max_index_spec (l : list R) :
  l <> [] ->
  exists p,
    _max_index l = Return p /\ (p < length l)%nat
    /\ (forall j, (j < length l)%nat -> nth j l 0 <= nth p l 0)
    /\ (forall j, (j < p)%nat -> nth j l 0 < nth p l 0).
Proof.
  intros Hl. destruct l as [|first rest] eqn:Heq; [congruence|]. rewrite <- Heq.
  assert (Hlen : (0 < length l)%nat) by (subst l; simpl; lia).
  destruct (max_index_scan l (length l) Hlen (Nat.le_refl _)) as (Hval & Hidx & Hle & Hlt).
  exists (snd (fold_left (max_step l) (seq 0 (length l)) (nth 0 l 0, 0%nat))).
  split.
  - subst l. reflexivity.
  - rewrite <- Hval. now split; [|split].
Qed.

(** X15. [_max_index] fails on an empty list, and otherwise returns the
    position of the first greatest entry. *)
Theorem max_index_first_maximum (l : list R) :
  (l = [] -> _max_index l = Throw (IndexError "list index out of range"))
  /\ (l <> [] ->
      exists p,
        _max_index l = Return p /\ (p < length l)%nat
        /\ (forall j, (j < length l)%nat -> nth j l 0 <= nth p l 0)
        /\ (forall j, (j < p)%nat -> nth j l 0 < nth p l 0)).
Proof.
  split.
  - intros ->. reflexivity.
  - intros Hl. destruct (max_index_spec l Hl) as (p & Hp & Hlt & Hmax & Hfirst).
    exists p. now split; [|split; [|split]].
Qed.

(** Steps that do not go down add up. *)
Lemma chain_le (f : nat -> R) a b :
  (forall i, (a < i <= b)%nat -> f (i - 1)%nat <= f i) ->
  forall i j, (a <= i)%nat -> (i <= j)%nat -> (j <= b)%nat -> f i <= f j.
Proof.
  intros Hstep i j Hai Hij. induction Hij as [|j Hij IH]; intros Hjb; [lra|].
  specialize (IH ltac:(lia)). specialize (Hstep (S j) ltac:(lia)).
  replace (S j - 1)%nat with j in Hstep by lia. lra.
Qed.

Lemma no_step_down (l : list R) start len :
  forallb (fun i => if Rlt_dec (nth i l 0) (nth (i - 1) l 0) then false else true)
          (seq start len) = true
  <-> forall i, (start <= i < start + len)%nat -> nth (i - 1) l 0 <= nth i l 0.
Proof.
  rewrite forallb_forall. split.
  - intros H i Hi. specialize (H i ltac:(apply in_seq; lia)).
    destruct (Rlt_dec (nth i l 0) (nth (i - 1) l 0)); [discriminate | lra].
  - intros H i Hi. apply in_seq in Hi. specialize (H i Hi).
    destruct (Rlt_dec (nth i l 0) (nth (i - 1) l 0)); [lra | reflexivity].
Qed.

Lemma no_step_up (l : list R) start len :
  forallb (fun i => if Rgt_dec (nth i l 0) (nth (i - 1) l 0) then false else true)
          (seq start len) = true
  <-> forall i, (start <= i < start + len)%nat -> nth i l 0 <= nth (i - 1) l 0.
Proof.
  rewrite forallb_forall. split.
  - intros H i Hi. specialize (H i ltac:(apply in_seq; lia)).
    destruct (Rgt_dec (nth i l 0) (nth (i - 1) l 0)); [discriminate | lra].
  - intros H i Hi. apply in_seq in Hi. specialize (H i Hi).
    destruct (Rgt_dec (nth i l 0) (nth (i - 1) l 0)); [lra | reflexivity].
Qed.

(** X16. [_is_sorted] answers whether the list is non-decreasing: it
    compares neighbours, which decides the order of every two entries. *)
Theorem is_sorted_iff (l : list R) :
  _is_sorted l = true
  <-> forall i j, (i <= j)%nat -> (j < length l)%nat -> nth i l 0 <= nth j l 0.
Proof.
  unfold _is_sorted. rewrite no_step_down. split.
  - intros H i j Hij Hj.
    apply (chain_le (fun i => nth i l 0) 0 (length l - 1)); try lia.
    intros k Hk. apply H. lia.
  - intros H i Hi. apply H; lia.
Qed.

Lemma is_concave_spec (l : list R) p :
  _max_index l = Return p -> (p < length l)%nat ->
  _is_concave l
  = Return (forallb
              (fun i => if Rlt_dec (nth i l 0) (nth (i - 1) l 0) then false else true)
              (seq 1 p)
            && forallb
                 (fun i => if Rgt_dec (nth i l 0) (nth (i - 1) l 0) then false else true)
                 (seq (p + 1) (length l - (p + 1)))).
Proof. intros Hp _. unfold _is_concave. now rewrite Hp. Qed.

(** X17. [_is_concave] fails on an empty list; on any other list it
    answers whether the list is unimodal, that is, whether it does not
    decrease up to some position and does not increase from there on. *)
Theorem is_concave_unimodal (l : list R) :
  (l = [] -> _is_concave l = Throw (IndexError "list index out of range"))
  /\ (l <> [] ->
      exists b,
        _is_concave l = Return b
        /\ (b = true
            <-> exists p,
                  (p < length l)%nat
                  /\ (forall i j, (i <= j)%nat -> (j <= p)%nat ->
                                  nth i l 0 <= nth j l 0)
                  /\ (forall i j, (p <= i)%nat -> (i <= j)%nat -> (j < length l)%nat ->
                                  nth j l 0 <= nth i l 0))).
Proof.
  split; [intros ->; reflexivity|].
  intros Hl. destruct (max_index_spec l Hl) as (p & Hp & Hlt & Hmax & Hfirst).
  rewrite (is_concave_spec l p Hp Hlt). eexists. split; [reflexivity|].
  rewrite andb_true_iff, no_step_down, no_step_up. split.
  - intros [Hup Hdown]. exists p. split; [assumption|]. split.
    + intros i j Hij Hj.
      apply (chain_le (fun i => nth i l 0) 0 p); try lia.
      intros k Hk. apply Hup. lia.
    + intros i j Hi Hij Hj.
      assert (H : - nth i l 0 <= - nth j l 0); [|lra].
      apply (chain_le (fun i => - nth i l 0) p (length l - 1)); try lia.
      intros k Hk. specialize (Hdown k ltac:(lia)). lra.
  - intros (q & Hq & Hup & Hdown).
    assert (Htop : forall j, (j < length l)%nat -> nth j l 0 <= nth q l 0).
    { intros j Hj. destruct (Nat.le_ge_cases j q); [apply Hup | apply Hdown]; lia. }
    assert (Hpq : (p <= q)%nat).
    { destruct (Nat.le_gt_cases p q) as [H | H]; [assumption|].
      specialize (Hfirst q H). specialize (Htop p Hlt). lra. }
    split.
    + intros i Hi. apply Hup; lia.
    + intros i Hi. destruct (Nat.le_gt_cases q (i - 1)) as [H | H].
      * apply Hdown; lia.
      * assert (nth i l 0 <= nth q l 0) by (apply Hup; lia).
        assert (nth p l 0 <= nth (i - 1) l 0) by (apply Hup; lia).
        specialize (Hmax q Hq). lra.
Qed.

(** X18. A list [_is_sorted] accepts is one [_is_concave] accepts, and so
    is a list that never goes up. *)
Theorem sorted_is_concave (l : list R) :
  l <> [] ->
  (_is_sorted l = true -> _is_concave l = Return true)
  /\ ((forall i j, (i <= j)%nat -> (j < length l)%nat -> nth j l 0 <= nth i l 0) ->
      _is_concave l = Return true).
Proof.
  intros Hl. destruct (max_index_spec l Hl) as (p & Hp & Hlt & Hmax & Hfirst).
  rewrite (is_concave_spec l p Hp Hlt). split.
  - unfold _is_sorted. rewrite no_step_down. intros Hup. f_equal.
    apply andb_true_iff. rewrite no_step_down, no_step_up. split.
    + intros i Hi. apply Hup. lia.
    + intros i Hi. specialize (Hmax i ltac:(lia)).
      assert (nth p l 0 <= nth (i - 1) l 0).
      { apply (chain_le (fun i => nth i l 0) 0 (length l - 1)); try lia.
        intros k Hk. apply Hup. lia. }
      lra.
  - intros Hdown. f_equal.
    apply andb_true_iff. rewrite no_step_down, no_step_up. split.
    + intros i Hi. specialize (Hfirst (i - 1)%nat ltac:(lia)).
      specialize (Hdown (i - 1)%nat p ltac:(lia) Hlt). lra.
    + intros i Hi. apply Hdown; lia.
Qed.

Lemma sorted_is_concave_witness :
  (_is_sorted [1; 2; 2] = true -> _is_concave [1; 2; 2] = Return true)
  /\ ((forall i j, (i <= j)%nat -> (j < length [1; 2; 2])%nat ->
                   nth j [1; 2; 2] 0 <= nth i [1; 2; 2] 0) ->
      _is_concave [1; 2; 2] = Return true).
Proof.
  apply (sorted_is_concave [1; 2; 2]). discriminate.
Defined.

End Shape.

(** ** The memoised estimators of the report *)







Section Counts.

Import dp_shape.
Local Open Scope R_scope.



End Counts.

(** ** The cache of a nondeterministic function *)

Section Cache.

Import common.

Variables K V : Type.
Variable dec : forall x y : K, {x = y} + {x <> y}.

Local Abbreviation cached := (common.cached K V dec).
Local Abbreviation keep := (common.keep K V dec).
Local Abbreviation cache_ok := (common.cache_ok K V dec).
Local Abbreviation answered := (common.answered K V).
Local Abbreviation step := (common.cached_nondeterministic K V dec).

Lemma cached_keep_same k vs c : cached k (keep k vs c) = Some vs.
Proof.
  induction c as [|[k' old] c IH]; simpl.
  - destruct (dec k k); [reflexivity | congruence].
  - destruct (dec k k') as [-> | Hne]; simpl.
    + destruct (dec k' k'); [reflexivity | congruence].
    + destruct (dec k k'); [congruence | assumption].
Qed.

Lemma cached_keep_other k k0 vs c :
  k0 <> k -> cached k0 (keep k vs c) = cached k0 c.
Proof.
  intros Hne. induction c as [|[k' old] c IH]; simpl.
  - destruct (dec k0 k); [congruence | reflexivity].
  - destruct (dec k k') as [-> | Hk]; simpl.
    + destruct (dec k0 k'); [congruence | reflexivity].
    + destruct (dec k0 k'); [reflexivity | assumption].
Qed.

Lemma cache_ok_more n seen seen' c :
  incl seen seen' -> cache_ok n seen c -> cache_ok n seen' c.
Proof.
  intros Hincl Hok k values Hk. destruct (Hok k values Hk) as (Hne & Hlen & Hfrom).
  split; [assumption|]. split; [assumption|].
  intros v Hv. destruct (Hfrom v Hv) as (s & Hs). exists s. now apply Hincl.
Qed.

Lemma choice_In (values : list V) s v s' :
  choice values s = (Return v, s') -> In v values.
Proof.
  unfold choice. destruct values as [|first rest] eqn:Hvalues; [discriminate|].
  rewrite <- Hvalues.
  destruct (random.randbelow (length values) s) as [j s1] eqn:Hj.
  intros [= <- _]. apply nth_In.
  unfold random.randbelow in Hj. injection Hj as <- _.
  apply Nat.mod_upper_bound. subst values. discriminate.
Qed.

Lemma choice_nonempty (values : list V) s :
  values <> [] -> exists v s', choice values s = (Return v, s').
Proof.
  unfold choice. destruct values as [|first rest]; [congruence|].
  intros _. unfold random.randbelow. now eexists; eexists.
Qed.

Lemma cached_step n seen c k func s :
  cache_ok n seen c ->
  cache_ok n (seen ++ [(k, func, s)]) (snd (fst (step n k func c s)))
  /\ answered (seen ++ [(k, func, s)]) (k, func, s) (fst (fst (step n k func c s))).
Proof.
  intros Hok.
  assert (Hmore : cache_ok n (seen ++ [(k, func, s)]) c).
  { apply cache_ok_more with (seen := seen); [|assumption].
    intros x Hx. apply in_or_app. now left. }
  assert (Hnew : forall v, func = Return v ->
            exists s0, In (k, Return v, s0) (seen ++ [(k, func, s)])).
  { intros v ->. exists s. apply in_or_app. right. now left. }
  unfold common.cached_nondeterministic.
  destruct (cached k c) as [values|] eqn:Hcached.
  - destruct (Hok k values Hcached) as (Hne & Hlen & Hfrom).
    destruct (Z.ltb_spec (Z.of_nat (length values)) n) as [Hroom | Hfull].
    + destruct func as [value|e] eqn:Hfunc; simpl; [|now split].
      split; [|now apply Hnew].
      intros k0 values0 Hk0. destruct (dec k0 k) as [-> | Hk].
      * rewrite cached_keep_same in Hk0. injection Hk0 as <-.
        split; [now destruct values|]. split; [rewrite length_app; simpl; lia|].
        intros v Hv. apply in_app_or in Hv. destruct Hv as [Hv | [<- | []]].
        -- destruct (Hfrom v Hv) as (s0 & Hs0). exists s0. apply in_or_app. now left.
        -- now apply Hnew.
      * rewrite cached_keep_other in Hk0 by assumption. now apply Hmore.
    + destruct (choice_nonempty values s Hne) as (v & s' & Hchoice).
      rewrite Hchoice. simpl. split; [assumption|].
      apply choice_In in Hchoice. destruct (Hfrom v Hchoice) as (s0 & Hs0).
      exists s0. apply in_or_app. now left.
  - destruct func as [value|e] eqn:Hfunc; simpl; [|now split].
    split; [|now apply Hnew].
    intros k0 values0 Hk0. destruct (dec k0 k) as [-> | Hk].
    + rewrite cached_keep_same in Hk0. injection Hk0 as <-.
      split; [discriminate|]. split; [simpl; lia|].
      intros v [<- | []]. now apply Hnew.
    + rewrite cached_keep_other in Hk0 by assumption. now apply Hmore.
Qed.

Lemma calls_ok n requests : forall seen c,
  cache_ok n seen c ->
  cache_ok n (seen ++ requests) (snd (common.calls K V dec n requests c))
  /\ Forall2 (answered (seen ++ requests)) requests
             (fst (common.calls K V dec n requests c)).
Proof.
  induction requests as [|[[k func] s] requests IH]; intros seen c Hok.
  - simpl. rewrite app_nil_r. split; [assumption | constructor].
  - simpl. destruct (cached_step n seen c k func s Hok) as [Hok' Hans].
    destruct (step n k func c s) as [[r c'] s'] eqn:Hstep. simpl in Hok', Hans.
    destruct (IH _ _ Hok') as [Hfinal Hrest].
    destruct (common.calls K V dec n requests c') as [rs final]. simpl in *.
    rewrite <- app_assoc in Hfinal, Hrest. simpl in Hfinal, Hrest.
    split; [assumption|]. constructor; [|assumption].
    destruct r as [v|e]; [|exact Hans].
    destruct Hans as (s0 & Hs0). exists s0. simpl in *.
    apply in_app_or in Hs0. apply in_or_app.
    destruct Hs0 as [H | [H | []]]; [now left | right; now left].
Qed.

(** X21. However the wrapped function is called, starting from an empty
    cache: a key never keeps more than [max(1, num_values)] values, every
    answer is a value the function produced for the same key or the
    exception the function raised, and the wrapper raises nothing of its
    own. *)
Theorem cached_nondeterministic_invariant n requests :
  (forall k values,
     cached k (snd (common.calls K V dec n requests [])) = Some values ->
     values <> []
     /\ (Z.of_nat (length values) <= Z.max 1 n)%Z
     /\ forall v, In v values -> exists s, In (k, Return v, s) requests)
  /\ Forall2 (answered requests) requests
             (fst (common.calls K V dec n requests [])).
Proof.
  assert (Hempty : cache_ok n [] []) by (intros k values Hk; discriminate).
  destruct (calls_ok n requests [] [] Hempty) as [Hfinal Hans].
  simpl in Hfinal, Hans. split; [|assumption].
  intros k values Hk. now apply Hfinal.
Qed.

End Cache.

(** ** Choosing the bound with the best utility *)

Section MaxUtility.

Import pymath dp common max_utility.
Local Open Scope R_scope.





End MaxUtility.

(** ** The shifted inverse mechanism: the linear programs *)

Section LinearPrograms.

Import pymath diffprivlib shifted_inverse.
Local Open Scope R_scope.

Variable linprog : linear_program -> R.

Lemma problem_fields data d k :
  DataSet_init data = OK d ->
  exists A,
    problem d k
    = OK {| c := _objective_coefficients d; bounds := _bounds d; A_ub := A;
            b_ub := _inequalities_bounds d ++ [IZR k] |}
    /\ _inequalities_coefficients d = OK A
    /\ scipy.coo A
       = record_rows d
           ++ map (fun user_id => (length (entries data), user_id, 1%Z))
                  (seq 0 (length data)).
Proof.
  intros Hd. destruct (inequalities_coefficients_OK data d Hd) as (A & HA & Hcoo).
  exists A. unfold problem. rewrite HA. now split; [|split].
Qed.

(** Allowing more users to be deleted keeps every feasible point. *)
Lemma feasible_relax data d k k' lp lp' w :
  DataSet_init data = OK d -> (k <= k')%Z ->
  problem d k = OK lp -> problem d k' = OK lp' ->
  feasible lp w -> feasible lp' w.
Proof.
  intros Hd Hk Hlp Hlp'.
  destruct (problem_fields data d k Hd) as (A & HA & _).
  destruct (problem_fields data d k' Hd) as (A' & HA' & _).
  rewrite HA in Hlp. rewrite HA' in Hlp'.
  assert (A' = A).
  { unfold problem in HA, HA'. destruct (_inequalities_coefficients d); [|discriminate].
    simpl in HA, HA'. congruence. }
  subst A'. injection Hlp as <-. injection Hlp' as <-.
  unfold feasible. simpl. intros [Hbounds Hrows]. split; [assumption|].
  intros r Hr. rewrite length_app in Hr. simpl in Hr.
  specialize (Hrows r ltac:(rewrite length_app; simpl; lia)).
  destruct (Nat.lt_ge_cases r (length (_inequalities_bounds d))) as [Hlt | Hge].
  - rewrite app_nth1 in * by assumption. assumption.
  - rewrite app_nth2 in * by assumption.
    replace (r - length (_inequalities_bounds d))%nat with 0%nat in * by lia.
    simpl in *. apply IZR_le in Hk. lra.
Qed.

Lemma ceil_le x y : x <= y -> (ceil x <= ceil y)%Z.
Proof.
  intros Hxy. destruct (ceil_spec x) as [Hx _]. destruct (ceil_spec y) as [_ Hy].
  assert (H : (ceil x - 1 < ceil y)%Z) by (apply lt_IZR; rewrite minus_IZR; lra).
  lia.
Qed.

Lemma bin_edge_value d err k y :
  bin_edge linprog d err k = OK y ->
  exists s,
    _sensitivity linprog d k = OK s
    /\ 0 < INR (number_of_values d) - s
    /\ err <> 0
    /\ y = IZR (ceil (ln (INR (number_of_values d) - s) / ln 10 / err)) * err.
Proof.
  unfold bin_edge. intros H.
  destruct (_sensitivity linprog d k) as [s|e]; [|discriminate]. simpl in H.
  exists s. split; [reflexivity|].
  destruct (Rle_dec (INR (number_of_values d) - s) 0) as [Hle | Hpos].
  { rewrite log_base_10_domain in H by assumption. discriminate. }
  assert (Hx : 0 < INR (number_of_values d) - s) by lra.
  rewrite log_base_10_OK in H by assumption. simpl in H.
  unfold _round, div in H. destruct (Req_dec_T err 0) as [-> | Herr]; [discriminate|].
  simpl in H. injection H as <-. now split; [|split].
Qed.

(** X23. With a solver that returns the optimum, the sensitivity does not
    decrease when more users may be deleted, and the bin edges computed
    from it do not increase. *)
Theorem sensitivity_monotone data d k k' lp lp' :
  DataSet_init data = OK d -> (k <= k')%Z ->
  problem d k = OK lp -> problem d k' = OK lp' ->
  optimum lp (linprog lp) -> optimum lp' (linprog lp') ->
  exists s s',
    _sensitivity linprog d k = OK s
    /\ _sensitivity linprog d k' = OK s'
    /\ s <= s'
    /\ forall err y y',
         0 < err ->
         bin_edge linprog d err k = OK y -> bin_edge linprog d err k' = OK y' ->
         y' <= y.
Proof.
  intros Hd Hk Hlp Hlp' [(w & Hw & Hval) _] [_ Hbest'].
  assert (Hc : c lp' = c lp).
  { destruct (problem_fields data d k Hd) as (A & HA & _).
    destruct (problem_fields data d k' Hd) as (A' & HA' & _).
    rewrite HA in Hlp. rewrite HA' in Hlp'.
    injection Hlp as <-. injection Hlp' as <-. reflexivity. }
  assert (Hle : linprog lp' <= linprog lp).
  { rewrite <- Hval, <- Hc. apply Hbest'.
    now apply (feasible_relax data d k k' lp lp'). }
  assert (Hs : _sensitivity linprog d k = OK (- linprog lp))
    by (unfold _sensitivity; now rewrite Hlp).
  assert (Hs' : _sensitivity linprog d k' = OK (- linprog lp'))
    by (unfold _sensitivity; now rewrite Hlp').
  exists (- linprog lp), (- linprog lp').
  split; [assumption|]. split; [assumption|]. split; [lra|].
  intros err y y' Herr Hy Hy'.
  destruct (bin_edge_value d err k y Hy) as (s & Hsk & Hpos & _ & ->).
  destruct (bin_edge_value d err k' y' Hy') as (s' & Hsk' & Hpos' & _ & ->).
  rewrite Hs in Hsk. injection Hsk as <-.
  rewrite Hs' in Hsk'. injection Hsk' as <-.
  apply Rmult_le_compat_r; [lra|]. apply IZR_le, ceil_le.
  pose proof ln_10_pos as H10.
  pose proof (Rinv_0_lt_compat _ H10). pose proof (Rinv_0_lt_compat _ Herr).
  assert (Hln : ln (INR (number_of_values d) - - linprog lp')
                <= ln (INR (number_of_values d) - - linprog lp)).
  { destruct (Req_dec (INR (number_of_values d) - - linprog lp')
                      (INR (number_of_values d) - - linprog lp)) as [-> | Hne];
      [lra|].
    left. apply ln_increasing; lra. }
  unfold Rdiv. apply Rmult_le_compat_r; [lra|]. apply Rmult_le_compat_r; lra.
Qed.

End LinearPrograms.

Section LinearProgramsRun.

Import pymath diffprivlib shifted_inverse.
Local Open Scope R_scope.

Lemma sensitivity_monotone_witness :
  exists s s',
    _sensitivity small_solver two_users 0 = OK s
    /\ _sensitivity small_solver two_users 1 = OK s'
    /\ s <= s'
    /\ forall err y y',
         0 < err ->
         bin_edge small_solver two_users err 0 = OK y ->
         bin_edge small_solver two_users err 1 = OK y' ->
         y' <= y.
Proof.
  destruct (problem two_users 0) as [lp|e] eqn:Hlp; [|discriminate].
  destruct (problem two_users 1) as [lp'|e] eqn:Hlp'; [|discriminate].
  apply (sensitivity_monotone small_solver [[0]; [1]]%nat two_users 0 1 lp lp');
    [reflexivity | lia | assumption | assumption | |].
  - apply (small_optimum 0); [now left | assumption].
  - apply (small_optimum 1); [right; now left | assumption].
Defined.

End LinearProgramsRun.

(** *** The linear program with no user deleted, and its dimensions *)

Section NoUserDeleted.

Import pymath diffprivlib shifted_inverse.
Local Open Scope R_scope.

Variable linprog : linear_program -> R.

Local Abbreviation entry_value w r :=
  (fun t => if (scipy.row_of t =? r)%nat
            then IZR (scipy.weight_of t) * nth (scipy.col_of t) w 0
            else 0).

(** The row of the inequality [w_r <= w_u] of one record. *)
Lemma record_row (n : nat) (w : list R) (r : nat) : forall (E : list (nat * nat)) start,
  sumR (map (entry_value w r)
            (flat_map (fun ke => [(fst ke, (n + snd (snd ke))%nat, 1%Z);
                                  (fst ke, fst (snd ke), (-1)%Z)])
                      (combine (seq start (length E)) E)))
  = match nth_error E (r - start) with
    | Some e => if (start <=? r)%nat
                then nth (n + snd e) w 0 - nth (fst e) w 0
                else 0
    | None => 0
    end.
Proof.
  induction E as [|e E IH]; intros start.
  - simpl. destruct (r - start)%nat; reflexivity.
  - cbn [length seq combine flat_map app map].
    unfold scipy.row_of, scipy.col_of, scipy.weight_of in *. cbn [fst snd].
    unfold sumR in *. cbn [fold_right]. rewrite IH.
    destruct (Nat.eqb_spec start r) as [-> | Hne].
    + rewrite Nat.sub_diag. cbn [nth_error]. rewrite Nat.leb_refl.
      replace (r - S r)%nat with 0%nat by lia.
      destruct (Nat.leb_spec (S r) r) as [H | _]; [lia|].
      destruct (nth_error E 0); lra.
    + destruct (Nat.leb_spec start r) as [Hle | Hgt].
      * replace (r - start)%nat with (S (r - S start)) by lia. cbn [nth_error].
        destruct (Nat.leb_spec (S start) r) as [_ | H]; [|lia].
        destruct (nth_error E (r - S start)); lra.
      * replace (r - start)%nat with 0%nat by lia. cbn [nth_error].
        destruct (Nat.leb_spec (S start) r) as [H | _]; [lia|].
        destruct (nth_error E (r - S start)); lra.
Qed.

(** The row of the inequality [sum(w_u) <= j]. *)
Lemma users_row (R0 r : nat) (w : list R) (l : list nat) :
  sumR (map (entry_value w r) (map (fun user_id => (R0, user_id, 1%Z)) l))
  = if (R0 =? r)%nat then sumR (map (fun u => nth u w 0) l) else 0.
Proof.
  induction l as [|u l IH].
  - simpl. destruct (R0 =? r)%nat; reflexivity.
  - cbn [map]. unfold scipy.row_of, scipy.col_of, scipy.weight_of in *. cbn [fst snd].
    unfold sumR in *. cbn [fold_right]. rewrite IH.
    destruct (R0 =? r)%nat; lra.
Qed.

Lemma sumR_member (f : nat -> R) (l : list nat) u :
  (forall x, In x l -> 0 <= f x) -> In u l -> f u <= sumR (map f l).
Proof.
  induction l as [|a l IH]; intros Hpos Hin; [destruct Hin|].
  unfold sumR in *. cbn [map fold_right].
  assert (Hrest : 0 <= fold_right Rplus 0 (map f l)).
  { clear IH Hin. induction l as [|b l IHl]; simpl; [lra|].
    specialize (IHl ltac:(intros x Hx; apply Hpos; simpl in *; tauto)).
    pose proof (Hpos b ltac:(right; now left)). lra. }
  destruct Hin as [-> | Hin].
  - lra.
  - specialize (IH ltac:(intros x Hx; apply Hpos; now right) Hin).
    pose proof (Hpos a ltac:(now left)). lra.
Qed.

Lemma dot_ones_nonpos m : forall ws,
  length ws = m -> Forall (fun x => x <= 0) ws ->
  0 <= dot (map Ropp (repeat 1 m)) ws.
Proof.
  induction m as [|m IH]; intros [|w ws] Hlen Hall;
    try discriminate; [unfold dot; simpl; lra|].
  inversion Hall as [|? ? Hw Hrest]; subst.
  simpl. unfold dot in *. simpl.
  specialize (IH ws ltac:(simpl in Hlen; lia) Hrest). lra.
Qed.

Lemma dot_zero_point (cs : list R) N : dot cs (repeat 0 N) = 0.
Proof.
  revert N. induction cs as [|x cs IH]; intros [|N]; simpl; try reflexivity.
  unfold dot in *. simpl. rewrite IH. lra.
Qed.

Lemma row_value_zero_point A N r : row_value A (repeat 0 N) r = 0.
Proof.
  unfold row_value. induction (scipy.coo A) as [|t T IH]; simpl; [reflexivity|].
  rewrite IH.
  assert (Hz : nth (scipy.col_of t) (repeat 0 N) 0 = 0).
  { destruct (Nat.lt_ge_cases (scipy.col_of t) N) as [H | H].
    - now apply nth_repeat_lt.
    - apply nth_overflow. now rewrite repeat_length. }
  rewrite Hz. destruct (scipy.row_of t =? r)%nat; lra.
Qed.

Lemma nth_zeros_then (R0 : nat) (x : R) r :
  nth r (repeat 0 R0 ++ [x]) 0 = if (r =? R0)%nat then x else 0.
Proof.
  destruct (Nat.lt_ge_cases r R0) as [Hlt | Hge].
  - rewrite app_nth1 by now rewrite repeat_length.
    rewrite nth_repeat_lt by assumption.
    destruct (Nat.eqb_spec r R0); [lia | reflexivity].
  - rewrite app_nth2 by now rewrite repeat_length. rewrite repeat_length.
    destruct (Nat.eqb_spec r R0) as [-> | Hne].
    + now rewrite Nat.sub_diag.
    + destruct (r - R0)%nat as [|[|q]] eqn:Hq; [lia | reflexivity | reflexivity].
Qed.

(** With no user deleted nothing can be kept: the optimum is [0]. *)
Lemma no_user_optimum data d lp :
  DataSet_init data = OK d -> well_formed data ->
  problem d 0 = OK lp -> optimum lp 0.
Proof.
  intros Hd Hwf Hlp.
  destruct (problem_fields data d 0 Hd) as (A & HA & _ & Hcoo).
  rewrite HA in Hlp. injection Hlp as <-.
  destruct (DataSet_init_fields data d Hd) as (Hdata & _ & Hnv & _).
  pose proof (DataSet_init_records data d Hd) as Hrec.
  rewrite <- length_entries in Hrec.
  set (n := number_of_users d) in *. set (m := number_of_values d) in *.
  assert (Hn : n = length data) by (unfold n, number_of_users; now rewrite Hdata).
  unfold optimum, feasible. simpl.
  unfold _bounds, _objective_coefficients, _inequalities_bounds. fold n m.
  rewrite Hrec. split.
  - exists (repeat 0 (n + m)). split; [split|].
    + apply Forall2_unit_bounds. split; [apply repeat_length|].
      apply Forall_forall. intros x Hx. apply repeat_spec in Hx. lra.
    + intros r _. rewrite row_value_zero_point, nth_zeros_then.
      destruct (r =? length (entries data))%nat; lra.
    + apply dot_zero_point.
  - intros w [Hbounds Hrows]. apply Forall2_unit_bounds in Hbounds.
    destruct Hbounds as [Hlen Hall]. rewrite Forall_forall in Hall.
    assert (Hrange : forall x, 0 <= nth x w 0 <= 1).
    { intros x. destruct (nth_in_or_default x w 0) as [Hin | ->]; [now apply Hall | lra]. }
    assert (Hrow : forall r,
              (r <= length (entries data))%nat ->
              sumR (map (entry_value w r) (record_rows d))
              + sumR (map (entry_value w r)
                          (map (fun user_id => (length (entries data), user_id, 1%Z))
                               (seq 0 (length data))))
              <= nth r (repeat 0 (length (entries data)) ++ [IZR 0]) 0).
    { intros r Hr. specialize (Hrows r).
      rewrite length_app, repeat_length in Hrows. simpl in Hrows.
      specialize (Hrows ltac:(lia)).
      unfold row_value in Hrows. rewrite Hcoo, map_app in Hrows.
      change (fold_right Rplus 0) with sumR in Hrows.
      now rewrite sumR_app in Hrows. }
    assert (Husers : forall u, (u < n)%nat -> nth u w 0 <= 0).
    { intros u Hu. specialize (Hrow (length (entries data)) (Nat.le_refl _)).
      unfold record_rows, enumerate in Hrow. fold n in Hrow.
      rewrite Hdata, record_row, users_row, Nat.sub_0_r in Hrow.
      rewrite Nat.eqb_refl, nth_zeros_then, Nat.eqb_refl in Hrow.
      assert (Hnone : nth_error (entries data) (length (entries data)) = None)
        by (apply nth_error_None; lia).
      rewrite Hnone in Hrow.
      assert (Hmember : nth u w 0 <= sumR (map (fun u => nth u w 0) (seq 0 (length data)))).
      { apply (sumR_member (fun u => nth u w 0)).
        - intros x _. apply Hrange.
        - apply in_seq. lia. }
      lra. }
    assert (Hvalues : forall v, (v < m)%nat -> nth (n + v) w 0 <= 0).
    { intros v Hv.
      destruct (wf_value_used data Hwf v ltac:(rewrite <- Hnv; exact Hv)) as (i & Hin).
      destruct (In_nth_error _ _ Hin) as (r & Hr).
      assert (Hlt : (r < length (entries data))%nat)
        by (apply nth_error_Some; congruence).
      specialize (Hrow r ltac:(lia)).
      unfold record_rows, enumerate in Hrow. fold n in Hrow.
      rewrite Hdata, record_row, users_row, Nat.sub_0_r, Hr in Hrow.
      rewrite nth_zeros_then in Hrow. simpl in Hrow.
      destruct (Nat.eqb_spec (length (entries data)) r) as [Heq | _]; [lia|].
      destruct (Nat.eqb_spec r (length (entries data))) as [Heq | _]; [lia|].
      apply in_entries in Hin. specialize (Husers i ltac:(lia)). lra. }
    rewrite <- (firstn_skipn n w), map_app, dot_app.
    2:{ rewrite length_map, repeat_length, length_firstn. lia. }
    rewrite dot_zeros.
    assert (0 <= dot (map Ropp (repeat 1 m)) (skipn n w)); [|lra].
    apply dot_ones_nonpos; [rewrite length_skipn; lia|].
    apply Forall_forall. intros x Hx.
    destruct (In_nth _ _ 0 Hx) as (v & Hv & <-).
    rewrite length_skipn in Hv. rewrite nth_skipn. apply Hvalues. lia.
Qed.

(** X24. With a solver that returns the optimum, deleting no user has
    sensitivity [0] on a well-formed data set, so that the first edge the
    loop computes is the logarithm of the number of values, rounded up to
    a multiple of the error level. *)
Theorem sensitivity_no_user data d err :
  DataSet_init data = OK d -> well_formed data -> 0 < err ->
  (forall lp v, problem d 0 = OK lp -> optimum lp v -> linprog lp = v) ->
  _sensitivity linprog d 0 = OK 0
  /\ bin_edge linprog d err 0
     = OK (IZR (ceil (ln (INR (number_of_values d)) / ln 10 / err)) * err).
Proof.
  intros Hd Hwf Herr Hsolver.
  destruct (problem_fields data d 0 Hd) as (A & HA & _).
  assert (Hs : _sensitivity linprog d 0 = OK 0).
  { unfold _sensitivity. rewrite HA. simpl.
    rewrite (Hsolver _ 0 HA (no_user_optimum data d _ Hd Hwf HA)).
    f_equal. lra. }
  split; [assumption|].
  unfold bin_edge. rewrite Hs. simpl bind. rewrite Rminus_0_r.
  destruct (DataSet_init_fields data d Hd) as (_ & _ & Hnv & _).
  assert (Hm : 0 < INR (number_of_values d)).
  { apply lt_0_INR. rewrite Hnv. apply (wf_values_pos data Hwf). }
  rewrite log_base_10_OK by assumption. simpl bind.
  unfold _round. rewrite div_OK by lra. reflexivity.
Qed.

End NoUserDeleted.

Section LinearProgramShape.

Import pymath diffprivlib shifted_inverse.
Local Open Scope R_scope.

Lemma optimum_unique lp v v' : optimum lp v -> optimum lp v' -> v = v'.
Proof.
  intros [(w & Hw & Hv) Hbest] [(w' & Hw' & Hv') Hbest'].
  specialize (Hbest w' Hw'). specialize (Hbest' w Hw). lra.
Qed.

Lemma sensitivity_no_user_witness :
  _sensitivity small_solver two_users 0 = OK 0
  /\ bin_edge small_solver two_users 1 0
     = OK (IZR (ceil (ln (INR (number_of_values two_users)) / ln 10 / 1)) * 1).
Proof.
  apply (sensitivity_no_user small_solver [[0]; [1]]%nat two_users 1);
    [reflexivity | exact two_users_well_formed | lra |].
  intros lp v Hlp Hv. apply (optimum_unique lp); [|assumption].
  apply (small_optimum 0); [now left | assumption].
Defined.

Lemma inequalities_coefficients_shape data d :
  DataSet_init data = OK d ->
  exists A,
    _inequalities_coefficients d = OK A
    /\ scipy.nrows A
       = S (list_max
              (map scipy.row_of
                   (record_rows d
                      ++ map (fun user_id => (length (entries data), user_id, 1%Z))
                             (seq 0 (length data)))))
    /\ scipy.ncols A
       = S (list_max
              (map scipy.col_of
                   (record_rows d
                      ++ map (fun user_id => (length (entries data), user_id, 1%Z))
                             (seq 0 (length data))))).
Proof.
  intros Hd.
  destruct (DataSet_init_fields data d Hd) as (Hdata & _ & _ & Hne).
  pose proof (DataSet_init_records data d Hd) as Hrec.
  unfold _inequalities_coefficients, number_of_users.
  rewrite Hdata, Hrec, <- length_entries, Nat.eqb_refl. simpl negb. cbv iota.
  set (T := record_rows d
              ++ map (fun user_id => (length (entries data), user_id, 1%Z))
                     (seq 0 (length data))).
  unfold scipy.csr_matrix_init. rewrite !length_map, Nat.eqb_refl. simpl negb. cbv iota.
  destruct (map scipy.row_of T) as [|r0 rows] eqn:Hrows.
  - apply (f_equal (@length nat)) in Hrows. unfold T in Hrows.
    rewrite length_map, length_app, length_map, length_seq in Hrows.
    destruct data; [congruence | simpl in Hrows; lia].
  - eexists. split; [reflexivity|]. split; reflexivity.
Qed.

Lemma in_record_rows data d t :
  DataSet_init data = OK d ->
  In t (record_rows d) ->
  exists r i v,
    (r < length (entries data))%nat /\ In (i, v) (entries data)
    /\ (t = (r, (length data + v)%nat, 1%Z) \/ t = (r, i, (-1)%Z)).
Proof.
  intros Hd Hin.
  destruct (DataSet_init_fields data d Hd) as (Hdata & _).
  unfold record_rows, number_of_users in Hin. rewrite Hdata in Hin.
  apply in_flat_map in Hin. destruct Hin as ([r [i v]] & Hke & Ht).
  unfold enumerate in Hke.
  pose proof (in_combine_l _ _ _ _ Hke) as Hr. apply in_seq in Hr.
  pose proof (in_combine_r _ _ _ _ Hke) as He.
  exists r, i, v. split; [lia|]. split; [assumption|].
  simpl in Ht. destruct Ht as [<- | [<- | []]]; [now left | now right].
Qed.

(** X25. On a well-formed data set the linear program handed to
    [linprog] has matching dimensions: the matrix of inequalities has one
    row per record and one more, and one column per user and per value,
    as many as the objective and the bounds have entries. *)
Theorem linear_program_shape data d k :
  DataSet_init data = OK d -> well_formed data ->
  exists lp,
    problem d k = OK lp
    /\ scipy.nrows (A_ub lp) = length (b_ub lp)
    /\ scipy.ncols (A_ub lp) = length (c lp)
    /\ length (bounds lp) = length (c lp)
    /\ length (b_ub lp) = (number_of_records d + 1)%nat
    /\ length (c lp) = (number_of_users d + number_of_values d)%nat.
Proof.
  intros Hd Hwf.
  destruct (inequalities_coefficients_shape data d Hd) as (A & HA & Hrows & Hcols).
  destruct (DataSet_init_fields data d Hd) as (Hdata & _ & Hnv & Hne).
  pose proof (DataSet_init_records data d Hd) as Hrec.
  rewrite <- length_entries in Hrec.
  pose proof (wf_users_pos data Hwf) as Hn.
  pose proof (wf_values_pos data Hwf) as Hm.
  unfold problem. rewrite HA. simpl bind. eexists. split; [reflexivity|]. simpl.
  unfold _inequalities_bounds, _objective_coefficients, _bounds, number_of_users.
  rewrite Hdata, Hnv, Hrec.
  rewrite !length_app, !length_map, !length_app, !repeat_length. simpl length.
  split; [|split; [|split; [|split]]]; try reflexivity.
  - rewrite Hrows. replace (length (entries data) + 1)%nat
      with (S (length (entries data))) by lia. f_equal.
    apply Nat.le_antisymm.
    + apply list_max_le, Forall_forall. intros x Hx.
      apply in_map_iff in Hx. destruct Hx as (t & <- & Ht).
      apply in_app_or in Ht. destruct Ht as [Ht | Ht].
      * destruct (in_record_rows data d t Hd Ht) as (r & i & v & Hr & _ & [-> | ->]);
          unfold scipy.row_of; simpl; lia.
      * apply in_map_iff in Ht. destruct Ht as (u & <- & _).
        unfold scipy.row_of. simpl. lia.
    + apply in_list_max, in_map_iff.
      exists (length (entries data), 0%nat, 1%Z). split; [reflexivity|].
      apply in_or_app. right. apply in_map_iff. exists 0%nat.
      split; [reflexivity|]. apply in_seq. lia.
  - rewrite Hcols.
    replace (length data + length (nodup Nat.eq_dec (concat data)))%nat
      with (S (length data + (length (nodup Nat.eq_dec (concat data)) - 1))) by lia.
    f_equal. apply Nat.le_antisymm.
    + apply list_max_le, Forall_forall. intros x Hx.
      apply in_map_iff in Hx. destruct Hx as (t & <- & Ht).
      apply in_app_or in Ht. destruct Ht as [Ht | Ht].
      * destruct (in_record_rows data d t Hd Ht) as (r & i & v & _ & Hin & [-> | ->]);
          apply (wf_entry_bounds data Hwf) in Hin; unfold scipy.col_of; simpl; lia.
      * apply in_map_iff in Ht. destruct Ht as (u & <- & Hu). apply in_seq in Hu.
        unfold scipy.col_of. simpl. lia.
    + destruct (wf_value_used data Hwf
                  (length (nodup Nat.eq_dec (concat data)) - 1)) as (i & Hin); [lia|].
      destruct (In_nth_error _ _ Hin) as (r & Hr).
      apply in_list_max, in_map_iff.
      exists (r, (length data + (length (nodup Nat.eq_dec (concat data)) - 1))%nat, 1%Z).
      split; [reflexivity|]. apply in_or_app. left.
      unfold record_rows, number_of_users. rewrite Hdata.
      apply in_flat_map.
      exists (r, (i, (length (nodup Nat.eq_dec (concat data)) - 1)%nat)). split.
      * unfold enumerate.
        assert (Hlt : (r < length (entries data))%nat)
          by (apply nth_error_Some; congruence).
        replace (r, (i, (length (nodup Nat.eq_dec (concat data)) - 1)%nat))
          with (nth r (combine (seq 0 (length (entries data))) (entries data))
                    (0%nat, (0%nat, 0%nat))).
        -- apply nth_In. rewrite length_combine, length_seq. lia.
        -- rewrite combine_nth by apply length_seq.
           rewrite seq_nth by assumption.
           now rewrite (nth_error_nth _ _ _ Hr).
      * now left.
Qed.

Lemma linear_program_shape_witness :
  exists lp,
    problem two_users 1 = OK lp
    /\ scipy.nrows (A_ub lp) = length (b_ub lp)
    /\ scipy.ncols (A_ub lp) = length (c lp)
    /\ length (bounds lp) = length (c lp)
    /\ length (b_ub lp) = (number_of_records two_users + 1)%nat
    /\ length (c lp) = (number_of_users two_users + number_of_values two_users)%nat.
Proof.
  apply (linear_program_shape [[0]; [1]]%nat two_users 1);
    [reflexivity | exact two_users_well_formed].
Defined.

(** X26. Arguments the estimator cannot work with: an upper bound below
    [1] makes [math.log] fail, and then, in this order, a zero [epsilon],
    a zero error level and a zero [beta] divide by zero, before the data
    set is looked at. *)
Theorem shifted_inverse_argument_errors linprog d eps err (ub : Z) beta idx fraction :
  ((ub <= 0)%Z ->
   shifted_inverse_distinct_count linprog d eps err ub beta idx fraction
   = Raise (ValueError "math domain error"))
  /\ ((1 <= ub)%Z -> eps = 0 ->
      shifted_inverse_distinct_count linprog d eps err ub beta idx fraction
      = Raise ZeroDivisionError)
  /\ ((1 <= ub)%Z -> eps <> 0 -> err = 0 ->
      shifted_inverse_distinct_count linprog d eps err ub beta idx fraction
      = Raise ZeroDivisionError)
  /\ ((1 <= ub)%Z -> eps <> 0 -> err <> 0 -> beta = 0 ->
      shifted_inverse_distinct_count linprog d eps err ub beta idx fraction
      = Raise ZeroDivisionError).
Proof.
  unfold shifted_inverse_distinct_count. split; [|split; [|split]].
  - intros Hub. rewrite log_base_10_domain by (apply IZR_le in Hub; lra).
    reflexivity.
  - intros Hub ->. rewrite log_base_10_OK by (apply IZR_lt; lia). simpl bind.
    unfold compute_tau, div. destruct (Req_dec_T 0 0); [reflexivity | lra].
  - intros Hub Heps ->. rewrite log_base_10_OK by (apply IZR_lt; lia). simpl bind.
    unfold compute_tau. rewrite div_OK by assumption. simpl bind.
    unfold div. destruct (Req_dec_T 0 0); [reflexivity | lra].
  - intros Hub Heps Herr ->. rewrite log_base_10_OK by (apply IZR_lt; lia). simpl bind.
    unfold compute_tau. rewrite !div_OK by assumption. simpl bind.
    unfold div. destruct (Req_dec_T 0 0); [reflexivity | lra].
Qed.

End LinearProgramShape.

(** ** The greedy estimator is within a factor two of the matching *)

Section GreedyHalf.

Import greedy_notions.

Lemma greedy_user_tight data cap st owners i :
  greedy_tight data cap st owners -> i < length data ->
  exists owners',
    greedy_tight data (fun j => if j =? i then S (cap i) else cap j)
                 (greedy_user st (i, nth i data [])) owners'.
Proof.
  intros [(Hlen & Hpos & Hseen & Hown & Hnd & Hmem & Hcnt) Htight] Hi.
  destruct st as [positions result]. simpl in *.
  set (r := nth i data []). set (p := nth i positions 0).
  destruct (Hpos i Hi) as [Hp Hprog]. fold r p in Hp, Hprog.
  destruct (advance_spec (skipn p r) (firstn p r) result) as (k & Hfst & Hk & Hin & Hres).
  { intros v Hv. apply (Hseen i v Hi). exact Hv. }
  rewrite length_firstn, Nat.min_l in Hfst, Hin, Hres by assumption.
  rewrite length_skipn in Hk.
  destruct (advance (skipn p r) p result) as [pos' result'] eqn:Hadv.
  simpl in Hfst, Hin, Hres. subst pos'.
  assert (Hincl : forall v, In v result -> In v result').
  { destruct Hres as [[-> _] | (v0 & _ & _ & _ & ->)]; intros v Hv;
      [assumption | apply in_or_app; now left]. }
  assert (Hshape :
    forall owners',
      map fst owners' = result' -> NoDup result' ->
      (forall v j, In (v, j) owners' -> In (j, v) (entries data)) ->
      (forall j, count_occ Nat.eq_dec (map snd owners') j
                 <= if j =? i then S (cap i) else cap j) ->
      Nat.min (S (cap i)) (length r) <= p + k ->
      greedy_inv data (fun j => if j =? i then S (cap i) else cap j)
                 (list_set positions i (p + k), result') owners').
  { intros owners' H1 H2 H3 H4 H5. unfold greedy_inv. simpl.
    split; [now rewrite length_list_set|]. split; [|split; [|auto]].
    - intros j Hj. rewrite nth_list_set by lia.
      destruct (Nat.eqb_spec j i) as [-> | Hne].
      + fold r. split; [lia | assumption].
      + apply Hpos; assumption.
    - intros j v Hj. rewrite nth_list_set by lia.
      destruct (Nat.eqb_spec j i) as [-> | Hne].
      + fold r. rewrite firstn_add_split. exact (Hin v).
      + intros Hv. apply Hincl. now apply (Hseen j). }
  destruct Hres as [[-> Hkeq] | (v & Hv & Hnot & Hkpos & ->)].
  - rewrite length_skipn in Hkeq.
    exists owners. split.
    + apply Hshape; auto.
      * intros j. specialize (Hcnt j). destruct (Nat.eqb_spec j i); subst; lia.
      * lia.
    + simpl. intros j Hj. rewrite nth_list_set by lia.
      destruct (Nat.eqb_spec j i) as [-> | Hne].
      * right. fold r. lia.
      * now apply Htight.
  - exists (owners ++ [(v, i)]). split.
    + apply Hshape.
      * rewrite map_app, Hown. reflexivity.
      * apply NoDup_app; [assumption | repeat constructor; auto |].
        intros x Hx [<- | []]. contradiction.
      * intros v' j Hvj. apply in_app_or in Hvj.
        destruct Hvj as [Hvj | [[= <- <-] | []]]; [now apply Hmem|].
        apply in_entries. split; [assumption|]. fold r. now apply in_skipn_In in Hv.
      * intros j. rewrite map_app, count_occ_app. simpl.
        specialize (Hcnt j). destruct (Nat.eq_dec i j) as [<- | Hne].
        -- rewrite Nat.eqb_refl. lia.
        -- rewrite (proj2 (Nat.eqb_neq j i)) by auto. lia.
      * lia.
    + simpl. intros j Hj. rewrite nth_list_set by lia.
      rewrite map_app, count_occ_app. simpl.
      destruct (Nat.eqb_spec j i) as [-> | Hne].
      * destruct (Nat.eq_dec i i) as [_ | Hii]; [|congruence].
        destruct (Htight i Hi) as [Hfull | Hend].
        -- left. lia.
        -- exfalso. fold r p in Hend.
           assert (Hnil : skipn p r = []) by (apply skipn_all2; lia).
           rewrite Hnil in Hv. destruct Hv.
      * destruct (Nat.eq_dec i j) as [Heq | _]; [congruence|].
        destruct (Htight j Hj) as [Hfull | Hend]; [left; lia | now right].
Qed.

Lemma greedy_tight_weaken data cap cap' st owners :
  (forall j, j < length data -> cap j = cap' j) ->
  (forall j, cap j <= cap' j) ->
  greedy_tight data cap st owners -> greedy_tight data cap' st owners.
Proof.
  intros Heq Hle [Hinv Htight]. split.
  - now apply greedy_inv_weaken with (cap := cap).
  - intros i Hi. rewrite <- (Heq i Hi). now apply Htight.
Qed.

Lemma greedy_fold_tight data k : forall irs pre st owners,
  enumerate data = pre ++ irs ->
  greedy_tight data (fun j => if j <? length pre then S k else k) st owners ->
  exists owners',
    greedy_tight data (fun _ => S k) (fold_left greedy_user irs st) owners'.
Proof.
  induction irs as [|[i r] irs IH]; intros pre st owners Henum Hinv.
  - exists owners. simpl. rewrite app_nil_r in Henum.
    assert (Hlen : length pre = length data)
      by (now rewrite <- Henum, length_enumerate).
    eapply greedy_tight_weaken; [| |exact Hinv].
    + intros j Hj. simpl. rewrite (proj2 (Nat.ltb_lt j (length pre))) by lia.
      reflexivity.
    + intros j. simpl. destruct (j <? length pre); lia.
  - destruct (enumerate_split data pre i r irs Henum) as (Hi & Hr & Hlt).
    subst r. destruct (greedy_user_tight data _ st owners i Hinv Hlt) as (owners1 & Hinv1).
    simpl fold_left.
    apply (IH (pre ++ [(i, nth i data [])]) _ owners1).
    + rewrite <- app_assoc. exact Henum.
    + eapply greedy_tight_weaken; [| |exact Hinv1].
      * intros j _. simpl. rewrite length_app. simpl. subst i.
        rewrite Nat.ltb_irrefl.
        destruct (Nat.eqb_spec j (length pre)), (Nat.ltb_spec j (length pre)),
          (Nat.ltb_spec j (length pre + 1)); lia.
      * intros j. simpl. rewrite length_app. simpl. subst i.
        rewrite Nat.ltb_irrefl.
        destruct (Nat.eqb_spec j (length pre)), (Nat.ltb_spec j (length pre)),
          (Nat.ltb_spec j (length pre + 1)); lia.
Qed.

Lemma greedy_iter_tight data k :
  exists owners,
    greedy_tight data (fun _ => k)
      (Nat.iter k (greedy_round data) (repeat 0 (length data), empty_set nat))
      owners.
Proof.
  induction k as [|k [owners IH]].
  - exists []. split.
    + unfold greedy_inv. simpl.
      split; [apply repeat_length|]. split; [|split].
      * intros i _. rewrite nth_repeat. lia.
      * intros i v _. rewrite nth_repeat. simpl. intros [].
      * split; [reflexivity|]. split; [constructor|].
        split; [intros v i []|]. intros i. lia.
    + intros i _. now left.
  - simpl Nat.iter. unfold greedy_round.
    now apply (greedy_fold_tight data k (enumerate data) [] _ owners).
Qed.

(** Every bounded assignment is at most twice what the greedy loops
    collect. *)
Lemma greedy_half data k owners :
  assignment data k owners ->
  length owners
  <= 2 * length (snd (Nat.iter k (greedy_round data)
                               (repeat 0 (length data), empty_set nat))).
Proof.
  intros (Hnd & Hent & Hcnt).
  destruct (greedy_iter_tight data k)
    as (mine & (Hlen & Hpos & Hseen & Hown & Hnd' & Hmem & Hcnt') & Htight).
  set (st := Nat.iter k (greedy_round data) (repeat 0 (length data), empty_set nat)) in *.
  set (seen := fun o : nat * nat => if in_dec Nat.eq_dec (fst o) (snd st) then true else false).
  rewrite (filter_split_length seen owners).
  assert (H1 : length (filter seen owners) <= length (snd st)).
  { rewrite <- (length_map fst). apply NoDup_incl_length.
    - now apply NoDup_map_filter.
    - intros v Hv. apply in_map_iff in Hv. destruct Hv as (o & <- & Ho).
      apply filter_In in Ho. destruct Ho as [_ Ho]. unfold seen in Ho.
      destruct (in_dec Nat.eq_dec (fst o) (snd st)); [assumption | discriminate]. }
  assert (H2 : length (filter (fun o => negb (seen o)) owners) <= length (snd st)).
  { rewrite <- Hown, length_map.
    rewrite <- (length_map snd (filter _ owners)), <- (length_map snd mine).
    rewrite (length_by_count (map snd (filter (fun o => negb (seen o)) owners))
                             (length data)).
    2:{ intros x Hx. apply in_map_iff in Hx. destruct Hx as ([v i] & <- & Ho).
        apply filter_In in Ho. destruct Ho as [Ho _].
        apply Hent, in_entries in Ho. simpl. apply Ho. }
    rewrite (length_by_count (map snd mine) (length data)).
    2:{ intros x Hx. apply in_map_iff in Hx. destruct Hx as ([v i] & <- & Ho).
        apply Hmem, in_entries in Ho. simpl. apply Ho. }
    assert (Hsum : forall (f g : nat -> nat) l,
              (forall i, In i l -> f i <= g i) ->
              list_sum (map f l) <= list_sum (map g l)).
    { intros f g l. induction l as [|a l IH]; simpl; intros H; [lia|].
      specialize (IH (fun i Hi => H i (or_intror Hi))).
      pose proof (H a (or_introl eq_refl)). lia. }
    apply Hsum. intros i Hi. apply in_seq in Hi.
    destruct (Htight i ltac:(lia)) as [Hfull | Hend].
    - rewrite Hfull. etransitivity; [apply count_occ_map_filter_le | apply Hcnt].
    - replace (count_occ Nat.eq_dec
                 (map snd (filter (fun o => negb (seen o)) owners)) i) with 0; [lia|].
      symmetry. apply count_occ_not_In. intros Hin.
      apply in_map_iff in Hin. destruct Hin as ([v j] & Heq & Ho). simpl in Heq. subst j.
      apply filter_In in Ho. destruct Ho as [Ho Hunseen].
      apply Hent, in_entries in Ho. destruct Ho as [_ Hv].
      assert (Hin : In v (snd st)).
      { apply (Hseen i v ltac:(lia)). rewrite Hend, firstn_all. exact Hv. }
      unfold seen in Hunseen. simpl in Hunseen.
      destruct (in_dec Nat.eq_dec v (snd st)); [discriminate | contradiction]. }
  lia.
Qed.

(** X27. The greedy estimate is at least half of the matching estimate:
    the loops stop at a user only when it has been given a value in
    every round or has nothing new to give. *)
Theorem greedy_half_matching data d b :
  DataSet_init data = OK d -> concat data <> [] -> (0 < b)%Z ->
  exists k,
    matching_distinct_count d b = OK k
    /\ k <= 2 * greedy_distinct_count d b.
Proof.
  intros Hd Hne Hb.
  destruct (DataSet_init_fields data d Hd) as (Hdata & _).
  rewrite (matching_distinct_count_ok data d b Hd Hne Hb).
  eexists. split; [reflexivity|].
  destruct (matching_assignment data (Z.to_nat b)) as (owners & Hasg & <-).
  unfold greedy_distinct_count. rewrite Hdata.
  now apply greedy_half.
Qed.

Lemma greedy_half_matching_witness :
  exists k,
    matching_distinct_count test_dataset 1 = OK k
    /\ k <= 2 * greedy_distinct_count test_dataset 1.
Proof.
  apply (greedy_half_matching test_data test_dataset 1);
    [reflexivity | discriminate | lia].
Defined.

End GreedyHalf.

(** ** Quantiles *)

Section Quantiles.

Import numpy stats.
Local Open Scope R_scope.

Lemma in_insert x l z : In z (insert x l) <-> z = x \/ In z l.
Proof.
  induction l as [|y l IH]; simpl.
  - split; [intros [<- | []]; now left | intros [-> | []]; now left].
  - destruct (Rle_dec x y); simpl.
    + split; [intros [<- | H]; auto | intros [-> | H]; auto].
    + rewrite IH. split.
      * intros [<- | [-> | H]]; auto.
      * intros [-> | [<- | H]]; auto.
Qed.

Lemma length_insert x l : length (insert x l) = S (length l).
Proof.
  induction l as [|y l IH]; simpl; [reflexivity|].
  destruct (Rle_dec x y); simpl; [reflexivity | now rewrite IH].
Qed.

Lemma insert_ordered x l : ordered l -> ordered (insert x l).
Proof.
  induction l as [|y l IH]; simpl; intros Hl; [split; constructor|].
  destruct Hl as [Hy Hl]. destruct (Rle_dec x y) as [Hxy | Hxy]; simpl.
  - split; [|now split]. constructor; [assumption|].
    rewrite Forall_forall in *. intros z Hz. specialize (Hy z Hz). lra.
  - split; [|now apply IH].
    rewrite Forall_forall in *. intros z Hz. apply in_insert in Hz.
    destruct Hz as [-> | Hz]; [lra | now apply Hy].
Qed.

Lemma sort_ordered l : ordered (sort l).
Proof.
  induction l as [|x l IH]; simpl; [exact I | now apply insert_ordered].
Qed.

Lemma in_sort l z : In z (sort l) <-> In z l.
Proof.
  induction l as [|x l IH]; simpl; [tauto|].
  rewrite in_insert, IH. split; intros [H | H]; auto.
Qed.

Lemma length_sort l : length (sort l) = length l.
Proof.
  induction l as [|x l IH]; simpl; [reflexivity|].
  now rewrite length_insert, IH.
Qed.

Lemma ordered_nth l : ordered l ->
  forall i j, (i <= j)%nat -> (j < length l)%nat -> nth i l 0 <= nth j l 0.
Proof.
  induction l as [|x l IH]; simpl; intros Hl i j Hij Hj; [lia|].
  destruct Hl as [Hx Hl]. destruct i as [|i], j as [|j]; try lia.
  - lra.
  - rewrite Forall_forall in Hx. apply Hx, nth_In. lia.
  - apply IH; [assumption | lia | lia].
Qed.

(** The value of a quantile: a position [j] in the sorted list and a
    weight [g] in [[0, 1)] with [j + g = q * (n - 1)]. *)
Lemma quantile_value (a : list R) q :
  a <> [] -> 0 <= q <= 1 ->
  exists j g,
    quantile a q
    = OK (Some (nth j (sort a) 0
                + (nth (Nat.min (j + 1) (length a - 1)) (sort a) 0
                   - nth j (sort a) 0) * g))
    /\ (j <= length a - 1)%nat /\ 0 <= g < 1
    /\ INR j + g = q * INR (length a - 1).
Proof.
  intros Ha [Hq0 Hq1]. unfold quantile.
  destruct (Rlt_dec q 0); [lra|]. destruct (Rlt_dec 1 q); [lra|].
  destruct a as [|x rest] eqn:Heq; [congruence|]. rewrite <- Heq.
  set (h := q * INR (length a - 1)).
  assert (Hn : 0 <= INR (length a - 1)) by apply pos_INR.
  assert (Hh : 0 <= h <= INR (length a - 1)) by (unfold h; nra).
  destruct (floor_spec h) as [Hf1 Hf2].
  assert (Hfz : (0 <= pymath.floor h)%Z).
  { assert (H : (-1 < pymath.floor h)%Z) by (apply lt_IZR; lra). lia. }
  assert (Hnat : INR (Z.to_nat (pymath.floor h)) = IZR (pymath.floor h)).
  { rewrite INR_IZR_INZ, Z2Nat.id by assumption. reflexivity. }
  exists (Z.to_nat (pymath.floor h)), (h - IZR (pymath.floor h)).
  split; [reflexivity|]. split; [|split; [lra|]].
  - apply INR_le. rewrite Hnat. lra.
  - rewrite Hnat. lra.
Qed.

Lemma quantile_between (a : list R) j g :
  (j <= length a - 1)%nat -> a <> [] -> 0 <= g < 1 ->
  nth j (sort a) 0
  <= nth j (sort a) 0
     + (nth (Nat.min (j + 1) (length a - 1)) (sort a) 0 - nth j (sort a) 0) * g
  <= nth (Nat.min (j + 1) (length a - 1)) (sort a) 0.
Proof.
  intros Hj Ha Hg.
  assert (Hlen : (0 < length a)%nat) by (destruct a; [congruence | simpl; lia]).
  assert (Hle : nth j (sort a) 0 <= nth (Nat.min (j + 1) (length a - 1)) (sort a) 0).
  { apply ordered_nth; [apply sort_ordered | lia | rewrite length_sort; lia]. }
  nra.
Qed.

Lemma quantile_monotone (a : list R) q q' :
  a <> [] -> 0 <= q -> q <= q' -> q' <= 1 ->
  exists x x',
    quantile a q = OK (Some x) /\ quantile a q' = OK (Some x')
    /\ x <= x'
    /\ nth 0 (sort a) 0 <= x /\ x' <= nth (length a - 1) (sort a) 0.
Proof.
  intros Ha Hq0 Hqq Hq1.
  assert (Hlen : (0 < length a)%nat) by (destruct a; [congruence | simpl; lia]).
  destruct (quantile_value a q Ha ltac:(lra)) as (j & g & Hx & Hj & Hg & Hsum).
  destruct (quantile_value a q' Ha ltac:(lra)) as (j' & g' & Hx' & Hj' & Hg' & Hsum').
  pose proof (quantile_between a j g Hj Ha Hg) as [Hlo Hhi].
  pose proof (quantile_between a j' g' Hj' Ha Hg') as [Hlo' Hhi'].
  pose proof (sort_ordered a) as Hord.
  assert (Hnth : forall i k, (i <= k)%nat -> (k <= length a - 1)%nat ->
            nth i (sort a) 0 <= nth k (sort a) 0).
  { intros i k Hik Hk. apply ordered_nth; [assumption | lia | rewrite length_sort; lia]. }
  assert (Hn : 0 <= INR (length a - 1)) by apply pos_INR.
  assert (Hjj : (j <= j')%nat).
  { destruct (Nat.le_gt_cases j j') as [H | H]; [assumption|].
    assert (INR j' + 1 <= INR j).
    { rewrite <- S_INR. apply le_INR. lia. }
    nra. }
  eexists. eexists. split; [exact Hx|]. split; [exact Hx'|]. split; [|split].
  - destruct (Nat.eq_dec j j') as [<- | Hne].
    + assert (g <= g') by nra.
      assert (nth j (sort a) 0 <= nth (Nat.min (j + 1) (length a - 1)) (sort a) 0)
        by (apply Hnth; lia).
      nra.
    + assert (nth (Nat.min (j + 1) (length a - 1)) (sort a) 0 <= nth j' (sort a) 0)
        by (apply Hnth; lia).
      lra.
  - assert (nth 0 (sort a) 0 <= nth j (sort a) 0) by (apply Hnth; lia). lra.
  - assert (nth (Nat.min (j' + 1) (length a - 1)) (sort a) 0
            <= nth (length a - 1) (sort a) 0) by (apply Hnth; lia).
    lra.
Qed.


End Quantiles.

(** ** The bound chosen from a quantile of the record counts *)

Section OptimalBound.

Import numpy quantile.
Local Open Scope R_scope.

Lemma row_count (rows : list (list nat)) r : forall start,
  length (filter (fun e : nat * nat => (fst e =? r)%nat)
                 (flat_map (fun ir : nat * list nat =>
                              map (fun item => (fst ir, item)) (snd ir))
                           (combine (seq start (length rows)) rows)))
  = if (start <=? r)%nat then length (nth (r - start) rows []) else 0%nat.
Proof.
  induction rows as [|row rows IH]; intros start.
  - simpl. destruct (start <=? r)%nat; [|reflexivity].
    destruct (r - start)%nat; reflexivity.
  - cbn [length seq combine flat_map fst snd].
    rewrite filter_app, length_app, IH.
    assert (Hrow : length (filter (fun e : nat * nat => (fst e =? r)%nat)
                                  (map (fun item => (start, item)) row))
                   = if (start =? r)%nat then length row else 0%nat).
    { clear IH. induction row as [|v row IHrow]; simpl.
      - destruct (start =? r)%nat; reflexivity.
      - destruct (start =? r)%nat; simpl; [now rewrite IHrow | assumption]. }
    rewrite Hrow.
    destruct (Nat.eqb_spec start r) as [Heq | Hne].
    + destruct (Nat.leb_spec (S start) r); [lia|].
      destruct (Nat.leb_spec start r); [|lia].
      replace (r - start)%nat with 0%nat by lia. simpl. lia.
    + destruct (Nat.leb_spec start r) as [Hle | Hgt].
      * destruct (Nat.leb_spec (S start) r); [|lia].
        replace (r - start)%nat with (S (r - S start)) by lia. reflexivity.
      * destruct (Nat.leb_spec (S start) r); [lia | reflexivity].
Qed.

Lemma row_sum (data : list (list nat)) r :
  scipy.Zsum (map scipy.weight_of
                  (filter (fun t => (scipy.row_of t =? r)%nat)
                          (scipy.coo (incidence data))))
  = Z.of_nat (length (nth r data [])).
Proof.
  pose proof (row_count data r 0) as Hcount.
  rewrite Nat.sub_0_r in Hcount. simpl (0 <=? r)%nat in Hcount.
  cbv iota in Hcount. rewrite <- Hcount.
  unfold incidence, entries, enumerate. simpl scipy.coo.
  generalize (flat_map (fun ir : nat * list nat =>
                          map (fun item => (fst ir, item)) (snd ir))
                       (combine (seq 0 (length data)) data)).
  intros E. induction E as [|e E IH]; [reflexivity|].
  cbn [map filter]. unfold scipy.row_of at 1. cbn [fst snd].
  destruct (fst e =? r)%nat.
  - cbn [map length]. unfold scipy.Zsum in *. cbn [fold_right].
    rewrite IH. unfold scipy.weight_of. simpl snd. lia.
  - exact IH.
Qed.

Lemma floor_range x (lo hi : Z) :
  IZR lo <= x <= IZR hi -> (lo <= pymath.floor x <= hi)%Z.
Proof.
  intros [Hlo Hhi]. destruct (floor_spec x) as [H1 H2]. split.
  - assert (H : (lo - 1 < pymath.floor x)%Z)
      by (apply lt_IZR; rewrite minus_IZR; lra).
    lia.
  - apply le_IZR. lra.
Qed.

(** X29. When every user holds a value, the bound the quantile report
    chooses, the integer part of the 90th percentile of the numbers of
    records per user, is at least [1] and at most the degree. *)
Theorem optimal_bound_range data d :
  DataSet_init data = OK d -> Forall (fun r => r <> []) data ->
  exists b, _optimal_bound d = OK b /\ (1 <= b <= Z.of_nat (degree d))%Z.
Proof.
  intros Hd Hrows.
  destruct (DataSet_init_fields data d Hd) as (Hdata & Hdeg & _ & Hne).
  rewrite Forall_forall in Hrows.
  assert (Hconcat : concat data <> []).
  { destruct data as [|row data]; [congruence|].
    simpl. intros H. apply app_eq_nil in H.
    apply (Hrows row); [now left | apply H]. }
  unfold _optimal_bound, as_matrix. rewrite Hdata, (to_matrix_ok data Hconcat).
  cbn [bind].
  set (sums := map IZR (row_sums (incidence data))).
  assert (Hrange : forall x, In x sums -> 1 <= x <= IZR (Z.of_nat (degree d))).
  { intros x Hx. unfold sums, row_sums in Hx. rewrite map_map in Hx.
    apply in_map_iff in Hx. destruct Hx as (r & <- & Hr). apply in_seq in Hr.
    rewrite row_sum.
    assert (Hlt : (r < length data)%nat).
    { unfold scipy.nrows, incidence in Hr. simpl in Hr.
      assert (Hmax : (list_max (map fst (entries data)) <= length data - 1)%nat).
      { apply list_max_le, Forall_forall. intros i Hi.
        apply in_map_iff in Hi. destruct Hi as ([i' v] & <- & Hin).
        apply in_entries in Hin. simpl. lia. }
      destruct data; [congruence | simpl in *; lia]. }
    assert (Hpos : (1 <= length (nth r data []))%nat).
    { assert (nth r data [] <> []) by (apply Hrows, nth_In; assumption).
      destruct (nth r data []); [congruence | simpl; lia]. }
    pose proof (record_length_degree data r) as Hmax. rewrite <- Hdeg in Hmax.
    split; [apply (IZR_le 1) | apply IZR_le]; lia. }
  assert (Hsums : sums <> []).
  { unfold sums, row_sums, scipy.nrows, incidence. simpl. discriminate. }
  destruct (quantile_monotone sums (9 / 10) (9 / 10) Hsums
              ltac:(lra) ltac:(lra) ltac:(lra))
    as (x & x' & Hx & _ & _ & Hlo & Hhi').
  assert (Hlen : (0 < length sums)%nat) by (destruct sums; [congruence | simpl; lia]).
  assert (Hhi : x <= nth (length sums - 1) (sort sums) 0).
  { destruct (quantile_monotone sums (9 / 10) (9 / 10) Hsums
                ltac:(lra) ltac:(lra) ltac:(lra))
      as (y & y' & Hy & Hy' & _ & _ & Hhi).
    rewrite Hx in Hy, Hy'. injection Hy as <-. now injection Hy' as <-. }
  assert (Hfirst : 1 <= nth 0 (sort sums) 0).
  { apply Hrange, in_sort, nth_In. rewrite length_sort. lia. }
  assert (Hlast : nth (length sums - 1) (sort sums) 0 <= IZR (Z.of_nat (degree d))).
  { apply Hrange, in_sort, nth_In. rewrite length_sort. lia. }
  rewrite Hx. cbn [bind]. unfold int_of, pymath.int.
  destruct (Rle_dec 0 x) as [_ | Hneg]; [|lra].
  eexists. split; [reflexivity|].
  apply floor_range. lra.
Qed.

Lemma optimal_bound_range_witness :
  exists b, _optimal_bound test_dataset = OK b
            /\ (1 <= b <= Z.of_nat (degree test_dataset))%Z.
Proof.
  apply (optimal_bound_range test_data test_dataset);
    [reflexivity | repeat constructor; discriminate].
Defined.

End OptimalBound.

(** ** A bound of zero among the candidates *)

Section ZeroBound.

Import pymath diffprivlib selection dp.
Local Open Scope R_scope.

(** X30. The private selector takes the candidate bounds as the
    sensitivities of the mechanism, so a list of bounds that holds [0]
    is rejected by the assertion of the constructor, whatever the
    counts. *)
Theorem zero_bound_rejected eps beta counts (bounds : list Z) :
  beta <> 0 -> length counts = length bounds -> In 0%Z bounds ->
  _dp_max_utility_selector eps beta counts bounds
  = Raise (AssertionError "0 not in sensitivity").
Proof.
  intros Hbeta Hlen Hzero. unfold _dp_max_utility_selector.
  rewrite div_OK by assumption. cbn [bind].
  unfold broadcast. rewrite Hlen, Nat.eqb_refl. cbn [bind].
  unfold GeneralizedExponential_init.
  rewrite !length_map, length_combine, Hlen, Nat.min_id, Nat.eqb_refl.
  simpl negb. cbv iota.
  destruct (in_dec Req_dec_T 0 (map IZR bounds)) as [_ | Hnot]; [reflexivity|].
  exfalso. apply Hnot. apply in_map_iff. now exists 0%Z.
Qed.

Lemma zero_bound_rejected_witness :
  _dp_max_utility_selector 1 (1 / 2) [3; 4] [0; 1]%Z
  = Raise (AssertionError "0 not in sensitivity").
Proof.
  apply (zero_bound_rejected 1 (1 / 2) [3; 4] [0; 1]%Z);
    [lra | reflexivity | now left].
Defined.

End ZeroBound.
